(** * Money-muling post-processing engines

    A shallow embedding of the two post-detection passes of the backend:

    - [fan-in-validation.ts]: two-phase fan-in validation
      ([identifyAggregationCandidates], the four corroboration checks and
      [validateFanInTwoPhase]);
    - [relationship-intelligence.ts]: the score dampening pass
      ([adjustScoresUsingRelationshipIntelligence]).

    Modelling conventions.

    - A JavaScript [number] is a rational ([Q]); counts, epoch
      milliseconds and the results of [Math.round] are integers ([Z]).
    - The amounts of fan-in validation are added, multiplied and compared
      as the code does it, in double precision: every operation is the
      exact operation followed by rounding to 53 significant bits, ties
      to even ([round53]), and a decimal constant is the double nearest
      to it.  The exponent range of a double is not modelled: no
      overflow, no underflow.
    - Scores, and the sub-scores of relationship intelligence, are
      computed in exact rationals.
    - [RawTransaction.timestamp] is kept as the epoch milliseconds that
      [new Date(ts).getTime()] yields; unparseable timestamps are outside
      the model.
    - The [accounts] array is a list of account objects, one object per
      slot; a reference to an account object is its index in that list.
    - A [Map] that is only read by key, or whose iteration only looks for
      one entry, is a [gmap]; a [Map] whose insertion order is visible is
      an association list in insertion order.  A [Set] is a [gset].
    - [Math.sqrt] and the rendering of a score inside a template literal
      are parameters of the relationship-intelligence model; what is
      proved holds for every choice of them. *)

From Stdlib Require Import ZArith QArith Qround Lqa Lia Sorted Ascii.
From stdpp Require Import base option list gmap sets strings pretty.

Local Open Scope string_scope.
Local Open Scope list_scope.
Local Open Scope Z_scope.

(** ** Data model (types.ts) *)

(** Modelled from the spec: the declaration of [RawTransaction] in
    [./types] is not among the sources.  The fields are the four the
    engines read; [timestamp] holds the parsed point in time. *)
Record RawTransaction := mkTx {
  sender_id : string;
  receiver_id : string;
  amount : Q;
  timestamp : Z
}.

Inductive FanInClassification :=
| aggregation_candidate
| confirmed_money_laundering.

#[global] Instance FanInClassification_eq_dec : EqDecision FanInClassification.
Proof. solve_decision. Defined.

(** Modelled from the spec: the declaration of [AccountNode] in [./types]
    is not among the sources.  The fields are those of the data model of
    the specification; [fan_in_classification] and [corroboration_checks]
    are absent ([None]) until the fan-in engine assigns them. *)
Record AccountNode := mkAccount {
  account_id : string;
  suspicion_score : Q;
  is_suspicious : bool;
  detected_patterns : list string;
  total_transactions : Z;
  explanation : string;
  triggered_algorithms : list string;
  fan_in_classification : option FanInClassification;
  corroboration_checks : option (list string)
}.

(** Field assignments on an account object. *)

Definition set_suspicion_score (v : Q) (a : AccountNode) : AccountNode :=
  mkAccount (account_id a) v (is_suspicious a) (detected_patterns a)
    (total_transactions a) (explanation a) (triggered_algorithms a)
    (fan_in_classification a) (corroboration_checks a).

Definition set_is_suspicious (v : bool) (a : AccountNode) : AccountNode :=
  mkAccount (account_id a) (suspicion_score a) v (detected_patterns a)
    (total_transactions a) (explanation a) (triggered_algorithms a)
    (fan_in_classification a) (corroboration_checks a).

Definition set_explanation (v : string) (a : AccountNode) : AccountNode :=
  mkAccount (account_id a) (suspicion_score a) (is_suspicious a)
    (detected_patterns a) (total_transactions a) v (triggered_algorithms a)
    (fan_in_classification a) (corroboration_checks a).

Definition set_triggered_algorithms (v : list string) (a : AccountNode)
  : AccountNode :=
  mkAccount (account_id a) (suspicion_score a) (is_suspicious a)
    (detected_patterns a) (total_transactions a) (explanation a) v
    (fan_in_classification a) (corroboration_checks a).

Definition set_fan_in_classification (v : FanInClassification)
  (a : AccountNode) : AccountNode :=
  mkAccount (account_id a) (suspicion_score a) (is_suspicious a)
    (detected_patterns a) (total_transactions a) (explanation a)
    (triggered_algorithms a) (Some v) (corroboration_checks a).

Definition set_corroboration_checks (v : list string) (a : AccountNode)
  : AccountNode :=
  mkAccount (account_id a) (suspicion_score a) (is_suspicious a)
    (detected_patterns a) (total_transactions a) (explanation a)
    (triggered_algorithms a) (fan_in_classification a) (Some v).

(** Comparisons of rationals as booleans. *)

Definition Qge_bool (x y : Q) : bool := Qle_bool y x.
Definition Qgt_bool (x y : Q) : bool := negb (Qle_bool x y).
Definition Qlt_bool (x y : Q) : bool := negb (Qle_bool y x).

(** [Math.round]: the nearest integer, halves towards plus infinity. *)
Definition Math_round (x : Q) : Z := Qfloor (x + (1 # 2))%Q.

(** [array.reduce((s, x) => s + f(x), 0)]. *)
Definition sumQ {A} (f : A → Q) (l : list A) : Q :=
  foldl (λ s x, (s + f x)%Q) 0%Q l.

(** Double precision: the rational nearest to [x] among those with a
    significand of 53 bits, ties to the even significand.  With
    [2^52 <= |x| / 2^e < 2^53] the significand is [|x| / 2^e] rounded to
    an integer. *)
Definition round53 (x : Q) : Q :=
  let n := Z.abs (Qnum x) in
  let d := Zpos (Qden x) in
  if bool_decide (n = 0) then 0%Q
  else
    let e0 := Z.log2 n - Z.log2 d - 52 in
    let e := if bool_decide (n * 2 ^ Z.max 0 (- e0)
                             < 2 ^ 52 * (d * 2 ^ Z.max 0 e0))
             then e0 - 1 else e0 in
    let num := n * 2 ^ Z.max 0 (- e) in
    let den := d * 2 ^ Z.max 0 e in
    let m := num / den in
    let r := num mod den in
    let m' := if bool_decide (den < 2 * r)
                 || (bool_decide (2 * r = den) && Z.odd m)
              then m + 1 else m in
    Qred ((Z.sgn (Qnum x) * m' * 2 ^ Z.max 0 e)
          # Z.to_pos (2 ^ Z.max 0 (- e))).

(** [x + y], [x - y] and [x * y] on doubles. *)
Definition fadd (x y : Q) : Q := round53 (x + y).
Definition fsub (x y : Q) : Q := round53 (x - y).
Definition fmul (x y : Q) : Q := round53 (x * y).

(** [array.reduce((s, x) => s + f(x), 0)] and [total += f(x)] on
    doubles: the sum is rounded after every addition, in list order. *)
Definition sumF {A} (f : A → Q) (l : list A) : Q :=
  foldl (λ s x, fadd s (f x)) 0%Q l.

(** A stable sort by an ascending integer key, as
    [array.sort((a, b) => key(a) - key(b))]. *)
Fixpoint insertAsc {A} (key : A → Z) (x : A) (l : list A) : list A :=
  match l with
  | [] => [x]
  | y :: l' =>
      if bool_decide (key x < key y)
      then x :: y :: l'
      else y :: insertAsc key x l'
  end.

Definition sortAsc {A} (key : A → Z) (l : list A) : list A :=
  foldl (λ acc x, insertAsc key x acc) [] l.

Definition sortByTime (l : list RawTransaction) : list RawTransaction :=
  sortAsc timestamp l.

Module FanIn.

(** ** fan-in-validation.ts *)

Definition FAN_IN_WINDOW_MS : Z := 72 * 60 * 60 * 1000.
Definition MIN_UNIQUE_SENDERS : nat := 3.
Definition AMOUNT_TOLERANCE : Q := round53 (20 # 100).
Definition RAPID_OUTFLOW_WINDOW_MS : Z := 24 * 60 * 60 * 1000.
Definition RAPID_OUTFLOW_RATIO : Q := round53 (50 # 100).
Definition LOW_ACTIVITY_TX_THRESHOLD : Z := 3.

(** [AdjList]: sender id → (receiver id → transactions of that pair). *)
Abbreviation AdjList := (gmap string (gmap string (list RawTransaction))).

Record AggregationCandidate := mkCandidate {
  accountId : string;
  senders : gset string;
  totalReceived : Q;
  windowStart : Z;
  windowEnd : Z
}.

(** *** Phase 1 *)

(** [byReceiver]: a [Map] filled in the order receivers are first seen. *)
Fixpoint pushByKey (k : string) (tx : RawTransaction)
  (m : list (string * list RawTransaction))
  : list (string * list RawTransaction) :=
  match m with
  | [] => [(k, [tx])]
  | (k', l) :: m' =>
      if bool_decide (k' = k) then (k', l ++ [tx]) :: m'
      else (k', l) :: pushByKey k tx m'
  end.

Definition groupByReceiver (transactions : list RawTransaction)
  : list (string * list RawTransaction) :=
  foldl (λ m tx, pushByKey (receiver_id tx) tx m) [] transactions.

(** [new Date(sorted[i].timestamp).getTime()]; every index the scan reads
    is in range. *)
Definition timeAt (sorted : list RawTransaction) (i : nat) : Z :=
  from_option timestamp 0 (sorted !! i).

(** The inner [while] loop that advances [left]; it runs at most
    [right - left] times, which is the fuel handed to it. *)
Fixpoint slideLeft (fuel : nat) (sorted : list RawTransaction)
  (rightTime : Z) (left right : nat) : nat :=
  match fuel with
  | O => left
  | S fuel' =>
      if bool_decide (left < right)%nat
         && bool_decide (rightTime - timeAt sorted left > FAN_IN_WINDOW_MS)
      then slideLeft fuel' sorted rightTime (S left) right
      else left
  end.

(** [sorted[left..right]], both ends included. *)
Definition window (sorted : list RawTransaction) (left right : nat)
  : list RawTransaction :=
  take (S right - left) (drop left sorted).

Record ScanState := mkScan {
  scan_left : nat;
  scan_best : option (gset string * nat * nat)  (* bestSenders, bestLeft, bestRight *)
}.

(** One turn of the [for (right ...)] loop. *)
Definition scanStep (sorted : list RawTransaction) (st : ScanState)
  (right : nat) : ScanState :=
  let rightTime := timeAt sorted right in
  let left := slideLeft (right - scan_left st) sorted rightTime
                (scan_left st) right in
  let sendersInWindow : gset string :=
    list_to_set (sender_id <$> window sorted left right) in
  let best :=
    if bool_decide (MIN_UNIQUE_SENDERS ≤ size sendersInWindow)%nat then
      match scan_best st with
      | None => Some (sendersInWindow, left, right)
      | Some (bestSenders, _, _) =>
          if bool_decide (size bestSenders < size sendersInWindow)%nat
          then Some (sendersInWindow, left, right)
          else scan_best st
      end
    else scan_best st in
  mkScan left best.

Definition scanWindows (sorted : list RawTransaction) : ScanState :=
  foldl (scanStep sorted) (mkScan 0 None) (seq 0 (length sorted)).

Definition candidateOf (receiver : string) (txs : list RawTransaction)
  : option AggregationCandidate :=
  let sorted := sortByTime txs in
  match scan_best (scanWindows sorted) with
  | None => None
  | Some (bestSenders, bestLeft, bestRight) =>
      let total :=
        sumF amount
          (filter (λ tx, sender_id tx ∈ bestSenders)
             (window sorted bestLeft bestRight)) in
      Some (mkCandidate receiver bestSenders total
              (timeAt sorted bestLeft) (timeAt sorted bestRight))
  end.

Definition identifyAggregationCandidates (transactions : list RawTransaction)
  : list AggregationCandidate :=
  omap (λ '(receiver, txs), candidateOf receiver txs)
       (groupByReceiver transactions).

(** *** Phase 2: the corroboration checks *)

(** [accountMap]: account id → account object; an object is named by its
    slot in the accounts array. *)
Definition accountMap_get (accountMap : gmap string nat)
  (store : list AccountNode) (id : string) : option AccountNode :=
  accountMap !! id ≫= λ i, store !! i.

Definition checkShellChainInvolvement (candidateId : string)
  (totalReceived : Q) (graph : AdjList) (accountMap : gmap string nat)
  (store : list AccountNode) : bool :=
  match graph !! candidateId with
  | None => false
  | Some outNeighbors =>
      existsb (λ '(neighborId, txs),
        match accountMap_get accountMap store neighborId with
        | None => false
        | Some neighbor =>
            if bool_decide (total_transactions neighbor
                            > LOW_ACTIVITY_TX_THRESHOLD)
            then false
            else
              let outAmount := sumF amount txs in
              let lowerBound :=
                fmul totalReceived (fsub 1 AMOUNT_TOLERANCE) in
              if Qge_bool outAmount (fmul lowerBound (5 # 10)) then
                match graph !! neighborId with
                | None => false
                | Some hopNeighbors =>
                    bool_decide (0 < size hopNeighbors)%nat
                    && existsb (λ '(nextHop, _),
                                  bool_decide (nextHop ≠ candidateId))
                               (map_to_list hopNeighbors)
                end
              else false
        end) (map_to_list outNeighbors)
  end.

Definition checkCycleParticipation (candidateId : string)
  (cycleNodes : gset string) (graph : AdjList) : bool :=
  if bool_decide (candidateId ∈ cycleNodes) then true
  else match graph !! candidateId with
       | None => false
       | Some outNeighbors =>
           existsb (λ '(neighborId, _), bool_decide (neighborId ∈ cycleNodes))
                   (map_to_list outNeighbors)
       end.

Definition checkRapidLayeredOutflow (candidateId : string)
  (candidate : AggregationCandidate) (transactions : list RawTransaction)
  : bool :=
  let outgoingAfterAggregation :=
    filter (λ tx, sender_id tx = candidateId
                  ∧ timestamp tx >= windowStart candidate
                  ∧ timestamp tx <= windowEnd candidate
                                   + RAPID_OUTFLOW_WINDOW_MS)
           transactions in
  if bool_decide (length outgoingAfterAggregation = 0%nat) then false
  else
    let sorted := sortByTime outgoingAfterAggregation in
    let totalOutflow := sumF amount sorted in
    Qge_bool totalOutflow (fmul (totalReceived candidate) RAPID_OUTFLOW_RATIO).

Definition checkRoleConflict (candidateId : string)
  (shellNodes fanOutNodes cycleNodes : gset string) : bool :=
  if bool_decide (candidateId ∈ shellNodes) then true
  else if bool_decide (candidateId ∈ fanOutNodes) then true
  else if bool_decide (candidateId ∈ cycleNodes) then true
  else false.

(** *** Public API *)

Definition ALGORITHM_NAME : string := "Two-Phase Fan-In Validation".

(** [for (const a of accounts) accountMap.set(a.account_id, a)]: a later
    account with the same id replaces an earlier one. *)
Definition buildAccountMap (accounts : list AccountNode) : gmap string nat :=
  foldl (λ m '(i, a), <[account_id a := i]> m) ∅ (imap pair accounts).

(** [for (const l of lists) for (const n of l) set.add(n)]. *)
Definition collectNodes (lists : list (list string)) : gset string :=
  foldl (λ s l, foldl (λ s n, {[n]} ∪ s) s l) ∅ lists.

(** What the lookups of phase 2 read; built once, before the loop. *)
Record Lookups := mkLookups {
  lk_transactions : list RawTransaction;
  lk_graph : AdjList;
  lk_accountMap : gmap string nat;
  lk_cycleNodes : gset string;
  lk_shellNodes : gset string;
  lk_fanOutNodes : gset string
}.

Definition triggeredChecksOf (lk : Lookups) (store : list AccountNode)
  (candidate : AggregationCandidate) : list string :=
  (if checkShellChainInvolvement (accountId candidate)
        (totalReceived candidate) (lk_graph lk) (lk_accountMap lk) store
   then ["shell_chain_involvement"] else [])
  ++ (if checkCycleParticipation (accountId candidate) (lk_cycleNodes lk)
           (lk_graph lk)
      then ["cycle_ring_participation"] else [])
  ++ (if checkRapidLayeredOutflow (accountId candidate) candidate
           (lk_transactions lk)
      then ["rapid_layered_outflow"] else [])
  ++ (if checkRoleConflict (accountId candidate) (lk_shellNodes lk)
           (lk_fanOutNodes lk) (lk_cycleNodes lk)
      then ["role_conflict"] else []).

(** The mutations of one account object, in source order. *)
Definition classifyAccount (triggeredChecks : list string)
  (account : AccountNode) : AccountNode :=
  let a1 := set_corroboration_checks triggeredChecks account in
  let a2 :=
    if bool_decide (0 < length triggeredChecks)%nat
    then set_fan_in_classification confirmed_money_laundering a1
    else set_fan_in_classification aggregation_candidate a1 in
  let a3 :=
    if bool_decide (ALGORITHM_NAME ∈ triggered_algorithms a2) then a2
    else set_triggered_algorithms
           (triggered_algorithms a2 ++ [ALGORITHM_NAME]) a2 in
  let classLabel :=
    if bool_decide (fan_in_classification a3
                    = Some confirmed_money_laundering)
    then "CONFIRMED MONEY LAUNDERING"
    else "AGGREGATION CANDIDATE (unconfirmed)" in
  let checksStr :=
    if bool_decide (0 < length triggeredChecks)%nat
    then "Corroboration: " +:+ String.concat ", " triggeredChecks
    else "No corroboration evidence found" in
  set_explanation
    (explanation a3 +:+ ". Fan-In Validation: " +:+ classLabel +:+ ". "
       +:+ checksStr) a3.

(** The body of the phase-2 loop for one candidate. *)
Definition processCandidate (lk : Lookups) (store : list AccountNode)
  (candidate : AggregationCandidate) : list AccountNode :=
  match lk_accountMap lk !! accountId candidate with
  | None => store
  | Some i =>
      match store !! i with
      | None => store
      | Some account =>
          <[i := classifyAccount (triggeredChecksOf lk store candidate)
                   account]> store
      end
  end.

Definition buildLookups (accounts : list AccountNode)
  (transactions : list RawTransaction) (graph : AdjList)
  (cycles shellChains : list (list string))
  (fanOutMap : gmap string (gset string)) : Lookups :=
  mkLookups transactions graph (buildAccountMap accounts)
    (collectNodes cycles) (collectNodes shellChains) (dom fanOutMap).

(** The function returns nothing; the model returns the accounts array
    as the mutations leave it. *)
Definition validateFanInTwoPhase (accounts : list AccountNode)
  (transactions : list RawTransaction) (graph : AdjList)
  (cycles shellChains : list (list string))
  (fanOutMap : gmap string (gset string)) : list AccountNode :=
  let lk := buildLookups accounts transactions graph cycles shellChains
              fanOutMap in
  foldl (processCandidate lk) accounts
        (identifyAggregationCandidates transactions).

End FanIn.

Module RelIntel.

(** ** relationship-intelligence.ts *)

Definition MIN_RECURRING_TX_COUNT : nat := 3.
Definition MIN_RECURRING_SPAN_MS : Z := 30 * 24 * 60 * 60 * 1000.
Definition MAX_TOTAL_REDUCTION : Z := 50.
Definition DURATION_TIER_1_MS : Z := 60 * 24 * 60 * 60 * 1000.
Definition DURATION_TIER_2_MS : Z := 120 * 24 * 60 * 60 * 1000.
Definition CV_THRESHOLD : Q := 20 # 100.
Definition PERIODICITY_MATCH_RATIO : Q := 70 # 100.
Definition PERIODICITY_TOLERANCE : Q := 25 # 100.

Definition ALGORITHM_NAME : string := "relationship_intelligence".

Definition pairKey (sender receiver : string) : string :=
  sender +:+ "|" +:+ receiver.

Record PairStats := mkPair {
  sender : string;
  receiver : string;
  amounts : list Q;
  timestamps : list Z;
  spanMs : Z
}.

Record ScoreReduction := mkReduction {
  recurring : Z;
  duration : Z;
  consistency : Z;
  periodicity : Z
}.

(** [Math.max] on scores. *)
Definition Math_max (x y : Q) : Q := if Qle_bool x y then y else x.

(** *** Step 1: per-pair statistics *)

(** [pairMap]: a [Map] filled in the order pair keys are first seen. *)
Fixpoint pairMap_add (key : string) (tx : RawTransaction)
  (m : list (string * PairStats)) : list (string * PairStats) :=
  match m with
  | [] =>
      [(key, mkPair (sender_id tx) (receiver_id tx) [amount tx]
                    [timestamp tx] 0)]
  | (k, stats) :: m' =>
      if bool_decide (k = key)
      then (k, mkPair (sender stats) (receiver stats)
                 (amounts stats ++ [amount tx])
                 (timestamps stats ++ [timestamp tx]) (spanMs stats)) :: m'
      else (k, stats) :: pairMap_add key tx m'
  end.

Definition groupByPair (transactions : list RawTransaction)
  : list (string * PairStats) :=
  foldl (λ m tx, pairMap_add (pairKey (sender_id tx) (receiver_id tx)) tx m)
        [] transactions.

(** Sort the timestamps of a pair and set its span. *)
Definition finishStats (stats : PairStats) : PairStats :=
  let ts := sortAsc id (timestamps stats) in
  mkPair (sender stats) (receiver stats) (amounts stats) ts
    (List.last ts 0 - hd 0 ts).

Definition buildPairMap (transactions : list RawTransaction)
  : list (string * PairStats) :=
  prod_map id finishStats <$> groupByPair transactions.

(** *** Step 2: qualifying pairs *)

Definition qualifies (stats : PairStats) : bool :=
  bool_decide (MIN_RECURRING_TX_COUNT ≤ length (amounts stats))%nat
  && bool_decide (spanMs stats >= MIN_RECURRING_SPAN_MS).

Definition qualifyingPairs (transactions : list RawTransaction)
  : list PairStats :=
  List.filter qualifies (snd <$> buildPairMap transactions).

(** *** Step 3: the four sub-analyses of a pair *)

Section SubScores.

(** [Math.sqrt] on rationals is a parameter of the model. *)
Context (Math_sqrt : Q → Q).

Definition recurringReduction (pair : PairStats) : Z :=
  Z.min 25
    (Math_round
       (10 + (inject_Z (Z.of_nat (length (amounts pair)) - 3) / 7) * 15)%Q).

Definition durationReduction (pair : PairStats) : Z :=
  if bool_decide (spanMs pair >= DURATION_TIER_2_MS) then 20
  else if bool_decide (spanMs pair >= DURATION_TIER_1_MS) then 10
  else 0.

Definition lengthQ {A} (l : list A) : Q := inject_Z (Z.of_nat (length l)).

Definition consistencyReduction (pair : PairStats) : Z :=
  if bool_decide (2 ≤ length (amounts pair))%nat then
    let mean := (sumQ id (amounts pair) / lengthQ (amounts pair))%Q in
    if Qgt_bool mean 0 then
      let variance :=
        (sumQ (λ a, (a - mean) ^ 2) (amounts pair)
         / lengthQ (amounts pair))%Q in
      let stdDev := Math_sqrt variance in
      let cv := (stdDev / mean)%Q in
      if Qlt_bool cv CV_THRESHOLD
      then Math_round (15 * (1 - cv / CV_THRESHOLD))%Q
      else 0
    else 0
  else 0.

(** [gaps[i-1] = timestamps[i] - timestamps[i-1]]. *)
Fixpoint gapsOf (ts : list Z) : list Z :=
  match ts with
  | a :: (b :: _) as rest => (b - a) :: gapsOf rest
  | _ => []
  end.

Definition periodicityReduction (pair : PairStats) : Z :=
  if bool_decide (3 ≤ length (timestamps pair))%nat then
    let gaps := gapsOf (timestamps pair) in
    let avgGap := (sumQ inject_Z gaps / lengthQ gaps)%Q in
    if Qgt_bool avgGap 0 then
      let lo := (avgGap * (1 - PERIODICITY_TOLERANCE))%Q in
      let hi := (avgGap * (1 + PERIODICITY_TOLERANCE))%Q in
      let matchCount :=
        length (List.filter
                  (λ g, Qge_bool (inject_Z g) lo && Qle_bool (inject_Z g) hi)
                  gaps) in
      let matchRatio :=
        (inject_Z (Z.of_nat matchCount) / lengthQ gaps)%Q in
      if Qge_bool matchRatio PERIODICITY_MATCH_RATIO
      then Math_round
             (10 + ((matchRatio - PERIODICITY_MATCH_RATIO)
                    / (1 - PERIODICITY_MATCH_RATIO)) * 10)%Q
      else 0
    else 0
  else 0.

(** [ensureReduction] followed by the four best-of updates, for one
    account id. *)
Definition zeroReduction : ScoreReduction := mkReduction 0 0 0 0.

Definition bestOf (pair : PairStats)
  (accountReductions : gmap string ScoreReduction) (accountId : string)
  : gmap string ScoreReduction :=
  let r := default zeroReduction (accountReductions !! accountId) in
  <[accountId :=
      mkReduction (Z.max (recurring r) (recurringReduction pair))
                  (Z.max (duration r) (durationReduction pair))
                  (Z.max (consistency r) (consistencyReduction pair))
                  (Z.max (periodicity r) (periodicityReduction pair))]>
    accountReductions.

Definition applyPair (accountReductions : gmap string ScoreReduction)
  (pair : PairStats) : gmap string ScoreReduction :=
  foldl (bestOf pair) accountReductions [sender pair; receiver pair].

Definition buildReductions (transactions : list RawTransaction)
  : gmap string ScoreReduction :=
  foldl applyPair ∅ (qualifyingPairs transactions).

(** *** Step 4: capped reductions *)

(** How a score is rendered inside a template literal is a parameter of
    the model; integers are rendered in decimal. *)
Context (Number_toString : Q → string).

Definition showZ (z : Z) : string := pretty z.

Definition totalReductionOf (r : ScoreReduction) : Z :=
  Z.min MAX_TOTAL_REDUCTION
    (recurring r + duration r + consistency r + periodicity r).

Definition breakdownParts (r : ScoreReduction) : list string :=
  (if bool_decide (recurring r > 0)
   then ["recurring_pair(-" +:+ showZ (recurring r) +:+ ")"] else [])
  ++ (if bool_decide (duration r > 0)
      then ["long_relationship(-" +:+ showZ (duration r) +:+ ")"] else [])
  ++ (if bool_decide (consistency r > 0)
      then ["amount_consistency(-" +:+ showZ (consistency r) +:+ ")"]
      else [])
  ++ (if bool_decide (periodicity r > 0)
      then ["monthly_periodicity(-" +:+ showZ (periodicity r) +:+ ")"]
      else []).

(** The mutations of one account object once a positive reduction is
    known, in source order. *)
Definition applyReduction (r : ScoreReduction) (totalReduction : Z)
  (account : AccountNode) : AccountNode :=
  let oldScore := suspicion_score account in
  let a1 :=
    set_suspicion_score
      (Math_max 0 (oldScore - inject_Z totalReduction)%Q) account in
  let a2 :=
    set_triggered_algorithms (triggered_algorithms a1 ++ [ALGORITHM_NAME])
      a1 in
  let detail := String.concat ", " (breakdownParts r) in
  let note :=
    " | Relationship Intelligence: score reduced by "
      +:+ showZ totalReduction
      +:+ " (" +:+ Number_toString oldScore +:+ "→"
      +:+ Number_toString (suspicion_score a2) +:+ ") [" +:+ detail +:+ "]" in
  let a3 := set_explanation (explanation a2 +:+ note) a2 in
  set_is_suspicious (Qgt_bool (suspicion_score a3) 0) a3.

(** The body of the step-4 loop for one account. *)
Definition adjustAccount (cycleMembers : gset string)
  (accountReductions : gmap string ScoreReduction) (account : AccountNode)
  : AccountNode :=
  if bool_decide (account_id account ∈ cycleMembers) then account
  else if Qle_bool (suspicion_score account) 0 then account
  else
    match accountReductions !! account_id account with
    | None => account
    | Some r =>
        let totalReduction := totalReductionOf r in
        if bool_decide (totalReduction <= 0) then account
        else applyReduction r totalReduction account
    end.

Definition adjustScoresUsingRelationshipIntelligence
  (accounts : list AccountNode) (transactions : list RawTransaction)
  (cycleMembers : gset string) : list AccountNode :=
  adjustAccount cycleMembers (buildReductions transactions) <$> accounts.

End SubScores.

End RelIntel.

(** * Vocabulary of the specification *)

Import FanIn RelIntel.

(** The four fixed check names, in canonical order. *)
Definition CHECK_NAMES : list string :=
  ["shell_chain_involvement"; "cycle_ring_participation";
   "rapid_layered_outflow"; "role_conflict"].

(** The incoming transactions of [receiver] inside the 72-hour window that
    starts at [t0], and the unique senders among them. *)
Definition incomingWithin (transactions : list RawTransaction)
  (receiver : string) (t0 : Z) : list RawTransaction :=
  filter (λ tx, receiver_id tx = receiver
                ∧ t0 <= timestamp tx
                ∧ timestamp tx <= t0 + FAN_IN_WINDOW_MS) transactions.

Definition uniqueSendersWithin (transactions : list RawTransaction)
  (receiver : string) (t0 : Z) : gset string :=
  list_to_set (sender_id <$> incomingWithin transactions receiver t0).

(** Some 72-hour window of the receiver's incoming transactions holds at
    least three unique senders. *)
Definition hasFanInWindow (transactions : list RawTransaction)
  (receiver : string) : Prop :=
  ∃ t0, (MIN_UNIQUE_SENDERS
         ≤ size (uniqueSendersWithin transactions receiver t0))%nat.

(** Two account states that agree on every field but [explanation]. *)
Definition sameButExplanation (a b : AccountNode) : Prop :=
  account_id a = account_id b
  ∧ suspicion_score a = suspicion_score b
  ∧ is_suspicious a = is_suspicious b
  ∧ detected_patterns a = detected_patterns b
  ∧ total_transactions a = total_transactions b
  ∧ triggered_algorithms a = triggered_algorithms b
  ∧ fan_in_classification a = fan_in_classification b
  ∧ corroboration_checks a = corroboration_checks b.

(** What a second run may do to an account: change nothing but
    [explanation], and that only by appending to it. *)
Definition rerunOf (a2 a1 : AccountNode) : Prop :=
  sameButExplanation a2 a1
  ∧ ∃ suffix, explanation a2 = explanation a1 +:+ suffix.

(** The three conditions of the shell-chain check on one outgoing
    neighbour of the candidate; [total] adds up the amounts sent to the
    neighbour and [bound] is the least total that counts. *)
Definition shellNeighbor (total : list RawTransaction → Q) (bound : Q)
  (candidateId : string) (graph : AdjList)
  (accountMap : gmap string nat) (store : list AccountNode)
  (neighborId : string) : Prop :=
  ∃ outNeighbors txs neighbor,
    graph !! candidateId = Some outNeighbors
    ∧ outNeighbors !! neighborId = Some txs
    ∧ accountMap_get accountMap store neighborId = Some neighbor
    ∧ total_transactions neighbor <= 3
    ∧ (bound <= total txs)%Q
    ∧ ∃ hopNeighbors nextHop,
        graph !! neighborId = Some hopNeighbors
        ∧ is_Some (hopNeighbors !! nextHop)
        ∧ nextHop ≠ candidateId.

(** The bound of the shell-chain check as the code computes it:
    [(totalReceived * (1 - 0.20)) * 0.5], each operation in double
    precision. *)
Definition shellBound (totalReceived : Q) : Q :=
  fmul (fmul totalReceived (fsub 1 AMOUNT_TOLERANCE)) (5 # 10).

(** The recurring-pair score as the specification words it: the line
    [10 + ((n - 3) / 7) * 15], clamped at 25, with no rounding. *)
Definition recurringLine (n : nat) : Q :=
  (10 + (inject_Z (Z.of_nat n - 3) / 7) * 15)%Q.

Definition recurringScoreSpec (n : nat) : Q :=
  if Qle_bool 25 (recurringLine n) then 25%Q else recurringLine n.

(** * Invariants used by the proofs *)

Section Ascending.
Context {A : Type} (key : A → Z).

Definition ascending (l : list A) : Prop :=
  ∀ i j x y, (i ≤ j)%nat → l !! i = Some x → l !! j = Some y →
             key x <= key y.

Definition sortedBy (l : list A) : Prop :=
  StronglySorted (λ a b, key a <= key b) l.

End Ascending.

(** [byReceiver] after a prefix [txs] of the batch. *)
Definition groupedFrom (txs : list RawTransaction)
  (m : list (string * list RawTransaction)) : Prop :=
  NoDup m.*1
  ∧ ∀ r l tx, (r, l) ∈ m → tx ∈ l → tx ∈ txs ∧ receiver_id tx = r.

(** What the scan guarantees about [bestSenders], [bestLeft], [bestRight]. *)
Definition goodBest (sorted : list RawTransaction)
  (best : option (gset string * nat * nat)) : Prop :=
  ∀ s bl br, best = Some (s, bl, br) →
    (bl ≤ br < length sorted)%nat
    ∧ timeAt sorted br - timeAt sorted bl <= FAN_IN_WINDOW_MS
    ∧ s = list_to_set (sender_id <$> window sorted bl br)
    ∧ (MIN_UNIQUE_SENDERS ≤ size s)%nat.

(** Every reference held by [accountMap] names a live account object with
    that id. *)
Definition amSound (am : gmap string nat) (store : list AccountNode) : Prop :=
  ∀ id i, am !! id = Some i → ∃ a, store !! i = Some a ∧ account_id a = id.

(** The fields of an account that phase 2 reads from other accounts. *)
Definition frameR (a b : AccountNode) : Prop :=
  account_id a = account_id b ∧ total_transactions a = total_transactions b.

(** What holds of every entry of [accountReductions]. *)
Definition goodReduction (r : ScoreReduction) : Prop :=
  10 <= recurring r ∧ 0 <= duration r ∧ 0 <= consistency r
  ∧ 0 <= periodicity r.

(** * Vocabulary of the further properties *)

(** ** Fan-in validation *)

(** The unique senders of a list of transactions. *)
Definition sendersOf (l : list RawTransaction) : gset string :=
  list_to_set (sender_id <$> l).

(** The transactions of a list inside the 72-hour window that starts at
    [t0]. *)
Definition withinOf (l : list RawTransaction) (t0 : Z)
  : list RawTransaction :=
  filter (λ tx, t0 <= timestamp tx ∧ timestamp tx <= t0 + FAN_IN_WINDOW_MS) l.

(** The candidate's outgoing transactions that the rapid-outflow check
    adds up: from [windowStart] to 24 hours after [windowEnd]. *)
Definition outflowOf (transactions : list RawTransaction)
  (candidate : AggregationCandidate) : list RawTransaction :=
  filter (λ tx, sender_id tx = accountId candidate
                ∧ windowStart candidate <= timestamp tx
                ∧ timestamp tx
                  <= windowEnd candidate + 24 * 60 * 60 * 1000)
         transactions.

(** Membership in some list of a list of lists ([cycles], [shellChains]). *)
Definition inSome (lists : list (list string)) (n : string) : Prop :=
  ∃ l, l ∈ lists ∧ n ∈ l.

(** The checks recorded on an account; none before the engine ran. *)
Definition recordedChecks (a : AccountNode) : list string :=
  default [] (corroboration_checks a).

(** What the fan-in engine may do to an account. *)
Definition fanInFrame (a b : AccountNode) : Prop :=
  account_id b = account_id a
  ∧ suspicion_score b = suspicion_score a
  ∧ is_suspicious b = is_suspicious a
  ∧ detected_patterns b = detected_patterns a
  ∧ total_transactions b = total_transactions a
  ∧ (triggered_algorithms b = triggered_algorithms a
     ∨ ((FanIn.ALGORITHM_NAME ∉ triggered_algorithms a)
        ∧ triggered_algorithms b
          = triggered_algorithms a ++ [FanIn.ALGORITHM_NAME]))
  ∧ ∃ suffix, explanation b = explanation a +:+ suffix.

(** ** Relationship intelligence *)

(** Does the character occur in the string? *)
Fixpoint occursIn (c : Ascii.ascii) (s : string) : bool :=
  match s with
  | EmptyString => false
  | String c' s' => bool_decide (c' = c) || occursIn c s'
  end.

(** The key of a transaction in [pairMap], and the transactions of the
    batch filed under a key, in batch order. *)
Definition keyOf (tx : RawTransaction) : string :=
  pairKey (sender_id tx) (receiver_id tx).

Definition txsOfKey (transactions : list RawTransaction) (key : string)
  : list RawTransaction :=
  filter (λ tx, keyOf tx = key) transactions.

(** The account is the sender or the receiver of the pair. *)
Definition involves (pair : PairStats) (id : string) : Prop :=
  sender pair = id ∨ receiver pair = id.

#[global] Instance involves_dec pair id : Decision (involves pair id) :=
  decide (sender pair = id ∨ receiver pair = id).

(** [v] is the largest [score] among the pairs that involve [id], and
    some such pair attains it. *)
Definition bestOver (score : PairStats → Z) (pairs : list PairStats)
  (id : string) (v : Z) : Prop :=
  (∀ pair, pair ∈ pairs → involves pair id → score pair <= v)
  ∧ ∃ pair, pair ∈ pairs ∧ involves pair id ∧ v = score pair.

(** The four best-of updates of one loop turn, on a reduction record. *)
Definition mergeScores (Math_sqrt : Q → Q) (r : ScoreReduction)
  (pair : PairStats) : ScoreReduction :=
  mkReduction (Z.max (recurring r) (recurringReduction pair))
              (Z.max (duration r) (durationReduction pair))
              (Z.max (consistency r) (consistencyReduction Math_sqrt pair))
              (Z.max (periodicity r) (periodicityReduction pair)).

(** Each field of [r] is the best score of its kind among the pairs that
    involve [id]. *)
Definition bestEntry (Math_sqrt : Q → Q) (pairs : list PairStats)
  (id : string) (r : ScoreReduction) : Prop :=
  bestOver recurringReduction pairs id (recurring r)
  ∧ bestOver durationReduction pairs id (duration r)
  ∧ bestOver (consistencyReduction Math_sqrt) pairs id (consistency r)
  ∧ bestOver periodicityReduction pairs id (periodicity r).

(** What the relationship-intelligence engine may do to an account. *)
Definition dampened (a b : AccountNode) : Prop :=
  account_id b = account_id a
  ∧ detected_patterns b = detected_patterns a
  ∧ total_transactions b = total_transactions a
  ∧ fan_in_classification b = fan_in_classification a
  ∧ corroboration_checks b = corroboration_checks a
  ∧ (b = a
     ∨ (triggered_algorithms b
        = triggered_algorithms a ++ [RelIntel.ALGORITHM_NAME]
        ∧ (∃ note, explanation b = explanation a +:+ note)
        ∧ (is_suspicious b = true ↔ (0 < suspicion_score b)%Q))).

(** ** Loop invariants *)

(** The scan after [k] turns of the outer loop: [left] is as far left as
    the 72 hours allow, and [best] beats every window of at most 72 hours
    that ends before [k] and reaches the threshold. *)
Definition scanComplete (sorted : list RawTransaction) (k : nat)
  (st : ScanState) : Prop :=
  (∀ i, (i < scan_left st)%nat → (0 < k)%nat →
        timeAt sorted (k - 1) - timeAt sorted i > FAN_IN_WINDOW_MS)
  ∧ ∀ j lo, (lo ≤ j < k)%nat →
      timeAt sorted j - timeAt sorted lo <= FAN_IN_WINDOW_MS →
      (MIN_UNIQUE_SENDERS ≤ size (sendersOf (window sorted lo j)))%nat →
      ∃ s bl br, scan_best st = Some (s, bl, br)
                 ∧ (size (sendersOf (window sorted lo j)) ≤ size s)%nat.

(** [pairMap] after the first loop over a prefix [txs] of the batch. *)
Definition pairsFrom (txs : list RawTransaction)
  (m : list (string * PairStats)) : Prop :=
  NoDup m.*1
  ∧ (∀ k stats, (k, stats) ∈ m →
       (∃ tx, head (txsOfKey txs k) = Some tx
              ∧ sender stats = sender_id tx ∧ receiver stats = receiver_id tx)
       ∧ amounts stats = amount <$> txsOfKey txs k
       ∧ timestamps stats = timestamp <$> txsOfKey txs k
       ∧ spanMs stats = 0)
  ∧ ∀ tx, tx ∈ txs → keyOf tx ∈ m.*1.

(** * Example data *)

(** An instance of the two model parameters for the examples: a square
    root rounded down to 32 binary places, and a decimal rendering with at
    most 17 fraction digits. *)
Definition sqrtApprox (x : Q) : Q :=
  Z.sqrt (Qnum x * Zpos (Qden x) * 4 ^ 32) # (Qden x * 2 ^ 32).

Fixpoint fractionDigits (fuel : nat) (r d : Z) : string :=
  match fuel with
  | O => ""
  | S fuel' =>
      if bool_decide (r = 0) then ""
      else pretty (10 * r / d) +:+ fractionDigits fuel' (10 * r mod d) d
  end.

Definition showNumber (x : Q) : string :=
  let n := Z.abs (Qnum x) in
  let d := Zpos (Qden x) in
  (if bool_decide (Qnum x < 0) then "-" else "")
  +:+ pretty (n / d)
  +:+ (if bool_decide (n mod d = 0) then ""
       else "." +:+ fractionDigits 17 (n mod d) d).

Definition hour : Z := 60 * 60 * 1000.
Definition day : Z := 24 * hour.

Definition account0 (id : string) (score : Q) (total : Z) : AccountNode :=
  mkAccount id score true [] total "flagged" [] None None.

(** Three senders pay R within ten hours. *)
Definition fanInTxs : list RawTransaction :=
  [mkTx "A" "R" 100 0; mkTx "B" "R" 100 (5 * hour);
   mkTx "C" "R" 100 (10 * hour)].

Definition fanInAccounts : list AccountNode :=
  [account0 "R" 40 4; account0 "N" 10 1].

Definition fanInCandidate : AggregationCandidate :=
  mkCandidate "R" (list_to_set ["A"; "B"; "C"]) 300 0 (10 * hour).

(** R forwards 290 to the low-activity N, which forwards to M. *)
Definition shellGraph : AdjList :=
  {[ "R" := {[ "N" := [mkTx "R" "N" 290 (11 * hour)] ]};
     "N" := {[ "M" := [mkTx "N" "M" 280 (12 * hour)] ]} ]}.

(** R receives 20 + 13 + 10 = 43 and forwards 17.2 (the double nearest to
    it) to the low-activity N, which forwards to M. *)
Definition boundaryTxs : list RawTransaction :=
  [mkTx "A" "R" 20 0; mkTx "B" "R" 13 (5 * hour); mkTx "C" "R" 10 (10 * hour);
   mkTx "R" "N" (round53 (172 # 10)) (11 * hour);
   mkTx "N" "M" 17 (12 * hour)].

Definition boundaryGraph : AdjList :=
  {[ "R" := {[ "N" := [mkTx "R" "N" (round53 (172 # 10)) (11 * hour)] ]};
     "N" := {[ "M" := [mkTx "N" "M" 17 (12 * hour)] ]} ]}.

Definition boundaryCandidate : AggregationCandidate :=
  mkCandidate "R" (list_to_set ["A"; "B"; "C"]) 43 0 (10 * hour).

(** Two senders only pay M. *)
Definition twoSenderTxs : list RawTransaction :=
  [mkTx "A" "M" 100 0; mkTx "B" "M" 100 hour; mkTx "A" "M" 100 (2 * hour)].

Definition twoSenderAccounts : list AccountNode := [account0 "M" 30 3].

(** X pays Y 1000 every thirty days, four times. *)
Definition rentTxs : list RawTransaction :=
  [mkTx "X" "Y" 1000 0; mkTx "X" "Y" 1000 (30 * day);
   mkTx "X" "Y" 1000 (60 * day); mkTx "X" "Y" 1000 (90 * day)].

Definition rentPair : PairStats :=
  mkPair "X" "Y" [1000%Q; 1000%Q; 1000%Q; 1000%Q]
    [0; 30 * day; 60 * day; 90 * day] (90 * day).

Definition rentAccounts : list AccountNode :=
  [account0 "X" 40 4; account0 "Y" 100 4; account0 "Z" 5 1].

Definition smallAccounts : list AccountNode := [account0 "X" 5 4].

(** Both batches together, and Y as one relationship-intelligence run
    leaves it. *)
Definition mixedTxs : list RawTransaction := fanInTxs ++ rentTxs.

Definition mixedAccounts : list AccountNode :=
  [account0 "R" 40 4; account0 "X" 40 4; account0 "Y" 100 4].

Definition mixedOnceY : AccountNode :=
  mkAccount "Y" 50 true [] 4
    "flagged | Relationship Intelligence: score reduced by 50 (100→50) [recurring_pair(-12), long_relationship(-10), amount_consistency(-15), monthly_periodicity(-20)]"
    ["relationship_intelligence"] None None.

Definition fanInOnce : list AccountNode :=
  validateFanInTwoPhase fanInAccounts fanInTxs ∅ [] [] ∅.

Definition fanInTwice : list AccountNode :=
  validateFanInTwoPhase fanInOnce fanInTxs ∅ [] [] ∅.

Definition rentOnce : list AccountNode :=
  adjustScoresUsingRelationshipIntelligence sqrtApprox showNumber
    rentAccounts rentTxs ∅.

Definition rentTwice : list AccountNode :=
  adjustScoresUsingRelationshipIntelligence sqrtApprox showNumber
    rentOnce rentTxs ∅.

(** Two accounts with one id. *)
Definition shadowedAccounts : list AccountNode :=
  [account0 "R" 40 4; account0 "R" 70 9].

(** R also forwards 290 to N an hour after the window, and lies on a
    cycle with N: all four checks hold for R. *)
Definition busyTxs : list RawTransaction :=
  fanInTxs ++ [mkTx "R" "N" 290 (11 * hour)].

Definition busyCycles : list (list string) := [["R"; "N"]].

Definition busyClassified : AccountNode :=
  classifyAccount CHECK_NAMES (account0 "R" 40 4).

(** * Generic facts *)

Lemma foldl_invariant {A B} (P : A → list B → Prop) (f : A → B → A) a0 :
  P a0 [] →
  (∀ a l x, P a l → P (f a x) (l ++ [x])) →
  ∀ l, P (foldl f a0 l) l.
Proof.
  intros H0 Hstep l. induction l as [|x l IH] using rev_ind; [done|].
  rewrite foldl_app. simpl. by apply Hstep.
Qed.

Lemma existsb_ext_elem {A} (f g : A → bool) l :
  (∀ x, x ∈ l → f x = g x) → existsb f l = existsb g l.
Proof.
  induction l as [|x l IH]; intros H; simpl; [done|].
  rewrite (H x), IH; [done| |]; set_solver.
Qed.

Lemma existsb_map_to_list {V} (f : string * V → bool) (m : gmap string V) :
  existsb f (map_to_list m) = true ↔ ∃ k v, m !! k = Some v ∧ f (k, v) = true.
Proof.
  rewrite existsb_exists. split.
  - intros ([k v] & Hin & Hf). exists k, v. split; [|done].
    by apply elem_of_map_to_list, list_elem_of_In.
  - intros (k & v & Hkv & Hf). exists (k, v). split; [|done].
    by apply list_elem_of_In, elem_of_map_to_list.
Qed.

Lemma Qlt_bool_iff x y : Qlt_bool x y = true ↔ (x < y)%Q.
Proof.
  unfold Qlt_bool. rewrite negb_true_iff, <- not_true_iff_false, Qle_bool_iff.
  split; [apply Qnot_le_lt|apply Qlt_not_le].
Qed.

Lemma Math_round_lower (n : Z) (x : Q) :
  (inject_Z n <= x)%Q → n <= Math_round x.
Proof.
  intros Hx. unfold Math_round.
  rewrite <- (Qfloor_Z n). apply Qfloor_resp_le. lra.
Qed.

Lemma Math_round_pos (x : Q) : (0 < x)%Q → 0 <= Math_round x.
Proof. intros Hx. apply (Math_round_lower 0). by apply Qlt_le_weak. Qed.

(** ** Double precision *)

(** The constants of the code and a sum as JavaScript yields them:
    [0.1 + 0.2] is [0.30000000000000004], [1 - 0.2] is the double
    [0.8], and [(43 * 0.8) * 0.5] is the double [17.2], which lies below
    the rational 17.2. *)
Example round53_samples :
  fadd (round53 (1 # 10)) (round53 (2 # 10))
  = 1351079888211149 # 4503599627370496
  ∧ round53 (3 # 10) = 5404319552844595 # 18014398509481984
  ∧ fsub 1 (round53 (2 # 10)) = round53 (8 # 10)
  ∧ round53 (50 # 100) = 1 # 2
  ∧ fmul (fmul 43 (fsub 1 (round53 (2 # 10)))) (5 # 10) = round53 (172 # 10)
  ∧ (round53 (172 # 10) < 172 # 10)%Q.
Proof. by vm_compute. Qed.

Lemma scaled_ge (n d e : Z) :
  0 < n → 0 < d → e <= Z.log2 n - Z.log2 d - 52 →
  d * 2 ^ Z.max 0 e <= n * 2 ^ Z.max 0 (- e).
Proof.
  intros Hn Hd He.
  destruct (Z.log2_spec n Hn) as [Ha _].
  destruct (Z.log2_spec d Hd) as [_ Hb].
  pose proof (Z.log2_nonneg n) as Ha0. pose proof (Z.log2_nonneg d) as Hb0.
  set (a := Z.log2 n) in *. set (b := Z.log2 d) in *.
  destruct (Z.le_gt_cases 0 e) as [He0|He0].
  - rewrite Z.max_r by lia. rewrite Z.max_l by lia.
    rewrite Z.pow_0_r, Z.mul_1_r.
    assert (2 ^ Z.succ b * 2 ^ e <= 2 ^ a) as Hp.
    { rewrite <- Z.pow_add_r by lia. apply Z.pow_le_mono_r; lia. }
    assert (0 < 2 ^ e) by (apply Z.pow_pos_nonneg; lia).
    nia.
  - rewrite Z.max_l by lia. rewrite Z.max_r by lia.
    rewrite Z.pow_0_r, Z.mul_1_r.
    assert (2 ^ Z.succ b <= 2 ^ a * 2 ^ (- e)) as Hp.
    { rewrite <- Z.pow_add_r by lia. apply Z.pow_le_mono_r; lia. }
    assert (0 < 2 ^ (- e)) by (apply Z.pow_pos_nonneg; lia).
    nia.
Qed.

(** Rounding keeps a positive number positive. *)
Lemma round53_pos (x : Q) : (0 < x)%Q → (0 < round53 x)%Q.
Proof.
  intros Hx. assert (0 < Qnum x) as Hn.
  { unfold Qlt in Hx. cbn in Hx. lia. }
  unfold round53. cbv zeta.
  rewrite (Z.abs_eq (Qnum x)) by lia.
  rewrite bool_decide_eq_false_2 by lia.
  set (e0 := Z.log2 (Qnum x) - Z.log2 (Zpos (Qden x)) - 52).
  set (e := if bool_decide _ then e0 - 1 else e0).
  assert (e <= e0) as He by (subst e; case_bool_decide; lia).
  pose proof (scaled_ge (Qnum x) (Zpos (Qden x)) e Hn ltac:(done) He) as Hge.
  set (num := Qnum x * 2 ^ Z.max 0 (- e)) in *.
  set (den := Zpos (Qden x) * 2 ^ Z.max 0 e) in *.
  assert (0 < den) as Hden.
  { subst den. apply Z.mul_pos_pos; [done|]. apply Z.pow_pos_nonneg; lia. }
  assert (1 <= num / den) as Hm.
  { apply Z.div_le_lower_bound; lia. }
  match goal with
  | |- context [if ?c then num / den + 1 else num / den] =>
      set (m' := if c then num / den + 1 else num / den);
      assert (0 < m') as Hm' by (subst m'; destruct c; lia)
  end.
  rewrite Qred_correct. unfold Qlt. cbn [Qnum Qden].
  rewrite Z.mul_0_l, Z.mul_1_r, Z.sgn_pos by done.
  assert (0 < 2 ^ Z.max 0 e) by (apply Z.pow_pos_nonneg; lia).
  nia.
Qed.

Lemma scaled_ge52 (n d e : Z) :
  0 < n → 0 < d → e <= Z.log2 n - Z.log2 d - 53 →
  2 ^ 52 * (d * 2 ^ Z.max 0 e) <= n * 2 ^ Z.max 0 (- e).
Proof.
  intros Hn Hd He.
  destruct (Z.log2_spec n Hn) as [Ha _].
  destruct (Z.log2_spec d Hd) as [_ Hb].
  pose proof (Z.log2_nonneg n) as Ha0. pose proof (Z.log2_nonneg d) as Hb0.
  set (a := Z.log2 n) in *. set (b := Z.log2 d) in *.
  destruct (Z.le_gt_cases 0 e) as [He0|He0].
  - rewrite Z.max_r by lia. rewrite Z.max_l by lia.
    rewrite Z.pow_0_r, Z.mul_1_r.
    assert (2 ^ 52 * (2 ^ Z.succ b * 2 ^ e) <= 2 ^ a) as Hp.
    { rewrite <- !Z.pow_add_r by lia. apply Z.pow_le_mono_r; lia. }
    assert (0 < 2 ^ e) by (apply Z.pow_pos_nonneg; lia).
    nia.
  - rewrite Z.max_l by lia. rewrite Z.max_r by lia.
    rewrite Z.pow_0_r, Z.mul_1_r.
    assert (2 ^ 52 * 2 ^ Z.succ b <= 2 ^ a * 2 ^ (- e)) as Hp.
    { rewrite <- !Z.pow_add_r by lia. apply Z.pow_le_mono_r; lia. }
    assert (0 < 2 ^ (- e)) by (apply Z.pow_pos_nonneg; lia).
    nia.
Qed.

(** The integer rounding step: the significand chosen is within one half
    of [num / den]. *)
Lemma nearest_within_half (num den : Z) (c : bool) :
  0 < den → 0 <= num →
  c = bool_decide (den < 2 * (num mod den))
      || (bool_decide (2 * (num mod den) = den) && Z.odd (num / den)) →
  2 * Z.abs ((if c then num / den + 1 else num / den) * den - num) <= den.
Proof.
  intros Hden Hnum ->.
  pose proof (Z.div_mod num den ltac:(lia)) as Hdm.
  pose proof (Z.mod_pos_bound num den Hden) as Hr.
  set (m := num / den) in *. set (r := num mod den) in *.
  destruct (bool_decide (den < 2 * r)) eqn:H1; cbn [orb].
  - apply bool_decide_eq_true in H1. nia.
  - apply bool_decide_eq_false in H1.
    destruct (bool_decide (2 * r = den)) eqn:H2; cbn [andb].
    + apply bool_decide_eq_true in H2. destruct (Z.odd m); nia.
    + apply bool_decide_eq_false in H2. nia.
Qed.

(** Rounding moves a positive number by at most [2^-53] of itself. *)
Lemma round53_error_pos (x : Q) :
  (0 < x)%Q →
  (x - x * (1 # 2 ^ 53) <= round53 x ∧ round53 x <= x + x * (1 # 2 ^ 53))%Q.
Proof.
  intros Hx. assert (0 < Qnum x) as Hn.
  { unfold Qlt in Hx. cbn in Hx. lia. }
  unfold round53. cbv zeta.
  rewrite (Z.abs_eq (Qnum x)) by lia.
  rewrite bool_decide_eq_false_2 by lia.
  set (e0 := Z.log2 (Qnum x) - Z.log2 (Zpos (Qden x)) - 52).
  set (e := if bool_decide _ then e0 - 1 else e0).
  assert (2 ^ 52 * (Zpos (Qden x) * 2 ^ Z.max 0 e)
          <= Qnum x * 2 ^ Z.max 0 (- e)) as Hge.
  { subst e. case_bool_decide as Ht; [|lia].
    apply scaled_ge52; [done|done|lia]. }
  set (P := 2 ^ Z.max 0 e) in *. set (N := 2 ^ Z.max 0 (- e)) in *.
  assert (0 < P) as HP by (apply Z.pow_pos_nonneg; lia).
  assert (0 < N) as HN by (apply Z.pow_pos_nonneg; lia).
  set (num := Qnum x * N) in *. set (den := Zpos (Qden x) * P) in *.
  assert (0 < den) as Hden by (subst den; lia).
  match goal with
  | |- context [if ?c then num / den + 1 else num / den] =>
      pose proof (nearest_within_half num den c Hden ltac:(subst num; lia)
                    eq_refl) as Hhalf;
      set (m' := if c then num / den + 1 else num / den) in *
  end.
  rewrite Qred_correct, Z.sgn_pos, Z.mul_1_l by done.
  destruct x as [n d]. cbn [Qnum Qden] in *.
  assert (Z.abs (m' * den - num) * 2 ^ 53 <= num) as Herr by lia.
  clearbody m'. subst num den. clearbody P N. clear e e0 Hhalf Hx Hge.
  set (D := Zpos d) in *. assert (0 < D) as HD by done.
  set (A := n * N) in *. set (B := m' * (D * P)) in *.
  unfold Qle, Qminus, Qmult, Qopp, Qplus. cbn [Qnum Qden].
  rewrite !Pos2Z.inj_mul, Z2Pos.id by done.
  change (Z.pos (2 ^ 53)) with (2 ^ 53). fold D.
  split.
  - replace ((n * (D * 2 ^ 53) + - (n * 1) * D) * N)
      with (D * (A * 2 ^ 53 - A)) by (subst A; ring).
    replace (m' * P * (D * (D * 2 ^ 53)))
      with (D * (B * 2 ^ 53)) by (subst B; ring).
    apply Z.mul_le_mono_nonneg_l; lia.
  - replace (m' * P * (D * (D * 2 ^ 53)))
      with (D * (B * 2 ^ 53)) by (subst B; ring).
    replace ((n * (D * 2 ^ 53) + n * 1 * D) * N)
      with (D * (A * 2 ^ 53 + A)) by (subst A; ring).
    apply Z.mul_le_mono_nonneg_l; lia.
Qed.

Lemma sumF_snoc {A} (f : A → Q) l x :
  sumF f (l ++ [x]) = fadd (sumF f l) (f x).
Proof. unfold sumF. by rewrite foldl_app. Qed.

(** A double-precision sum of positive numbers is positive. *)
Lemma sumF_pos {A} (f : A → Q) l :
  l ≠ [] → (∀ x, x ∈ l → (0 < f x)%Q) → (0 < sumF f l)%Q.
Proof.
  induction l as [|x l IH] using rev_ind; intros Hne Hpos; [done|].
  rewrite sumF_snoc. apply round53_pos.
  assert (0 < f x)%Q
    by (apply Hpos, elem_of_app; right; apply list_elem_of_here).
  destruct l as [|y l]; [unfold sumF; simpl; lra|].
  assert (0 < sumF f (y :: l))%Q.
  { apply IH; [done|]. intros z Hz. apply Hpos, elem_of_app. by left. }
  lra.
Qed.

(** The bound of the shell-chain check lies within [2^-52] of
    [totalReceived] from 40% of [totalReceived]. *)
Lemma shellBound_near (totalReceived : Q) :
  (0 <= totalReceived)%Q →
  ((40 # 100) * totalReceived - totalReceived * (1 # 2 ^ 52)
   <= shellBound totalReceived
   ∧ shellBound totalReceived
     <= (40 # 100) * totalReceived + totalReceived * (1 # 2 ^ 52))%Q.
Proof.
  intros HT. unfold shellBound, fmul.
  assert (fsub 1 AMOUNT_TOLERANCE = 3602879701896397 # 4503599627370496)
    as -> by (by vm_compute).
  destruct (Qlt_le_dec 0 totalReceived) as [Hpos|Hle].
  - set (c := 3602879701896397 # 4503599627370496).
    assert (0 < totalReceived * c)%Q as Ha by (unfold c; nra).
    destruct (round53_error_pos _ Ha) as [Ha1 Ha2].
    pose proof (round53_pos _ Ha) as Hfa.
    revert Ha1 Ha2 Hfa. generalize (round53 (totalReceived * c)).
    intros fa Ha1 Ha2 Hfa.
    assert (0 < fa * (5 # 10))%Q as Hb by lra.
    destruct (round53_error_pos _ Hb) as [Hb1 Hb2].
    revert Hb1 Hb2. generalize (round53 (fa * (5 # 10))). intros fb Hb1 Hb2.
    unfold c in *.
    change (1 # 2 ^ 53) with (1 # 9007199254740992) in *.
    change (1 # 2 ^ 52) with (1 # 4503599627370496).
    split; lra.
  - assert (Qnum totalReceived = 0) as Hz.
    { unfold Qle in HT, Hle. cbn in HT, Hle. lia. }
    destruct totalReceived as [n d]. cbn in Hz. subst n.
    split; by vm_compute.
Qed.

(** ** The sort *)

Section SortFacts.
Context {A : Type} (key : A → Z).

Lemma insertAsc_perm x l : insertAsc key x l ≡ₚ x :: l.
Proof.
  induction l as [|y l IH]; simpl; [done|].
  case_bool_decide; [done|].
  rewrite IH. apply Permutation_swap.
Qed.

Lemma sortAsc_perm_acc l acc :
  foldl (λ acc x, insertAsc key x acc) acc l ≡ₚ acc ++ l.
Proof.
  revert acc. induction l as [|x l IH]; intros acc; simpl.
  - by rewrite app_nil_r.
  - rewrite IH, insertAsc_perm. simpl. apply Permutation_middle.
Qed.

Lemma sortAsc_perm l : sortAsc key l ≡ₚ l.
Proof. unfold sortAsc. by rewrite sortAsc_perm_acc. Qed.

Lemma sortAsc_elem_of x l : x ∈ sortAsc key l ↔ x ∈ l.
Proof. by rewrite sortAsc_perm. Qed.

Lemma insertAsc_sorted x l :
  sortedBy key l → sortedBy key (insertAsc key x l).
Proof.
  unfold sortedBy. induction 1 as [|y l Hs IH Hall]; simpl.
  - repeat constructor.
  - case_bool_decide as Hlt.
    + constructor; [by constructor|].
      constructor; [lia|]. eapply Forall_impl; [exact Hall|]. simpl. lia.
    + constructor; [done|].
      rewrite insertAsc_perm. constructor; [lia|done].
Qed.

Lemma sortAsc_sorted l : sortedBy key (sortAsc key l).
Proof.
  unfold sortAsc.
  assert (H : ∀ acc, sortedBy key acc →
            sortedBy key (foldl (λ acc x, insertAsc key x acc) acc l)).
  { induction l as [|x l IH]; intros acc Hacc; simpl; [done|].
    apply IH. by apply insertAsc_sorted. }
  apply H. constructor.
Qed.

Lemma sortedBy_ascending l : sortedBy key l → ascending key l.
Proof.
  unfold sortedBy, ascending. induction 1 as [|y l Hs IH Hall];
    intros i j a b Hij Hi Hj.
  - by rewrite lookup_nil in Hi.
  - destruct i as [|i], j as [|j]; simpl in *; simplify_eq; try lia.
    + rewrite Forall_forall in Hall. apply Hall.
      eapply list_elem_of_lookup_2; eauto.
    + eapply (IH i j); eauto. lia.
Qed.

Lemma sortAsc_ascending l : ascending key (sortAsc key l).
Proof. apply sortedBy_ascending, sortAsc_sorted. Qed.

End SortFacts.

(** * Fan-in validation: phase 1 *)

Lemma pushByKey_keys k tx m :
  (pushByKey k tx m).*1
  = if bool_decide (k ∈ m.*1) then m.*1 else m.*1 ++ [k].
Proof.
  induction m as [|[k' l] m IH]; [done|].
  cbn [pushByKey]. destruct (decide (k' = k)) as [->|Hne].
  - rewrite bool_decide_eq_true_2 by done.
    rewrite bool_decide_eq_true_2 by (rewrite fmap_cons; set_solver). done.
  - rewrite bool_decide_eq_false_2 by done. rewrite !fmap_cons, IH. simpl.
    destruct (decide (k ∈ m.*1)) as [Hin|Hnin].
    + rewrite !bool_decide_eq_true_2; [done| |done].
      by apply list_elem_of_further.
    + rewrite !bool_decide_eq_false_2; [done| |done].
      rewrite elem_of_cons. intros [?|?]; [congruence|done].
Qed.

Lemma pushByKey_NoDup k tx m : NoDup m.*1 → NoDup (pushByKey k tx m).*1.
Proof.
  intros Hnd. rewrite pushByKey_keys. case_bool_decide as Hk; [done|].
  apply NoDup_app. split_and!; [done| |apply NoDup_singleton].
  intros x Hx Hx'. apply list_elem_of_singleton in Hx'. by subst.
Qed.

Lemma pushByKey_entries k tx m r l :
  (r, l) ∈ pushByKey k tx m →
  (r, l) ∈ m ∨ (r = k ∧ ∃ l0, l = l0 ++ [tx] ∧ ((r, l0) ∈ m ∨ l0 = [])).
Proof.
  induction m as [|[k' l'] m IH]; cbn [pushByKey].
  - intros Hin. apply list_elem_of_singleton in Hin. simplify_eq.
    right. split; [done|]. exists []. eauto.
  - destruct (decide (k' = k)) as [->|Hne].
    + rewrite bool_decide_eq_true_2 by done. intros Hin.
      apply elem_of_cons in Hin as [Heq|Hin];
        [|left; by apply list_elem_of_further].
      simplify_eq. right. split; [done|]. exists l'. split; [done|].
      left. apply list_elem_of_here.
    + rewrite bool_decide_eq_false_2 by done. intros Hin.
      apply elem_of_cons in Hin as [Heq|Hin];
        [left; rewrite Heq; apply list_elem_of_here|].
      destruct (IH Hin) as [?|(-> & l0 & -> & [? | ->])].
      * left. by apply list_elem_of_further.
      * right. split; [done|]. exists l0. split; [done|].
        left. by apply list_elem_of_further.
      * right. split; [done|]. exists []. eauto.
Qed.

Lemma groupByReceiver_grouped txs : groupedFrom txs (groupByReceiver txs).
Proof.
  unfold groupByReceiver.
  apply (foldl_invariant (λ m l, groupedFrom l m)).
  - split; [constructor|]. intros r l tx Hin. by apply elem_of_nil in Hin.
  - intros m l x [Hnd Hall]. split; [by apply pushByKey_NoDup|].
    intros r l' tx Hin Htx.
    apply pushByKey_entries in Hin as [Hin|(-> & l0 & -> & Hl0)].
    + destruct (Hall _ _ _ Hin Htx).
      split; [apply elem_of_app; by left|done].
    + apply elem_of_app in Htx as [Htx|Htx].
      * destruct Hl0 as [Hin| ->]; [|by apply elem_of_nil in Htx].
        destruct (Hall _ _ _ Hin Htx).
        split; [apply elem_of_app; by left|done].
      * apply list_elem_of_singleton in Htx as ->.
        split; [|done]. apply elem_of_app. right. apply list_elem_of_here.
Qed.

(** The inner loop ends, and ends inside the window: the fuel
    [right - left] is enough for the loop condition to fail. *)
Lemma slideLeft_spec sorted right fuel left :
  (left ≤ right)%nat → (right - left ≤ fuel)%nat →
  (left ≤ slideLeft fuel sorted (timeAt sorted right) left right ≤ right)%nat
  ∧ timeAt sorted right
    - timeAt sorted (slideLeft fuel sorted (timeAt sorted right) left right)
    <= FAN_IN_WINDOW_MS.
Proof.
  revert left. induction fuel as [|fuel IH]; intros left Hle Hfuel; simpl.
  - assert (left = right) as -> by lia. split; [lia|].
    unfold FAN_IN_WINDOW_MS. lia.
  - destruct (decide (left < right)%nat) as [Hlt|Hge].
    + rewrite (bool_decide_eq_true_2 _ Hlt). simpl.
      case_bool_decide as Hgt.
      * destruct (IH (S left)) as [? ?]; [lia|lia|]. split; [lia|done].
      * split; [lia|lia].
    + rewrite (bool_decide_eq_false_2 _ Hge). simpl.
      assert (left = right) as -> by lia. split; [lia|].
      unfold FAN_IN_WINDOW_MS. lia.
Qed.

Lemma elem_of_window sorted left right x :
  x ∈ window sorted left right →
  ∃ i, (left ≤ i ≤ right)%nat ∧ sorted !! i = Some x.
Proof.
  unfold window. intros Hin. apply list_elem_of_lookup in Hin as [k Hk].
  apply lookup_take_Some in Hk as [Hk Hlt]. rewrite lookup_drop in Hk.
  exists (left + k)%nat. split; [lia|done].
Qed.

Lemma scanStep_good sorted st right :
  (scan_left st ≤ right)%nat → (right < length sorted)%nat →
  goodBest sorted (scan_best st) →
  (scan_left (scanStep sorted st right) ≤ S right)%nat
  ∧ goodBest sorted (scan_best (scanStep sorted st right)).
Proof.
  intros Hleft Hright Hgood.
  destruct (slideLeft_spec sorted right (right - scan_left st)
              (scan_left st) Hleft) as [Hl Ht]; [lia|].
  unfold scanStep. cbn [scan_left scan_best]. split; [lia|].
  set (left' := slideLeft _ _ _ _ _) in *.
  set (sw := list_to_set (sender_id <$> window sorted left' right)).
  case_bool_decide as Hsz; [|done].
  assert (Hnew : goodBest sorted (Some (sw, left', right))).
  { intros s bl br [= <- <- <-]. split_and!; [lia|lia|done|done|done]. }
  destruct (scan_best st) as [[[bs ?] ?]|]; [|done].
  case_bool_decide; done.
Qed.

Lemma scanWindows_good sorted :
  goodBest sorted (scan_best (scanWindows sorted)).
Proof.
  unfold scanWindows.
  assert (H : ∀ k, (k ≤ length sorted)%nat →
     (scan_left (foldl (scanStep sorted) (mkScan 0 None) (seq 0 k)) ≤ k)%nat
     ∧ goodBest sorted
         (scan_best (foldl (scanStep sorted) (mkScan 0 None) (seq 0 k)))).
  { induction k as [|k IH]; intros Hk.
    - simpl. split; [lia|]. intros s bl br [=].
    - rewrite seq_S, foldl_app. cbn [foldl Nat.add].
      destruct IH as [? ?]; [lia|]. by apply scanStep_good. }
  by apply H.
Qed.

Lemma timeAt_lookup sorted i x :
  sorted !! i = Some x → timeAt sorted i = timestamp x.
Proof. unfold timeAt. by intros ->. Qed.

Lemma candidateOf_accountId r l c :
  candidateOf r l = Some c → accountId c = r.
Proof.
  unfold candidateOf.
  destruct (scan_best _) as [[[s bl] br]|]; [|done]. by intros [= <-].
Qed.

(** A candidate comes with a 72-hour window of its receiver that holds at
    least three unique senders. *)
Lemma candidateOf_window txs r l c :
  (∀ tx, tx ∈ l → tx ∈ txs ∧ receiver_id tx = r) →
  candidateOf r l = Some c →
  hasFanInWindow txs r.
Proof.
  intros Hl. unfold candidateOf.
  pose proof (scanWindows_good (sortByTime l)) as Hgood.
  destruct (scan_best (scanWindows (sortByTime l))) as [[[s bl] br]|];
    [|done].
  intros _.
  destruct (Hgood s bl br eq_refl) as ([Hbl Hbr] & Hw & -> & Hsz).
  destruct (lookup_lt_is_Some_2 (sortByTime l) bl) as [xl Hxl]; [lia|].
  destruct (lookup_lt_is_Some_2 (sortByTime l) br) as [xr Hxr]; [lia|].
  rewrite (timeAt_lookup _ _ _ Hxl), (timeAt_lookup _ _ _ Hxr) in Hw.
  exists (timestamp xl). etrans; [exact Hsz|].
  apply subseteq_size. intros sid Hsid.
  apply elem_of_list_to_set, list_elem_of_fmap in Hsid as (x & -> & Hx).
  apply elem_of_list_to_set, list_elem_of_fmap. exists x. split; [done|].
  apply elem_of_window in Hx as (i & [Hi1 Hi2] & Hi).
  pose proof (sortAsc_ascending timestamp l) as Hasc.
  pose proof (Hasc bl i xl x Hi1 Hxl Hi) as H1.
  pose proof (Hasc i br x xr Hi2 Hi Hxr) as H2.
  assert (x ∈ l) as Hxin.
  { apply (sortAsc_elem_of timestamp). eapply list_elem_of_lookup_2, Hi. }
  destruct (Hl x Hxin) as [Hin Hr].
  unfold incomingWithin. apply list_elem_of_filter. split; [|done].
  split_and!; [done|lia|lia].
Qed.

Lemma candidate_hasFanInWindow txs c :
  c ∈ identifyAggregationCandidates txs → hasFanInWindow txs (accountId c).
Proof.
  unfold identifyAggregationCandidates. intros Hc.
  apply list_elem_of_omap in Hc as ([r l] & Hin & Hc).
  destruct (groupByReceiver_grouped txs) as [_ Hall].
  rewrite (candidateOf_accountId _ _ _ Hc).
  eapply candidateOf_window; [|exact Hc].
  intros tx Htx. by apply (Hall r l).
Qed.

Lemma candidates_NoDup txs :
  NoDup (accountId <$> identifyAggregationCandidates txs).
Proof.
  unfold identifyAggregationCandidates.
  destruct (groupByReceiver_grouped txs) as [Hnd _].
  induction (groupByReceiver txs) as [|[r l] m IH]; [constructor|].
  rewrite fmap_cons in Hnd. apply NoDup_cons in Hnd as [Hr Hnd].
  cbn [omap list_omap].
  destruct (candidateOf r l) as [c|] eqn:Hc; [|by apply IH].
  rewrite fmap_cons. apply NoDup_cons. split; [|by apply IH].
  rewrite (candidateOf_accountId _ _ _ Hc).
  intros Hin. apply Hr.
  apply list_elem_of_fmap in Hin as (c' & -> & Hc').
  apply list_elem_of_omap in Hc' as ([r' l'] & Hin' & Hc'').
  rewrite (candidateOf_accountId _ _ _ Hc'').
  apply list_elem_of_fmap. by exists (r', l').
Qed.

(** * Fan-in validation: phase 2 *)

Lemma buildAccountMap_sound accounts :
  amSound (buildAccountMap accounts) accounts.
Proof.
  unfold amSound, buildAccountMap.
  assert (H : ∀ id i,
    foldl (λ m '(i, a), <[account_id a := i]> m) (∅ : gmap string nat)
          (imap pair accounts) !! id = Some i →
    ∃ a, (i, a) ∈ imap pair accounts ∧ account_id a = id).
  { apply (foldl_invariant (λ (m : gmap string nat) l, ∀ id i,
             m !! id = Some i → ∃ a, (i, a) ∈ l ∧ account_id a = id)).
    - intros id i. by rewrite lookup_empty.
    - intros m l [j b] Hm id i. rewrite lookup_insert.
      case_decide as Hid.
      + intros [= <-]. exists b. split; [|done]. set_solver.
      + intros (a & Ha & Hida)%Hm. exists a. split; [set_solver|done]. }
  intros id i (a & Ha & Hid)%H. exists a. split; [|done].
  apply list_elem_of_lookup in Ha as [k Hk].
  rewrite list_lookup_imap in Hk.
  destruct (accounts !! k) as [b|] eqn:Hb; simplify_eq/=. done.
Qed.

Lemma frameR_trans a b c : frameR a b → frameR b c → frameR a c.
Proof. intros [? ?] [? ?]. split; congruence. Qed.

Lemma framed_refl s : Forall2 frameR s s.
Proof. by apply Forall_Forall2_diag, Forall_forall. Qed.

Lemma framed_trans s t u :
  Forall2 frameR s t → Forall2 frameR t u → Forall2 frameR s u.
Proof.
  intros Hst. revert u. induction Hst as [|a b s t Hab Hst IH]; intros u Htu.
  - by inversion Htu.
  - inversion Htu as [|b' c t' u' Hbc Htu']; subst.
    constructor; [by eapply frameR_trans|by apply IH].
Qed.

Lemma classifyAccount_frame checks a : frameR a (classifyAccount checks a).
Proof.
  unfold classifyAccount, frameR. cbv zeta.
  repeat case_bool_decide; done.
Qed.

Lemma classifyAccount_checks checks a :
  corroboration_checks (classifyAccount checks a) = Some checks.
Proof. unfold classifyAccount. cbv zeta. repeat case_bool_decide; done. Qed.

Lemma classifyAccount_classification checks a :
  fan_in_classification (classifyAccount checks a)
  = Some (if bool_decide (0 < length checks)%nat
          then confirmed_money_laundering else aggregation_candidate).
Proof. unfold classifyAccount. cbv zeta. repeat case_bool_decide; done. Qed.

Lemma classifyAccount_algorithms checks a :
  FanIn.ALGORITHM_NAME ∈ triggered_algorithms (classifyAccount checks a).
Proof.
  unfold classifyAccount. cbv zeta.
  repeat case_bool_decide; cbn; set_solver.
Qed.

Lemma accountMap_get_framed am s t id :
  Forall2 frameR s t →
  option_Forall2 frameR (accountMap_get am s id) (accountMap_get am t id).
Proof.
  intros Hst. unfold accountMap_get.
  destruct (am !! id) as [i|]; simpl; [|constructor].
  by apply Forall2_lookup.
Qed.

(** The shell-chain check reads nothing of the other accounts but their
    id and [total_transactions]. *)
Lemma checkShellChainInvolvement_framed cid total graph am s t :
  Forall2 frameR s t →
  checkShellChainInvolvement cid total graph am s
  = checkShellChainInvolvement cid total graph am t.
Proof.
  intros Hst. unfold checkShellChainInvolvement.
  destruct (graph !! cid) as [out|]; [|done].
  apply existsb_ext_elem. intros [n txs] _.
  destruct (accountMap_get_framed am s t n Hst) as [a b [_ Htt]|]; [|done].
  by rewrite Htt.
Qed.

Lemma triggeredChecksOf_framed lk s t c :
  Forall2 frameR s t → triggeredChecksOf lk s c = triggeredChecksOf lk t c.
Proof.
  intros Hst. unfold triggeredChecksOf.
  by rewrite (checkShellChainInvolvement_framed _ _ _ _ s t Hst).
Qed.

Lemma triggeredChecksOf_names lk s c : triggeredChecksOf lk s c ⊆ CHECK_NAMES.
Proof.
  unfold triggeredChecksOf. intros x Hx. rewrite !elem_of_app in Hx.
  destruct Hx as [Hx|[Hx|[Hx|Hx]]];
    match type of Hx with _ ∈ (if ?b then _ else _) => destruct b end;
    try (by apply elem_of_nil in Hx);
    apply list_elem_of_singleton in Hx as ->;
    unfold CHECK_NAMES; repeat constructor.
Qed.

Lemma processCandidate_framed lk s c :
  Forall2 frameR s (processCandidate lk s c).
Proof.
  unfold processCandidate.
  destruct (lk_accountMap lk !! accountId c) as [i|]; [|apply framed_refl].
  destruct (s !! i) as [a|] eqn:Ha; [|apply framed_refl].
  apply Forall2_same_length_lookup. split; [by rewrite length_insert|].
  intros j x y Hx Hy. destruct (decide (i = j)) as [->|Hne].
  - rewrite list_lookup_insert_eq in Hy by (by eapply lookup_lt_Some).
    simplify_eq. apply classifyAccount_frame.
  - rewrite list_lookup_insert_ne in Hy by done. by simplify_eq.
Qed.

Lemma run_framed lk cs s : Forall2 frameR s (foldl (processCandidate lk) s cs).
Proof.
  revert s. induction cs as [|c cs IH]; intros s; cbn [foldl].
  - apply framed_refl.
  - eapply framed_trans; [apply (processCandidate_framed lk s c)|apply IH].
Qed.

Lemma amSound_framed am s t :
  Forall2 frameR s t → amSound am s → amSound am t.
Proof.
  intros Hst Hs id i Hi. destruct (Hs id i Hi) as (a & Ha & Hid).
  destruct (Forall2_lookup_l _ _ _ _ _ Hst Ha) as (b & Hb & [Hab _]).
  exists b. split; [done|congruence].
Qed.

Lemma processCandidate_missing lk store c :
  lk_accountMap lk !! accountId c = None → processCandidate lk store c = store.
Proof. intros H. unfold processCandidate. by rewrite H. Qed.

Lemma processCandidate_other lk s c j :
  lk_accountMap lk !! accountId c ≠ Some j →
  processCandidate lk s c !! j = s !! j.
Proof.
  intros Hne. unfold processCandidate.
  destruct (lk_accountMap lk !! accountId c) as [i|]; [|done].
  destruct (s !! i) as [a|]; [|done].
  apply list_lookup_insert_ne. congruence.
Qed.

Lemma processCandidate_target lk s c i :
  lk_accountMap lk !! accountId c = Some i →
  processCandidate lk s c !! i
  = classifyAccount (triggeredChecksOf lk s c) <$> s !! i.
Proof.
  intros Hi. unfold processCandidate. rewrite Hi.
  destruct (s !! i) as [a|] eqn:Ha; [|by rewrite Ha].
  rewrite list_lookup_insert_eq by (by eapply lookup_lt_Some). done.
Qed.

(** An account object no candidate resolves to is left as it was. *)
Lemma run_untouched lk cs s j :
  (∀ c, c ∈ cs → lk_accountMap lk !! accountId c ≠ Some j) →
  foldl (processCandidate lk) s cs !! j = s !! j.
Proof.
  revert s. induction cs as [|c cs IH]; intros s Hcs; simpl; [done|].
  rewrite IH by set_solver. apply processCandidate_other. set_solver.
Qed.

(** The account object a candidate resolves to is classified once, with
    the checks of that candidate. *)
Lemma run_classified lk cs s c i :
  NoDup (accountId <$> cs) → amSound (lk_accountMap lk) s →
  c ∈ cs → lk_accountMap lk !! accountId c = Some i →
  foldl (processCandidate lk) s cs !! i
  = classifyAccount (triggeredChecksOf lk s c) <$> s !! i.
Proof.
  revert s. induction cs as [|c' cs IH]; intros s Hnd Hs Hc Hi;
    [by apply elem_of_nil in Hc|].
  rewrite fmap_cons in Hnd. apply NoDup_cons in Hnd as [Hc' Hnd].
  cbn [foldl]. apply elem_of_cons in Hc as [<-|Hc].
  - rewrite run_untouched; [by apply processCandidate_target|].
    intros d Hd Hdi. apply Hc'.
    destruct (Hs _ _ Hi) as (a & Ha & Haid).
    destruct (Hs _ _ Hdi) as (b & Hb & Hbid).
    rewrite Ha in Hb. injection Hb as <-. rewrite <- Haid, Hbid.
    apply list_elem_of_fmap. by exists d.
  - pose proof (processCandidate_framed lk s c') as Hfr.
    rewrite (IH (processCandidate lk s c')); [|done| |done|done].
    + rewrite <- (triggeredChecksOf_framed lk s _ c Hfr).
      rewrite processCandidate_other; [done|].
      intros Hc'i. apply Hc'.
      destruct (Hs _ _ Hi) as (a & Ha & Haid).
      destruct (Hs _ _ Hc'i) as (b & Hb & Hbid).
      rewrite Ha in Hb. injection Hb as <-. rewrite <- Hbid, Haid.
      apply list_elem_of_fmap. by exists c.
    + by eapply amSound_framed.
Qed.

Lemma run_skip_missing lk store cs :
  foldl (processCandidate lk) store cs
  = foldl (processCandidate lk) store
      (filter (λ c, is_Some (lk_accountMap lk !! accountId c)) cs).
Proof.
  revert store. induction cs as [|c cs IH]; intros store; [done|].
  rewrite filter_cons. cbn [foldl]. case_decide as Hc.
  - cbn [foldl]. apply IH.
  - rewrite processCandidate_missing; [apply IH|].
    by apply eq_None_not_Some.
Qed.

Lemma validate_unfold accounts transactions graph cycles shellChains
    fanOutMap :
  validateFanInTwoPhase accounts transactions graph cycles shellChains
    fanOutMap
  = foldl (processCandidate
             (buildLookups accounts transactions graph cycles shellChains
                fanOutMap))
          accounts (identifyAggregationCandidates transactions).
Proof. done. Qed.

Lemma fanInCandidates_eq :
  identifyAggregationCandidates fanInTxs = [fanInCandidate].
Proof. vm_compute. reflexivity. Qed.

(** ** Scenarios of the specification *)

(** Three senders within ten hours and nothing else: an aggregation
    candidate with no corroboration. *)
Example scenario_aggregation_candidate :
  (λ a, (fan_in_classification a, corroboration_checks a))
    <$> fanInOnce !! 0%nat
  = Some (Some aggregation_candidate, Some []).
Proof. by vm_compute. Qed.

(** The same receiver forwarding 290 to a low-activity neighbour that
    forwards onward: confirmed through the shell-chain check. *)
Example scenario_shell_chain :
  (λ a, (fan_in_classification a, corroboration_checks a))
    <$> validateFanInTwoPhase fanInAccounts fanInTxs shellGraph [] [] ∅
        !! 0%nat
  = Some (Some confirmed_money_laundering, Some ["shell_chain_involvement"]).
Proof. by vm_compute. Qed.

(** ** Claims on the fan-in engine *)

(** C1: an account the engine classifies (the account object that the
    candidate's id resolves to) ends with [corroboration_checks] set to a
    list drawn from the four fixed check names, and its
    [fan_in_classification] is [confirmed_money_laundering] if and only if
    that list is non-empty, [aggregation_candidate] if and only if it is
    empty. *)
Theorem classification_iff_checks accounts transactions graph cycles
    shellChains fanOutMap candidate i :
  candidate ∈ identifyAggregationCandidates transactions →
  buildAccountMap accounts !! accountId candidate = Some i →
  ∃ account checks,
    validateFanInTwoPhase accounts transactions graph cycles shellChains
      fanOutMap !! i = Some account
    ∧ account_id account = accountId candidate
    ∧ corroboration_checks account = Some checks
    ∧ checks ⊆ CHECK_NAMES
    ∧ (fan_in_classification account = Some confirmed_money_laundering
       ↔ checks ≠ [])
    ∧ (fan_in_classification account = Some aggregation_candidate
       ↔ checks = []).
Proof.
  intros Hc Hi. rewrite validate_unfold.
  set (lk := buildLookups _ _ _ _ _ _).
  pose proof (buildAccountMap_sound accounts) as Hs.
  destruct (Hs _ _ Hi) as (a & Ha & Hid).
  rewrite (run_classified lk _ accounts candidate i);
    [|apply candidates_NoDup|done|done|done].
  rewrite Ha. simpl.
  exists (classifyAccount (triggeredChecksOf lk accounts candidate) a),
         (triggeredChecksOf lk accounts candidate).
  split; [done|].
  split; [by destruct (classifyAccount_frame
                         (triggeredChecksOf lk accounts candidate) a)
            as [<- _]|].
  split; [apply classifyAccount_checks|].
  split; [apply triggeredChecksOf_names|].
  rewrite classifyAccount_classification.
  destruct (triggeredChecksOf lk accounts candidate) as [|x l].
  - rewrite bool_decide_eq_false_2 by (simpl; lia). split; split; done.
  - rewrite bool_decide_eq_true_2 by (simpl; lia). split; split; done.
Qed.

Lemma classification_iff_checks_witness :
  ∃ account checks,
    validateFanInTwoPhase fanInAccounts fanInTxs ∅ [] [] ∅ !! 0%nat
    = Some account
    ∧ account_id account = accountId fanInCandidate
    ∧ corroboration_checks account = Some checks
    ∧ checks ⊆ CHECK_NAMES
    ∧ (fan_in_classification account = Some confirmed_money_laundering
       ↔ checks ≠ [])
    ∧ (fan_in_classification account = Some aggregation_candidate
       ↔ checks = []).
Proof.
  apply (classification_iff_checks fanInAccounts fanInTxs ∅ [] [] ∅
           fanInCandidate 0).
  - rewrite fanInCandidates_eq. apply list_elem_of_here.
  - vm_compute. reflexivity.
Defined.

(** C2: an account none of whose 72-hour windows of incoming transactions
    holds three unique senders is left exactly as it was: the engine
    assigns it neither [fan_in_classification] nor any other field. *)
Theorem no_window_no_classification accounts transactions graph cycles
    shellChains fanOutMap i account :
  accounts !! i = Some account →
  ¬ hasFanInWindow transactions (account_id account) →
  validateFanInTwoPhase accounts transactions graph cycles shellChains
    fanOutMap !! i = Some account.
Proof.
  intros Ha Hno. rewrite validate_unfold, run_untouched; [done|].
  intros c Hc Hi. apply Hno.
  destruct (buildAccountMap_sound accounts _ _ Hi) as (a & Ha' & Hid).
  simplify_eq. rewrite Hid. by apply candidate_hasFanInWindow.
Qed.

Lemma twoSenders_no_window : ¬ hasFanInWindow twoSenderTxs "M".
Proof.
  intros [t0 H].
  assert (Hsub : uniqueSendersWithin twoSenderTxs "M" t0
                 ⊆ {["A"]} ∪ {["B"]}).
  { intros s Hs. unfold uniqueSendersWithin in Hs.
    apply elem_of_list_to_set, list_elem_of_fmap in Hs as (tx & -> & Htx).
    apply list_elem_of_filter in Htx as [_ Htx]. unfold twoSenderTxs in Htx.
    repeat (apply elem_of_cons in Htx as [-> | Htx]); cbn;
      [set_solver..|by apply elem_of_nil in Htx]. }
  apply subseteq_size in Hsub.
  assert (size ({["A"]} ∪ {["B"]} : gset string) = 2%nat) as Hsz
    by (by vm_compute).
  unfold MIN_UNIQUE_SENDERS in H. lia.
Qed.

Lemma no_window_no_classification_witness :
  validateFanInTwoPhase twoSenderAccounts twoSenderTxs ∅ [] [] ∅ !! 0%nat
  = Some (account0 "M" 30 3).
Proof.
  apply (no_window_no_classification twoSenderAccounts twoSenderTxs ∅ [] []
           ∅ 0 (account0 "M" 30 3)).
  - reflexivity.
  - exact twoSenders_no_window.
Defined.

Lemma checkShellChainInvolvement_true cid total graph am store :
  checkShellChainInvolvement cid total graph am store = true
  ↔ ∃ n, shellNeighbor (sumF amount) (shellBound total) cid graph am
           store n.
Proof.
  unfold checkShellChainInvolvement, shellNeighbor, shellBound. split.
  - destruct (graph !! cid) as [out|]; [|done].
    intros (n & txs & Hn & Hf)%existsb_map_to_list.
    destruct (accountMap_get am store n) as [nb|] eqn:Hnb; [|done].
    case_bool_decide as Hlow; [done|].
    destruct (Qge_bool _ _) eqn:Hamt; [|done].
    destruct (graph !! n) as [hop|] eqn:Hhop; [|done].
    apply andb_true_iff in Hf as [_ (k & v & Hk & Hne)%existsb_map_to_list].
    apply bool_decide_eq_true in Hne.
    exists n, out, txs, nb.
    split_and!;
      [done|done|done|unfold LOW_ACTIVITY_TX_THRESHOLD in Hlow; lia
      |by apply Qle_bool_iff|].
    exists hop, k. rewrite Hk. eauto.
  - intros (n & out & txs & nb & -> & Hn & Hnb & Hlow & Hamt & hop & k
            & Hhop & [v Hk] & Hne).
    apply existsb_map_to_list. exists n, txs. split; [done|].
    rewrite Hnb. rewrite bool_decide_eq_false_2
      by (unfold LOW_ACTIVITY_TX_THRESHOLD; lia).
    apply Qle_bool_iff in Hamt. unfold Qge_bool. rewrite Hamt, Hhop.
    apply andb_true_iff. split.
    + apply bool_decide_eq_true.
      destruct (decide (size hop = 0%nat)) as [Hz|]; [|lia].
      apply map_size_empty_inv in Hz. subst hop.
      by rewrite lookup_empty in Hk.
    + apply existsb_map_to_list. exists k, v. split; [done|].
      by apply bool_decide_eq_true.
Qed.

(** C8 as stated fails at the boundary.  With 43 received and the double
    17.2 forwarded to the low-activity N, the check holds, and the run
    records it, although 17.2 as a double is less than 40% of 43 (and
    less than half of 43 * 0.8): no neighbour meets the claim's second
    condition, whether the amounts are added up exactly or in double
    precision. *)
Lemma shell_chain_forty_percent_fails :
  identifyAggregationCandidates boundaryTxs = [boundaryCandidate]
  ∧ checkShellChainInvolvement (accountId boundaryCandidate)
      (totalReceived boundaryCandidate) boundaryGraph
      (buildAccountMap fanInAccounts) fanInAccounts = true
  ∧ corroboration_checks
      <$> validateFanInTwoPhase fanInAccounts boundaryTxs boundaryGraph []
            [] ∅ !! 0%nat
    = Some (Some ["shell_chain_involvement"])
  ∧ (¬ ∃ neighborId,
         shellNeighbor (sumQ amount) ((40 # 100) * 43)%Q "R" boundaryGraph
           (buildAccountMap fanInAccounts) fanInAccounts neighborId)
  ∧ (¬ ∃ neighborId,
         shellNeighbor (sumF amount) ((40 # 100) * 43)%Q "R" boundaryGraph
           (buildAccountMap fanInAccounts) fanInAccounts neighborId)
  ∧ ¬ ∃ neighborId,
        shellNeighbor (sumQ amount) ((43 * (8 # 10)) / 2)%Q "R" boundaryGraph
          (buildAccountMap fanInAccounts) fanInAccounts neighborId.
Proof.
  assert (Hno : ∀ total bound,
            (total [mkTx "R" "N" (round53 (172 # 10)) (11 * hour)] < bound)%Q →
            ¬ ∃ neighborId,
                shellNeighbor total bound "R" boundaryGraph
                  (buildAccountMap fanInAccounts) fanInAccounts neighborId).
  { intros total bound Hlt (n & out & txs & nb & Hg & Ho & _ & _ & Hle & _).
    unfold boundaryGraph in Hg. rewrite lookup_insert in Hg.
    rewrite decide_True in Hg by done. injection Hg as <-.
    apply lookup_singleton_Some in Ho as [_ <-].
    apply (Qlt_not_le _ _ Hlt Hle). }
  split; [by vm_compute|]. split; [by vm_compute|].
  split; [by vm_compute|].
  split; [|split]; apply Hno; by vm_compute.
Qed.

(** C8, as amended: the shell-chain predicate holds exactly when some
    outgoing neighbour of the candidate (an account of the collection)
    has [total_transactions] at most 3, receives from the candidate
    amounts that, added up in double precision in list order, reach the
    bound the code computes, [(totalReceived * (1 - 0.2)) * 0.5] in double
    precision, and has an outgoing neighbour of its own other than the
    candidate; for a [totalReceived] that is not negative that bound lies
    within [totalReceived * 2^-52] of 40% of [totalReceived]. *)
Theorem shell_chain_involvement_iff candidateId totalReceived graph
    accountMap store :
  (checkShellChainInvolvement candidateId totalReceived graph accountMap store
   = true
   ↔ ∃ neighborId,
       shellNeighbor (sumF amount) (shellBound totalReceived) candidateId
         graph accountMap store neighborId)
  ∧ ((0 <= totalReceived)%Q →
     ((40 # 100) * totalReceived - totalReceived * (1 # 2 ^ 52)
      <= shellBound totalReceived
      ∧ shellBound totalReceived
        <= (40 # 100) * totalReceived + totalReceived * (1 # 2 ^ 52))%Q).
Proof.
  split.
  - apply checkShellChainInvolvement_true.
  - apply shellBound_near.
Qed.

(** C9: a candidate whose account id is not in the account collection is
    skipped: its loop turn leaves every account as it was, the run is a
    total function (nothing is raised), and the whole run is the run over
    the candidates that are present, in the same order. *)
Theorem missing_account_skipped accounts transactions graph cycles
    shellChains fanOutMap candidate :
  buildAccountMap accounts !! accountId candidate = None →
  (∀ store,
     processCandidate
       (buildLookups accounts transactions graph cycles shellChains
          fanOutMap) store candidate = store)
  ∧ validateFanInTwoPhase accounts transactions graph cycles shellChains
      fanOutMap
    = foldl (processCandidate
               (buildLookups accounts transactions graph cycles shellChains
                  fanOutMap))
        accounts
        (filter (λ c, is_Some (buildAccountMap accounts !! accountId c))
           (identifyAggregationCandidates transactions)).
Proof.
  intros Hmiss. split.
  - intros store. by apply processCandidate_missing.
  - rewrite validate_unfold. apply run_skip_missing.
Qed.

Lemma missing_account_skipped_witness :
  (∀ store,
     processCandidate
       (buildLookups [account0 "N" 10 1] fanInTxs ∅ [] [] ∅) store
       fanInCandidate = store)
  ∧ validateFanInTwoPhase [account0 "N" 10 1] fanInTxs ∅ [] [] ∅
    = foldl (processCandidate
               (buildLookups [account0 "N" 10 1] fanInTxs ∅ [] [] ∅))
        [account0 "N" 10 1]
        (filter (λ c, is_Some (buildAccountMap [account0 "N" 10 1]
                                 !! accountId c))
           (identifyAggregationCandidates fanInTxs)).
Proof.
  apply (missing_account_skipped [account0 "N" 10 1] fanInTxs ∅ [] [] ∅
           fanInCandidate).
  vm_compute. reflexivity.
Defined.

(** * Relationship intelligence *)

(** ** The four sub-scores *)

Lemma recurringReduction_bounds pair :
  (3 ≤ length (amounts pair))%nat →
  10 <= recurringReduction pair <= 25.
Proof.
  intros Hlen. unfold recurringReduction. split; [|lia].
  apply Z.min_glb; [lia|]. apply Math_round_lower.
  assert (0 <= inject_Z (Z.of_nat (length (amounts pair)) - 3))%Q as H.
  { change 0%Q with (inject_Z 0). rewrite <- Zle_Qle. lia. }
  revert H. generalize (inject_Z (Z.of_nat (length (amounts pair)) - 3)).
  intros q Hq. change (inject_Z 10) with 10%Q.
  assert (0 <= q / 7)%Q by (apply Qle_shift_div_l; lra). nra.
Qed.

Lemma durationReduction_nonneg pair : 0 <= durationReduction pair.
Proof. unfold durationReduction. repeat case_bool_decide; lia. Qed.

(** Whatever the square root returns, the guard [cv < CV_THRESHOLD] keeps
    the rounded consistency score from going below zero. *)
Lemma consistencyReduction_nonneg sqrt pair :
  0 <= consistencyReduction sqrt pair.
Proof.
  unfold consistencyReduction. cbv zeta.
  case_bool_decide; [|done].
  destruct (Qgt_bool _ 0); [|done].
  match goal with
  | |- context [Qlt_bool ?x CV_THRESHOLD] => generalize x; intros cv
  end.
  destruct (Qlt_bool cv CV_THRESHOLD) eqn:Hcv; [|done].
  apply Qlt_bool_iff in Hcv. apply Math_round_pos.
  unfold CV_THRESHOLD in *.
  assert (cv / (20 # 100) == cv * 5)%Q as -> by field. lra.
Qed.

Lemma periodicityReduction_nonneg pair : 0 <= periodicityReduction pair.
Proof.
  unfold periodicityReduction. cbv zeta.
  case_bool_decide; [|done].
  destruct (Qgt_bool _ 0); [|done].
  match goal with
  | |- context [Qge_bool ?x PERIODICITY_MATCH_RATIO] => generalize x; intros r
  end.
  destruct (Qge_bool r PERIODICITY_MATCH_RATIO) eqn:Hr; [|done].
  apply Qle_bool_iff in Hr.
  etrans; [|apply (Math_round_lower 10)]; [done|].
  unfold PERIODICITY_MATCH_RATIO in *. change (inject_Z 10) with 10%Q.
  assert ((r - (70 # 100)) / (1 - (70 # 100))
          == (r - (70 # 100)) * (10 # 3))%Q as -> by field. lra.
Qed.

Lemma qualifyingPairs_length txs pair :
  pair ∈ qualifyingPairs txs → (3 ≤ length (amounts pair))%nat.
Proof.
  unfold qualifyingPairs. intros Hin.
  apply list_elem_of_In, filter_In in Hin as [_ Hq].
  unfold qualifies in Hq. apply andb_true_iff in Hq as [Hq _].
  by apply bool_decide_eq_true in Hq.
Qed.

Lemma rentPairs_eq : qualifyingPairs rentTxs = [rentPair].
Proof. vm_compute. reflexivity. Qed.

Lemma totalReductionOf_bounds r :
  goodReduction r → 10 <= totalReductionOf r <= 50.
Proof.
  unfold goodReduction, totalReductionOf, MAX_TOTAL_REDUCTION. lia.
Qed.

Lemma totalReductionOf_cap r : totalReductionOf r <= 50.
Proof. unfold totalReductionOf, MAX_TOTAL_REDUCTION. lia. Qed.

Lemma Math_max_spec x y :
  (Math_max x y == x ∧ y <= x)%Q ∨ (Math_max x y == y ∧ x <= y)%Q.
Proof.
  unfold Math_max. destruct (Qle_bool x y) eqn:H.
  - right. split; [reflexivity|by apply Qle_bool_iff].
  - left. split; [reflexivity|].
    apply Qlt_le_weak, Qnot_le_lt. intros Hle.
    apply Qle_bool_iff in Hle. congruence.
Qed.

(** ** The per-account reductions *)

Section Reductions.
Context (Math_sqrt : Q → Q).

Lemma bestOf_lookup pair m accountId id :
  bestOf Math_sqrt pair m accountId !! id
  = if decide (accountId = id)
    then Some (let r := default zeroReduction (m !! accountId) in
               mkReduction
                 (Z.max (recurring r) (recurringReduction pair))
                 (Z.max (duration r) (durationReduction pair))
                 (Z.max (consistency r)
                    (consistencyReduction Math_sqrt pair))
                 (Z.max (periodicity r) (periodicityReduction pair)))
    else m !! id.
Proof. unfold bestOf. by rewrite lookup_insert. Qed.

Lemma bestOf_good pair m accountId :
  (3 ≤ length (amounts pair))%nat →
  map_Forall (λ _, goodReduction) m →
  map_Forall (λ _, goodReduction) (bestOf Math_sqrt pair m accountId).
Proof.
  intros Hlen Hm id r. rewrite bestOf_lookup. case_decide; [|by apply Hm].
  intros [= <-]. pose proof (recurringReduction_bounds pair Hlen).
  unfold goodReduction. cbn.
  pose proof (durationReduction_nonneg pair).
  pose proof (consistencyReduction_nonneg Math_sqrt pair).
  pose proof (periodicityReduction_nonneg pair). lia.
Qed.

Lemma bestOf_keeps pair m accountId id :
  is_Some (m !! id) → is_Some (bestOf Math_sqrt pair m accountId !! id).
Proof. rewrite bestOf_lookup. case_decide; eauto. Qed.

Lemma bestOf_adds pair m accountId :
  is_Some (bestOf Math_sqrt pair m accountId !! accountId).
Proof. rewrite bestOf_lookup. rewrite decide_True by done. eauto. Qed.

Lemma applyPair_good pair m :
  (3 ≤ length (amounts pair))%nat →
  map_Forall (λ _, goodReduction) m →
  map_Forall (λ _, goodReduction) (applyPair Math_sqrt m pair).
Proof.
  intros ? ?. unfold applyPair. simpl.
  apply bestOf_good; [done|]. by apply bestOf_good.
Qed.

Lemma applyPair_keeps pair m id :
  is_Some (m !! id) → is_Some (applyPair Math_sqrt m pair !! id).
Proof. intros ?. unfold applyPair. simpl. by do 2 apply bestOf_keeps. Qed.

Lemma applyPair_adds pair m :
  is_Some (applyPair Math_sqrt m pair !! sender pair)
  ∧ is_Some (applyPair Math_sqrt m pair !! receiver pair).
Proof.
  unfold applyPair. simpl. split; [|apply bestOf_adds].
  apply bestOf_keeps, bestOf_adds.
Qed.

Lemma foldl_applyPair pairs :
  Forall (λ pair, (3 ≤ length (amounts pair))%nat) pairs →
  map_Forall (λ _, goodReduction) (foldl (applyPair Math_sqrt) ∅ pairs)
  ∧ ∀ pair, pair ∈ pairs →
      is_Some (foldl (applyPair Math_sqrt) ∅ pairs !! sender pair)
      ∧ is_Some (foldl (applyPair Math_sqrt) ∅ pairs !! receiver pair).
Proof.
  induction pairs as [|p pairs IH] using rev_ind; intros Hall.
  - split; [apply map_Forall_empty|]. intros pair Hin.
    by apply elem_of_nil in Hin.
  - apply Forall_app in Hall as [Hall Hp]. rewrite Forall_singleton in Hp.
    destruct (IH Hall) as [Hgood Hin]. rewrite foldl_app. cbn [foldl].
    split; [apply applyPair_good; [exact Hp|exact Hgood]|].
    intros pair [Hpair|Hpair%list_elem_of_singleton]%elem_of_app.
    + destruct (Hin pair Hpair). split; by apply applyPair_keeps.
    + subst. apply applyPair_adds.
Qed.

(** Every entry of [accountReductions] carries a recurring score of at
    least 10 and no negative score. *)
Lemma buildReductions_good txs :
  map_Forall (λ _, goodReduction) (buildReductions Math_sqrt txs).
Proof.
  apply foldl_applyPair, Forall_forall. apply qualifyingPairs_length.
Qed.

Lemma buildReductions_member txs pair id :
  pair ∈ qualifyingPairs txs → id = sender pair ∨ id = receiver pair →
  ∃ r, buildReductions Math_sqrt txs !! id = Some r ∧ goodReduction r.
Proof.
  intros Hpair Hid.
  destruct (foldl_applyPair (qualifyingPairs txs)) as [Hgood Hin].
  { apply Forall_forall, qualifyingPairs_length. }
  destruct (Hin pair Hpair) as [[r Hr] [r' Hr']].
  destruct Hid as [-> | ->]; eauto.
Qed.

End Reductions.

(** ** Step 4 on one account *)

Section Engine.
Context (Math_sqrt : Q → Q) (Number_toString : Q → string).

Lemma adjust_lookup accounts transactions cycleMembers i :
  adjustScoresUsingRelationshipIntelligence Math_sqrt Number_toString
    accounts transactions cycleMembers !! i
  = adjustAccount Number_toString cycleMembers
      (buildReductions Math_sqrt transactions) <$> accounts !! i.
Proof.
  unfold adjustScoresUsingRelationshipIntelligence.
  apply list_lookup_fmap.
Qed.

Lemma applyReduction_score r t a :
  suspicion_score (applyReduction Number_toString r t a)
  = Math_max 0 (suspicion_score a - inject_Z t).
Proof. done. Qed.

Lemma applyReduction_algorithms r t a :
  triggered_algorithms (applyReduction Number_toString r t a)
  = triggered_algorithms a ++ [RelIntel.ALGORITHM_NAME].
Proof. done. Qed.

Lemma applyReduction_explanation r t a :
  ∃ note,
    explanation (applyReduction Number_toString r t a)
    = explanation a +:+ note
    ∧ note ≠ "".
Proof. eexists. split; [reflexivity|]. discriminate. Qed.

(** The loop body either leaves the account alone or applies a positive
    reduction to a positive score of a non-cycle account. *)
Lemma adjustAccount_cases cycleMembers reductions a :
  adjustAccount Number_toString cycleMembers reductions a = a
  ∨ ((account_id a ∉ cycleMembers) ∧ (0 < suspicion_score a)%Q
     ∧ ∃ r, reductions !! account_id a = Some r
            ∧ 0 < totalReductionOf r
            ∧ adjustAccount Number_toString cycleMembers reductions a
              = applyReduction Number_toString r (totalReductionOf r) a).
Proof.
  unfold adjustAccount.
  case_bool_decide as Hcm; [by left|].
  destruct (Qle_bool (suspicion_score a) 0) eqn:Hpos; [by left|].
  destruct (reductions !! account_id a) as [r|]; [|by left].
  cbv zeta. case_bool_decide as Ht; [by left|].
  right. split; [done|]. split.
  - apply Qnot_le_lt. intros Hle. apply Qle_bool_iff in Hle. congruence.
  - exists r. split; [done|]. split; [lia|done].
Qed.

Lemma adjustAccount_applies cycleMembers reductions a r :
  account_id a ∉ cycleMembers → (0 < suspicion_score a)%Q →
  reductions !! account_id a = Some r → 0 < totalReductionOf r →
  adjustAccount Number_toString cycleMembers reductions a
  = applyReduction Number_toString r (totalReductionOf r) a.
Proof.
  intros Hcm Hpos Hr Ht. unfold adjustAccount.
  rewrite bool_decide_eq_false_2 by done.
  destruct (Qle_bool (suspicion_score a) 0) eqn:Hle.
  { apply Qle_bool_iff in Hle. lra. }
  rewrite Hr. cbv zeta. by rewrite bool_decide_eq_false_2 by lia.
Qed.

Lemma applyReduction_score_bounds r t a :
  0 < t → (0 < suspicion_score a)%Q →
  (0 <= suspicion_score (applyReduction Number_toString r t a))%Q
  ∧ (suspicion_score (applyReduction Number_toString r t a)
     < suspicion_score a)%Q
  ∧ (suspicion_score a
     - suspicion_score (applyReduction Number_toString r t a)
     <= inject_Z t)%Q.
Proof.
  intros Ht Hpos. rewrite applyReduction_score.
  assert (0 < inject_Z t)%Q as HtQ.
  { change 0%Q with (inject_Z 0). by rewrite <- Zlt_Qlt. }
  destruct (Math_max_spec 0 (suspicion_score a - inject_Z t))
    as [[-> ?]|[-> ?]]; split_and!; lra.
Qed.

(** A positive reduction of a positive score lowers the score, so the
    account does not stay as it was. *)
Lemma applyReduction_changes r t a :
  0 < t → (0 < suspicion_score a)%Q →
  applyReduction Number_toString r t a ≠ a.
Proof.
  intros Ht Hpos Heq.
  destruct (applyReduction_score_bounds r t a Ht Hpos) as (_ & Hlt & _).
  rewrite Heq in Hlt. by apply Qlt_irrefl in Hlt.
Qed.

(** ** Claims on the relationship-intelligence engine *)

(** C4: after one run every account has a [suspicion_score] that is at
    most its input score, and not negative when the input score (a
    non-negative real in the data model) is not negative. *)
Theorem score_never_raised accounts transactions cycleMembers i account :
  accounts !! i = Some account →
  ∃ account',
    adjustScoresUsingRelationshipIntelligence Math_sqrt Number_toString
      accounts transactions cycleMembers !! i = Some account'
    ∧ (suspicion_score account' <= suspicion_score account)%Q
    ∧ ((0 <= suspicion_score account)%Q →
       (0 <= suspicion_score account')%Q).
Proof.
  intros Ha. rewrite adjust_lookup, Ha. eexists. split; [done|].
  destruct (adjustAccount_cases cycleMembers
              (buildReductions Math_sqrt transactions) account)
    as [-> | (_ & Hpos & r & _ & Ht & ->)].
  - split; [apply Qle_refl|done].
  - destruct (applyReduction_score_bounds r _ account Ht Hpos)
      as (? & ? & ?).
    split; [by apply Qlt_le_weak|done].
Qed.

(** C5: the reduction applied to an account's [suspicion_score] in one
    run is at most 50; the capped total is at most 50 for any four
    sub-scores, and is 50 when all four are at their maxima
    (25 + 20 + 15 + 20 = 80). *)
Theorem reduction_capped accounts transactions cycleMembers i account :
  accounts !! i = Some account →
  (∀ r, totalReductionOf r <= 50)
  ∧ totalReductionOf (mkReduction 25 20 15 20) = 50
  ∧ ∃ account',
      adjustScoresUsingRelationshipIntelligence Math_sqrt Number_toString
        accounts transactions cycleMembers !! i = Some account'
      ∧ (suspicion_score account - suspicion_score account' <= 50)%Q.
Proof.
  intros Ha. split; [apply totalReductionOf_cap|]. split; [done|].
  rewrite adjust_lookup, Ha. eexists. split; [done|].
  destruct (adjustAccount_cases cycleMembers
              (buildReductions Math_sqrt transactions) account)
    as [-> | (_ & Hpos & r & _ & Ht & ->)].
  - lra.
  - destruct (applyReduction_score_bounds r _ account Ht Hpos)
      as (_ & _ & Hle).
    eapply Qle_trans; [exact Hle|]. change 50%Q with (inject_Z 50).
    rewrite <- Zle_Qle. apply totalReductionOf_cap.
Qed.

(** C6: an account whose id is in [cycleMembers] comes out of the run
    with every field as it went in, whatever pairs it takes part in. *)
Theorem cycle_members_untouched accounts transactions cycleMembers i account :
  accounts !! i = Some account →
  account_id account ∈ cycleMembers →
  adjustScoresUsingRelationshipIntelligence Math_sqrt Number_toString
    accounts transactions cycleMembers !! i = Some account.
Proof.
  intros Ha Hcm. rewrite adjust_lookup, Ha. simpl. f_equal.
  unfold adjustAccount. by rewrite bool_decide_eq_true_2.
Qed.

(** C10, as amended: an account of a qualifying pair has an entry in
    [accountReductions] whose recurring score is at least 10, so its
    capped total lies between 10 and 50; if the account is no cycle
    member and its score is positive it is always mutated: the score
    becomes [max 0 (score - total)] (lower than before, by at least 10
    when the score was at least 10, and zero when the score was at most
    10), the algorithm name is appended and a non-empty note is appended
    to the explanation. *)
Theorem qualifying_account_is_reduced accounts transactions cycleMembers i
    account pair :
  accounts !! i = Some account →
  pair ∈ qualifyingPairs transactions →
  account_id account = sender pair ∨ account_id account = receiver pair →
  ∃ r,
    buildReductions Math_sqrt transactions !! account_id account = Some r
    ∧ 10 <= recurring r
    ∧ 10 <= totalReductionOf r <= 50
    ∧ (account_id account ∉ cycleMembers →
       (0 < suspicion_score account)%Q →
       ∃ account' note,
         adjustScoresUsingRelationshipIntelligence Math_sqrt
           Number_toString accounts transactions cycleMembers !! i
         = Some account'
         ∧ suspicion_score account'
           = Math_max 0 (suspicion_score account
                         - inject_Z (totalReductionOf r))
         ∧ (suspicion_score account' < suspicion_score account)%Q
         ∧ ((10 <= suspicion_score account)%Q →
            (10 <= suspicion_score account - suspicion_score account')%Q)
         ∧ ((suspicion_score account <= 10)%Q →
            (suspicion_score account' == 0)%Q)
         ∧ triggered_algorithms account'
           = triggered_algorithms account ++ [RelIntel.ALGORITHM_NAME]
         ∧ explanation account' = explanation account +:+ note
         ∧ note ≠ "").
Proof.
  intros Ha Hpair Hid.
  destruct (buildReductions_member Math_sqrt transactions pair
              (account_id account) Hpair Hid) as (r & Hr & Hgood).
  pose proof (totalReductionOf_bounds r Hgood) as Ht.
  exists r. split; [done|]. split; [apply Hgood|]. split; [done|].
  intros Hcm Hpos.
  destruct (applyReduction_explanation r (totalReductionOf r) account)
    as (note & Hnote & Hne).
  exists (applyReduction Number_toString r (totalReductionOf r) account),
         note.
  rewrite adjust_lookup, Ha. cbn [fmap option_fmap option_map].
  rewrite (adjustAccount_applies cycleMembers _ account r)
    by (done || lia).
  split; [done|]. split; [apply applyReduction_score|].
  destruct (applyReduction_score_bounds r (totalReductionOf r) account)
    as (H0 & Hlt & Hle); [lia|done|].
  split; [done|].
  assert (10 <= inject_Z (totalReductionOf r))%Q as HtQ.
  { change 10%Q with (inject_Z 10). rewrite <- Zle_Qle. lia. }
  rewrite applyReduction_score in *.
  destruct (Math_max_spec 0 (suspicion_score account
                             - inject_Z (totalReductionOf r)))
    as [[Hm ?]|[Hm ?]].
  - split; [intros; rewrite Hm; lra|]. split; [intros; by rewrite Hm|].
    done.
  - split; [intros; rewrite Hm; lra|]. split; [intros; rewrite Hm; lra|].
    done.
Qed.

(** A second run of the engine on the accounts a first run left. *)
Lemma adjust_twice accounts transactions cycleMembers i account1 :
  adjustScoresUsingRelationshipIntelligence Math_sqrt Number_toString
    accounts transactions cycleMembers !! i = Some account1 →
  adjustScoresUsingRelationshipIntelligence Math_sqrt Number_toString
    (adjustScoresUsingRelationshipIntelligence Math_sqrt Number_toString
       accounts transactions cycleMembers)
    transactions cycleMembers !! i = Some account1
  ↔ account_id account1 ∈ cycleMembers
    ∨ (suspicion_score account1 <= 0)%Q
    ∨ buildReductions Math_sqrt transactions !! account_id account1 = None.
Proof.
  intros H1. rewrite adjust_lookup, H1. cbn [fmap option_fmap option_map].
  set (red := buildReductions Math_sqrt transactions).
  split.
  - intros [= Heq].
    destruct (decide (account_id account1 ∈ cycleMembers)) as [|Hcm];
      [by left|].
    destruct (Qlt_le_dec 0 (suspicion_score account1)) as [Hpos|];
      [|by right; left].
    destruct (red !! account_id account1) as [r|] eqn:Hr; [|by right; right].
    exfalso.
    pose proof (totalReductionOf_bounds r
                  (buildReductions_good Math_sqrt transactions _ _ Hr)).
    rewrite (adjustAccount_applies cycleMembers red account1 r) in Heq
      by (done || lia).
    apply applyReduction_changes in Heq; [done|lia|done].
  - intros Hcase. f_equal. unfold adjustAccount.
    destruct Hcase as [Hcm|[Hle|Hnone]].
    + by rewrite bool_decide_eq_true_2.
    + apply Qle_bool_iff in Hle. rewrite Hle. by case_bool_decide.
    + rewrite Hnone. case_bool_decide; [done|].
      by destruct (Qle_bool _ _).
Qed.

End Engine.

(** The rent scenario of the specification: 4 payments of 1000, thirty
    days apart, give 12 + 10 + 15 + 20 = 57, capped to 50; X (score 40)
    drops to 0 and is no longer suspicious, Y (score 100) drops to 50. *)
Example scenario_rent :
  buildReductions sqrtApprox rentTxs !! "X" = Some (mkReduction 12 10 15 20)
  ∧ (λ a, (suspicion_score a, is_suspicious a)) <$> rentOnce !! 0%nat
    = Some (0%Q, false)
  ∧ (λ a, (suspicion_score a, is_suspicious a)) <$> rentOnce !! 1%nat
    = Some (50%Q, true)
  ∧ explanation <$> rentOnce !! 1%nat
    = Some "flagged | Relationship Intelligence: score reduced by 50 (100→50) [recurring_pair(-12), long_relationship(-10), amount_consistency(-15), monthly_periodicity(-20)]".
Proof. by vm_compute. Qed.

Lemma score_never_raised_witness :
  ∃ account',
    adjustScoresUsingRelationshipIntelligence sqrtApprox showNumber
      rentAccounts rentTxs ∅ !! 0%nat = Some account'
    ∧ (suspicion_score account' <= suspicion_score (account0 "X" 40 4))%Q
    ∧ ((0 <= suspicion_score (account0 "X" 40 4))%Q →
       (0 <= suspicion_score account')%Q).
Proof.
  apply (score_never_raised sqrtApprox showNumber rentAccounts rentTxs ∅ 0
           (account0 "X" 40 4)).
  reflexivity.
Defined.

Lemma reduction_capped_witness :
  (∀ r, totalReductionOf r <= 50)
  ∧ totalReductionOf (mkReduction 25 20 15 20) = 50
  ∧ ∃ account',
      adjustScoresUsingRelationshipIntelligence sqrtApprox showNumber
        rentAccounts rentTxs ∅ !! 1%nat = Some account'
      ∧ (suspicion_score (account0 "Y" 100 4) - suspicion_score account'
         <= 50)%Q.
Proof.
  apply (reduction_capped sqrtApprox showNumber rentAccounts rentTxs ∅ 1
           (account0 "Y" 100 4)).
  reflexivity.
Defined.

Lemma cycle_members_untouched_witness :
  adjustScoresUsingRelationshipIntelligence sqrtApprox showNumber
    rentAccounts rentTxs {["X"]} !! 0%nat = Some (account0 "X" 40 4).
Proof.
  apply (cycle_members_untouched sqrtApprox showNumber rentAccounts rentTxs
           {["X"]} 0 (account0 "X" 40 4)).
  - reflexivity.
  - vm_compute. reflexivity.
Defined.

Lemma qualifying_account_is_reduced_witness :
  ∃ r,
    buildReductions sqrtApprox rentTxs !! account_id (account0 "Y" 100 4)
    = Some r
    ∧ 10 <= recurring r
    ∧ 10 <= totalReductionOf r <= 50
    ∧ (account_id (account0 "Y" 100 4) ∉ (∅ : gset string) →
       (0 < suspicion_score (account0 "Y" 100 4))%Q →
       ∃ account' note,
         adjustScoresUsingRelationshipIntelligence sqrtApprox showNumber
           rentAccounts rentTxs ∅ !! 1%nat
         = Some account'
         ∧ suspicion_score account'
           = Math_max 0 (suspicion_score (account0 "Y" 100 4)
                         - inject_Z (totalReductionOf r))
         ∧ (suspicion_score account'
            < suspicion_score (account0 "Y" 100 4))%Q
         ∧ ((10 <= suspicion_score (account0 "Y" 100 4))%Q →
            (10 <= suspicion_score (account0 "Y" 100 4)
                   - suspicion_score account')%Q)
         ∧ ((suspicion_score (account0 "Y" 100 4) <= 10)%Q →
            (suspicion_score account' == 0)%Q)
         ∧ triggered_algorithms account'
           = triggered_algorithms (account0 "Y" 100 4)
             ++ [RelIntel.ALGORITHM_NAME]
         ∧ explanation account'
           = explanation (account0 "Y" 100 4) +:+ note
         ∧ note ≠ "").
Proof.
  apply (qualifying_account_is_reduced sqrtApprox showNumber rentAccounts
           rentTxs ∅ 1 (account0 "Y" 100 4) rentPair).
  - reflexivity.
  - rewrite rentPairs_eq. apply list_elem_of_here.
  - right. reflexivity.
Defined.

(** C10 as stated fails on a score below 10: X, a non-cycle sender of the
    qualifying rent pair with score 5, ends at 0, a drop of 5. *)
Lemma small_score_reduced_by_less_than_ten :
  ∃ account account',
    smallAccounts !! 0%nat = Some account
    ∧ adjustScoresUsingRelationshipIntelligence sqrtApprox showNumber
        smallAccounts rentTxs ∅ !! 0%nat = Some account'
    ∧ rentPair ∈ qualifyingPairs rentTxs
    ∧ account_id account = sender rentPair
    ∧ (account_id account ∉ (∅ : gset string))
    ∧ (0 < suspicion_score account)%Q
    ∧ suspicion_score account = 5%Q
    ∧ suspicion_score account' = 0%Q
    ∧ ¬ (10 <= suspicion_score account - suspicion_score account')%Q.
Proof.
  eexists _, _. split; [reflexivity|].
  split; [vm_compute; reflexivity|].
  split; [rewrite rentPairs_eq; apply list_elem_of_here|].
  split; [done|]. split; [set_solver|]. split; [done|].
  split; [done|]. split; [done|]. by vm_compute.
Qed.

(** ** The recurring-pair score *)

(** C7 as stated fails between 3 and 10 transactions, where the score is
    a whole number and the line is not: the pair of the rent scenario has
    4 transactions and a score of 12, while the line gives 85/7. *)
Lemma recurring_score_off_the_line :
  rentPair ∈ qualifyingPairs rentTxs
  ∧ length (amounts rentPair) = 4%nat
  ∧ recurringReduction rentPair = 12
  ∧ (recurringScoreSpec 4 == 85 # 7)%Q
  ∧ ¬ (inject_Z (recurringReduction rentPair) == recurringScoreSpec 4)%Q.
Proof.
  split; [rewrite rentPairs_eq; apply list_elem_of_here|].
  split; [done|]. split; [by vm_compute|]. split; [by vm_compute|].
  vm_compute. intros H. discriminate H.
Qed.

Lemma recurringLine_eq n :
  (recurringLine n == 10 + inject_Z (Z.of_nat n - 3) * (15 # 7))%Q.
Proof. unfold recurringLine. field. Qed.

Lemma recurringLine_mono n n' :
  (n ≤ n')%nat → (recurringLine n <= recurringLine n')%Q.
Proof.
  intros Hn. rewrite !recurringLine_eq.
  assert (inject_Z (Z.of_nat n - 3) <= inject_Z (Z.of_nat n' - 3))%Q
    by (rewrite <- Zle_Qle; lia).
  lra.
Qed.

(** C7, as amended: for a qualifying pair with [n] transactions the
    recurring-pair score is a whole number of points between 10 and 25
    that does not decrease as [n] grows: 10 at 3 transactions, 25 at 10
    or more, and in between less than one point away from the line
    [10 + ((n - 3) / 7) * 15]. *)
Theorem recurring_score_whole_points transactions pair :
  pair ∈ qualifyingPairs transactions →
  (3 ≤ length (amounts pair))%nat
  ∧ 10 <= recurringReduction pair <= 25
  ∧ (length (amounts pair) = 3%nat → recurringReduction pair = 10)
  ∧ ((10 ≤ length (amounts pair))%nat → recurringReduction pair = 25)
  ∧ ((length (amounts pair) ≤ 10)%nat →
     (recurringLine (length (amounts pair)) - 1
      < inject_Z (recurringReduction pair))%Q
     ∧ (inject_Z (recurringReduction pair)
        < recurringLine (length (amounts pair)) + 1)%Q)
  ∧ ∀ pair',
      (length (amounts pair) ≤ length (amounts pair'))%nat →
      recurringReduction pair <= recurringReduction pair'.
Proof.
  intros Hq. pose proof (qualifyingPairs_length _ _ Hq) as Hn.
  split; [done|]. split; [by apply recurringReduction_bounds|].
  unfold recurringReduction.
  fold (recurringLine (length (amounts pair))).
  revert Hn. generalize (length (amounts pair)). intros n Hn.
  pose proof (recurringLine_eq n) as Hline.
  split; [|split; [|split]].
  - intros ->. by vm_compute.
  - intros Hn10. apply Z.min_l. apply (Math_round_lower 25).
    rewrite Hline.
    assert (inject_Z 7 <= inject_Z (Z.of_nat n - 3))%Q as H7
      by (rewrite <- Zle_Qle; lia).
    change (inject_Z 7) with 7%Q in H7. change (inject_Z 25) with 25%Q. lra.
  - intros Hn10.
    assert (Z.min 25 (Math_round (recurringLine n))
            = Math_round (recurringLine n)) as ->.
    { apply Z.min_r. unfold Math_round.
      change 25 with (Qfloor (25 + (1 # 2))).
      apply Qfloor_resp_le. rewrite Hline.
      assert (inject_Z (Z.of_nat n - 3) <= inject_Z 7)%Q as H7
        by (rewrite <- Zle_Qle; lia).
      change (inject_Z 7) with 7%Q in H7. lra. }
    unfold Math_round.
    pose proof (Qfloor_le (recurringLine n + (1 # 2))) as H1.
    pose proof (Qlt_floor (recurringLine n + (1 # 2))) as H2.
    rewrite inject_Z_plus in H2. change (inject_Z 1) with 1%Q in H2.
    split; lra.
  - intros pair' Hle.
    fold (recurringLine (length (amounts pair'))).
    apply Z.min_le_compat_l. unfold Math_round. apply Qfloor_resp_le.
    pose proof (recurringLine_mono _ _ Hle). lra.
Qed.

Lemma recurring_score_whole_points_witness :
  (3 ≤ length (amounts rentPair))%nat
  ∧ 10 <= recurringReduction rentPair <= 25
  ∧ (length (amounts rentPair) = 3%nat → recurringReduction rentPair = 10)
  ∧ ((10 ≤ length (amounts rentPair))%nat → recurringReduction rentPair = 25)
  ∧ ((length (amounts rentPair) ≤ 10)%nat →
     (recurringLine (length (amounts rentPair)) - 1
      < inject_Z (recurringReduction rentPair))%Q
     ∧ (inject_Z (recurringReduction rentPair)
        < recurringLine (length (amounts rentPair)) + 1)%Q)
  ∧ ∀ pair',
      (length (amounts rentPair) ≤ length (amounts pair'))%nat →
      recurringReduction rentPair <= recurringReduction pair'.
Proof.
  apply (recurring_score_whole_points rentTxs rentPair).
  rewrite rentPairs_eq. apply list_elem_of_here.
Defined.

(** * Running an engine twice *)

Lemma string_app_nil_r (s : string) : s +:+ "" = s.
Proof.
  induction s as [|c s IH]; [done|].
  change (String c (s +:+ "") = String c s). by rewrite IH.
Qed.

Lemma foldl_accountMap_framed (f : nat → nat) (m : gmap string nat) s t :
  Forall2 frameR s t →
  foldl (λ m '(i, a), <[account_id a := i]> m) m (imap (λ i a, (f i, a)) s)
  = foldl (λ m '(i, a), <[account_id a := i]> m) m
      (imap (λ i a, (f i, a)) t).
Proof.
  intros Hst. revert f m.
  induction Hst as [|a b s t [Hid _] Hst IH]; intros f m; [done|].
  rewrite !imap_cons. cbn [foldl]. rewrite Hid.
  apply (IH (f ∘ S)).
Qed.

(** The account map depends on the ids of the accounts only. *)
Lemma buildAccountMap_framed s t :
  Forall2 frameR s t → buildAccountMap s = buildAccountMap t.
Proof. apply (foldl_accountMap_framed id). Qed.

(** Classifying an account that already carries the same classification
    only appends to its explanation. *)
Lemma classifyAccount_again checks b :
  FanIn.ALGORITHM_NAME ∈ triggered_algorithms b →
  corroboration_checks b = Some checks →
  fan_in_classification b
  = Some (if bool_decide (0 < length checks)%nat
          then confirmed_money_laundering else aggregation_candidate) →
  rerunOf (classifyAccount checks b) b.
Proof.
  destruct b as [id sc sus pats tot expl algs cls chk]. cbn.
  intros Halgs -> ->. unfold classifyAccount, rerunOf, sameButExplanation.
  cbv zeta.
  destruct (bool_decide (0 < length checks)%nat); cbn;
    rewrite (bool_decide_eq_true_2 _ Halgs); cbn;
    (split; [by repeat split|by eexists]).
Qed.

Lemma classifyAccount_twice checks a :
  rerunOf (classifyAccount checks (classifyAccount checks a))
          (classifyAccount checks a).
Proof.
  apply classifyAccount_again.
  - apply classifyAccount_algorithms.
  - apply classifyAccount_checks.
  - apply classifyAccount_classification.
Qed.

Lemma rerunOf_refl a : rerunOf a a.
Proof.
  split; [by repeat split|]. exists "". by rewrite string_app_nil_r.
Qed.

(** A second fan-in run finds the same candidates, resolves them to the
    same account objects and triggers the same checks; it changes nothing
    but [explanation], to which it appends. *)
Lemma validate_twice accounts transactions graph cycles shellChains
    fanOutMap :
  Forall2 rerunOf
    (validateFanInTwoPhase
       (validateFanInTwoPhase accounts transactions graph cycles shellChains
          fanOutMap)
       transactions graph cycles shellChains fanOutMap)
    (validateFanInTwoPhase accounts transactions graph cycles shellChains
       fanOutMap).
Proof.
  set (once := validateFanInTwoPhase accounts transactions graph cycles
                 shellChains fanOutMap).
  rewrite (validate_unfold once).
  assert (Hfr : Forall2 frameR accounts once) by apply run_framed.
  assert (Hlk : buildLookups once transactions graph cycles shellChains
                  fanOutMap
                = buildLookups accounts transactions graph cycles shellChains
                    fanOutMap).
  { unfold buildLookups. by rewrite (buildAccountMap_framed _ _ Hfr). }
  rewrite Hlk. set (lk := buildLookups accounts _ _ _ _ _).
  set (cs := identifyAggregationCandidates transactions).
  pose proof (buildAccountMap_sound accounts) as Hs0.
  assert (Hs : amSound (lk_accountMap lk) once)
    by (by eapply amSound_framed).
  apply Forall2_same_length_lookup. split.
  { symmetry. apply (Forall2_length _ _ _ (run_framed lk cs once)). }
  intros i a2 a1 Ha2 Ha1.
  destruct (decide (Exists (λ c, lk_accountMap lk !! accountId c = Some i) cs))
    as [Hex|Hno].
  - apply Exists_exists in Hex as (c & Hc & Hi).
    rewrite (run_classified lk cs once c i) in Ha2;
      [|apply candidates_NoDup|done|done|done].
    pose proof Ha1 as Ha1'. unfold once in Ha1'.
    rewrite validate_unfold in Ha1'. fold lk cs in Ha1'.
    rewrite (run_classified lk cs accounts c i) in Ha1';
      [|apply candidates_NoDup|done|done|done].
    rewrite Ha1 in Ha2. cbn in Ha2. injection Ha2 as <-.
    rewrite <- (triggeredChecksOf_framed lk accounts once c Hfr).
    destruct (accounts !! i) as [a0|]; [|done]. cbn in Ha1'.
    injection Ha1' as <-. apply classifyAccount_twice.
  - rewrite run_untouched in Ha2.
    + rewrite Ha1 in Ha2. injection Ha2 as <-. apply rerunOf_refl.
    + intros c Hc Hi. apply Hno, Exists_exists. eauto.
Qed.

Lemma validate_twice_fields accounts transactions graph cycles shellChains
    fanOutMap :
  Forall2 sameButExplanation
    (validateFanInTwoPhase
       (validateFanInTwoPhase accounts transactions graph cycles shellChains
          fanOutMap)
       transactions graph cycles shellChains fanOutMap)
    (validateFanInTwoPhase accounts transactions graph cycles shellChains
       fanOutMap).
Proof.
  eapply Forall2_impl; [apply validate_twice|]. by intros a b [? _].
Qed.

(** The append to [explanation] is the one update of the fan-in loop that
    is not guarded: on the accounts one run left, a second run writes its
    sentence once more. *)
Example second_fan_in_run :
  explanation <$> fanInOnce !! 0%nat
  = Some "flagged. Fan-In Validation: AGGREGATION CANDIDATE (unconfirmed). No corroboration evidence found"
  ∧ explanation <$> fanInTwice !! 0%nat
    = Some "flagged. Fan-In Validation: AGGREGATION CANDIDATE (unconfirmed). No corroboration evidence found. Fan-In Validation: AGGREGATION CANDIDATE (unconfirmed). No corroboration evidence found".
Proof. split; by vm_compute. Qed.

(** C3 as stated fails: relationship intelligence subtracts its
    reduction on every run.  A second run lowers Y from 50 to 0 and
    appends the algorithm name and the note again. *)
Lemma second_run_differs :
  suspicion_score <$> rentOnce !! 1%nat = Some 50%Q
  ∧ suspicion_score <$> rentTwice !! 1%nat = Some 0%Q
  ∧ triggered_algorithms <$> rentTwice !! 1%nat
    = Some [RelIntel.ALGORITHM_NAME; RelIntel.ALGORITHM_NAME]
  ∧ rentTwice ≠ rentOnce.
Proof.
  split; [by vm_compute|]. split; [by vm_compute|].
  split; [by vm_compute|].
  intros H. apply (f_equal (λ l, suspicion_score <$> l !! 1%nat)) in H.
  vm_compute in H. discriminate H.
Qed.

(** C3, as amended: a second run of [validateFanInTwoPhase] leaves every
    account with the [account_id], [suspicion_score], [is_suspicious],
    [detected_patterns], [total_transactions], [triggered_algorithms],
    [fan_in_classification] and [corroboration_checks] that the first run
    left; a second run of [adjustScoresUsingRelationshipIntelligence]
    leaves an account as the first run left it exactly when the account
    is a cycle member, or its score after the first run is not positive,
    or it has no entry in [accountReductions]; the score of any other
    account is lowered again. *)
Theorem second_run_effects Math_sqrt Number_toString accounts transactions
    graph cycles shellChains fanOutMap cycleMembers i account1 :
  adjustScoresUsingRelationshipIntelligence Math_sqrt Number_toString
    accounts transactions cycleMembers !! i = Some account1 →
  Forall2 sameButExplanation
    (validateFanInTwoPhase
       (validateFanInTwoPhase accounts transactions graph cycles shellChains
          fanOutMap)
       transactions graph cycles shellChains fanOutMap)
    (validateFanInTwoPhase accounts transactions graph cycles shellChains
       fanOutMap)
  ∧ (adjustScoresUsingRelationshipIntelligence Math_sqrt Number_toString
       (adjustScoresUsingRelationshipIntelligence Math_sqrt Number_toString
          accounts transactions cycleMembers)
       transactions cycleMembers !! i = Some account1
     ↔ account_id account1 ∈ cycleMembers
       ∨ (suspicion_score account1 <= 0)%Q
       ∨ buildReductions Math_sqrt transactions !! account_id account1
         = None)
  ∧ ∃ account2,
      adjustScoresUsingRelationshipIntelligence Math_sqrt Number_toString
        (adjustScoresUsingRelationshipIntelligence Math_sqrt Number_toString
           accounts transactions cycleMembers)
        transactions cycleMembers !! i = Some account2
      ∧ (¬ (account_id account1 ∈ cycleMembers
            ∨ (suspicion_score account1 <= 0)%Q
            ∨ buildReductions Math_sqrt transactions !! account_id account1
              = None) →
         (suspicion_score account2 < suspicion_score account1)%Q).
Proof.
  intros H1. split; [apply validate_twice_fields|].
  pose proof (adjust_twice Math_sqrt Number_toString accounts transactions
                cycleMembers i account1 H1) as Hiff.
  split; [exact Hiff|].
  rewrite adjust_lookup, H1 in Hiff |- *. cbn [fmap option_fmap option_map] in *.
  eexists. split; [reflexivity|]. intros Hnot.
  destruct (adjustAccount_cases Number_toString cycleMembers
              (buildReductions Math_sqrt transactions) account1)
    as [Heq | (_ & Hpos & r & _ & Ht & ->)].
  - exfalso. apply Hnot, Hiff. by rewrite Heq.
  - by destruct (applyReduction_score_bounds Number_toString r _ account1
                   Ht Hpos) as (_ & ? & _).
Qed.

Lemma second_run_effects_witness :
  Forall2 sameButExplanation
    (validateFanInTwoPhase
       (validateFanInTwoPhase mixedAccounts mixedTxs shellGraph [] [] ∅)
       mixedTxs shellGraph [] [] ∅)
    (validateFanInTwoPhase mixedAccounts mixedTxs shellGraph [] [] ∅)
  ∧ (adjustScoresUsingRelationshipIntelligence sqrtApprox showNumber
       (adjustScoresUsingRelationshipIntelligence sqrtApprox showNumber
          mixedAccounts mixedTxs ∅)
       mixedTxs ∅ !! 2%nat = Some mixedOnceY
     ↔ account_id mixedOnceY ∈ (∅ : gset string)
       ∨ (suspicion_score mixedOnceY <= 0)%Q
       ∨ buildReductions sqrtApprox mixedTxs !! account_id mixedOnceY
         = None)
  ∧ ∃ account2,
      adjustScoresUsingRelationshipIntelligence sqrtApprox showNumber
        (adjustScoresUsingRelationshipIntelligence sqrtApprox showNumber
           mixedAccounts mixedTxs ∅)
        mixedTxs ∅ !! 2%nat = Some account2
      ∧ (¬ (account_id mixedOnceY ∈ (∅ : gset string)
            ∨ (suspicion_score mixedOnceY <= 0)%Q
            ∨ buildReductions sqrtApprox mixedTxs !! account_id mixedOnceY
              = None) →
         (suspicion_score account2 < suspicion_score mixedOnceY)%Q).
Proof.
  apply (second_run_effects sqrtApprox showNumber mixedAccounts mixedTxs
           shellGraph [] [] ∅ ∅ 2 mixedOnceY).
  vm_compute. reflexivity.
Defined.

(** * Further properties of the code *)

(** ** Phase 1: the sliding-window scan finds the best window *)

(** Every transaction of the batch is filed under its receiver. *)
Lemma pushByKey_keeps k tx m r l x :
  (r, l) ∈ m → x ∈ l → ∃ l', (r, l') ∈ pushByKey k tx m ∧ x ∈ l'.
Proof.
  induction m as [|[k' l0] m IH]; intros Hin Hx;
    [by apply elem_of_nil in Hin|].
  cbn [pushByKey]. apply elem_of_cons in Hin as [Heq|Hin].
  - injection Heq as -> ->. case_bool_decide.
    + exists (l0 ++ [tx]). split; [apply list_elem_of_here|].
      apply elem_of_app. by left.
    + exists l0. split; [apply list_elem_of_here|done].
  - case_bool_decide.
    + exists l. split; [by apply list_elem_of_further|done].
    + destruct (IH Hin Hx) as (l' & Hl' & Hx').
      exists l'. split; [by apply list_elem_of_further|done].
Qed.

Lemma pushByKey_adds k tx m : ∃ l, (k, l) ∈ pushByKey k tx m ∧ tx ∈ l.
Proof.
  induction m as [|[k' l0] m IH]; cbn [pushByKey].
  - exists [tx]. split; apply list_elem_of_here.
  - case_bool_decide as Hk.
    + subst. exists (l0 ++ [tx]). split; [apply list_elem_of_here|].
      apply elem_of_app. right. apply list_elem_of_here.
    + destruct IH as (l & Hl & Hx). exists l.
      split; [by apply list_elem_of_further|done].
Qed.

Lemma groupByReceiver_complete txs tx :
  tx ∈ txs → ∃ l, (receiver_id tx, l) ∈ groupByReceiver txs ∧ tx ∈ l.
Proof.
  unfold groupByReceiver. revert tx.
  apply (foldl_invariant (λ m l, ∀ tx, tx ∈ l →
           ∃ l', (receiver_id tx, l') ∈ m ∧ tx ∈ l')).
  - intros tx Hin. by apply elem_of_nil in Hin.
  - intros m l x IH tx [Hin|Hin%list_elem_of_singleton]%elem_of_app.
    + destruct (IH tx Hin) as (l' & Hl' & Hx).
      by eapply pushByKey_keeps.
    + subst. apply pushByKey_adds.
Qed.

Lemma lookup_window sorted lo j i x :
  (lo ≤ i ≤ j)%nat → sorted !! i = Some x → x ∈ window sorted lo j.
Proof.
  intros Hi Hx. unfold window. apply list_elem_of_lookup.
  exists (i - lo)%nat. apply lookup_take_Some. split; [|lia].
  rewrite lookup_drop. by replace (lo + (i - lo))%nat with i by lia.
Qed.

Lemma window_mono sorted lo lo' j x :
  (lo' ≤ lo)%nat → x ∈ window sorted lo j → x ∈ window sorted lo' j.
Proof.
  intros Hlo (i & Hi & Hx)%elem_of_window.
  eapply lookup_window; [|done]. lia.
Qed.

(** The left pointer is as far left as the 72 hours allow. *)
Lemma slideLeft_minimal sorted right fuel left :
  (∀ i, (i < left)%nat → timeAt sorted right - timeAt sorted i > FAN_IN_WINDOW_MS) →
  ∀ i, (i < slideLeft fuel sorted (timeAt sorted right) left right)%nat →
       timeAt sorted right - timeAt sorted i > FAN_IN_WINDOW_MS.
Proof.
  revert left. induction fuel as [|fuel IH]; intros left Hleft; simpl; [done|].
  destruct (bool_decide (left < right)%nat) eqn:Hlt; simpl; [|done].
  destruct (decide (timeAt sorted right - timeAt sorted left
                    > FAN_IN_WINDOW_MS)) as [Hgt|Hle].
  2: { by rewrite (bool_decide_eq_false_2 _ Hle). }
  rewrite (bool_decide_eq_true_2 _ Hgt).
  apply IH. intros i Hi. destruct (decide (i = left)) as [->|]; [done|].
  apply Hleft. lia.
Qed.

Lemma timeAt_ascending sorted i j :
  ascending timestamp sorted → (i ≤ j < length sorted)%nat →
  timeAt sorted i <= timeAt sorted j.
Proof.
  intros Hasc Hij.
  destruct (lookup_lt_is_Some_2 sorted i) as [x Hx]; [lia|].
  destruct (lookup_lt_is_Some_2 sorted j) as [y Hy]; [lia|].
  rewrite (timeAt_lookup _ _ _ Hx), (timeAt_lookup _ _ _ Hy).
  eapply Hasc; [|done|done]. lia.
Qed.

Lemma scanStep_complete sorted st k :
  ascending timestamp sorted → (k < length sorted)%nat →
  (scan_left st ≤ k)%nat →
  scanComplete sorted k st →
  scanComplete sorted (S k) (scanStep sorted st k).
Proof.
  intros Hasc Hk Hleft [Hmin Hbest].
  destruct (slideLeft_spec sorted k (k - scan_left st)
              (scan_left st) Hleft) as [Hl Ht]; [lia|].
  assert (Hmin' : ∀ i,
    (i < slideLeft (k - scan_left st) sorted (timeAt sorted k)
           (scan_left st) k)%nat →
    timeAt sorted k - timeAt sorted i > FAN_IN_WINDOW_MS).
  { apply slideLeft_minimal. intros i Hi.
    destruct (decide (k = 0)%nat) as [->|Hk0]; [lia|].
    pose proof (Hmin i Hi ltac:(lia)).
    pose proof (timeAt_ascending sorted (k - 1) k Hasc ltac:(lia)). lia. }
  unfold scanStep. set (left' := slideLeft _ _ _ _ _) in *.
  set (sw := list_to_set (sender_id <$> window sorted left' k)).
  split; cbn [scan_left scan_best].
  - intros i Hi _. replace (S k - 1)%nat with k by lia. by apply Hmin'.
  - intros j lo Hj Hw Hsz.
    destruct (decide (j = k)) as [->|Hjk].
    + assert (left' ≤ lo)%nat as Hlo.
      { destruct (decide (left' ≤ lo)%nat); [done|].
        pose proof (Hmin' lo ltac:(lia)). lia. }
      assert (size (sendersOf (window sorted lo k)) ≤ size sw)%nat as Hle.
      { apply subseteq_size. intros s Hs.
        apply elem_of_list_to_set, list_elem_of_fmap in Hs as (x & -> & Hx).
        apply elem_of_list_to_set, list_elem_of_fmap. exists x.
        split; [done|]. by eapply window_mono. }
      rewrite bool_decide_eq_true_2 by lia.
      destruct (scan_best st) as [[[bs bl] br]|]; [|by eauto].
      case_bool_decide; [by eauto|].
      exists bs, bl, br. split; [done|lia].
    + destruct (Hbest j lo ltac:(lia) Hw Hsz) as (s & bl & br & Hs & Hle).
      rewrite Hs. case_bool_decide; [|by eauto].
      case_bool_decide; [|by eauto].
      eexists _, _, _. split; [done|]. fold sw. lia.
Qed.

Lemma scanWindows_complete sorted :
  ascending timestamp sorted →
  scanComplete sorted (length sorted) (scanWindows sorted).
Proof.
  intros Hasc. unfold scanWindows.
  assert (H : ∀ k, (k ≤ length sorted)%nat →
     (scan_left (foldl (scanStep sorted) (mkScan 0 None) (seq 0 k)) ≤ k)%nat
     ∧ scanComplete sorted k
         (foldl (scanStep sorted) (mkScan 0 None) (seq 0 k))).
  { induction k as [|k IH]; intros Hk.
    - simpl. split; [lia|]. split; [intros; lia|]. intros j lo Hj. lia.
    - rewrite seq_S, foldl_app. cbn [foldl Nat.add].
      destruct IH as [Hl Hc]; [lia|]. split.
      + destruct (slideLeft_spec sorted k
                    (k - scan_left (foldl (scanStep sorted) (mkScan 0 None)
                                      (seq 0 k)))
                    (scan_left (foldl (scanStep sorted) (mkScan 0 None)
                                  (seq 0 k))) Hl) as [? _]; [lia|].
        unfold scanStep at 1. cbn [scan_left]. lia.
      + apply scanStep_complete; [done|lia|done|done]. }
  by apply H.
Qed.

Lemma sendersOf_nil : size (sendersOf []) = 0%nat.
Proof. by vm_compute. Qed.

Lemma covering_window sorted t0 (R : list RawTransaction) :
  R ≠ [] →
  (∀ x, x ∈ R → x ∈ sorted ∧ t0 <= timestamp x <= t0 + FAN_IN_WINDOW_MS) →
  ∃ lo j, (lo ≤ j < length sorted)%nat
          ∧ t0 <= timeAt sorted lo ∧ timeAt sorted j <= t0 + FAN_IN_WINDOW_MS
          ∧ ∀ x, x ∈ R → x ∈ window sorted lo j.
Proof.
  induction R as [|x R IH]; intros Hne HR; [done|].
  destruct (HR x) as [Hx Ht]; [apply list_elem_of_here|].
  apply list_elem_of_lookup in Hx as [i Hi].
  pose proof (lookup_lt_Some _ _ _ Hi) as Hlt.
  destruct R as [|y R].
  - exists i, i. rewrite (timeAt_lookup _ _ _ Hi).
    split_and!; [lia|lia|lia|lia|].
    intros z ->%list_elem_of_singleton. by eapply lookup_window.
  - destruct IH as (lo & j & Hlj & Hlo & Hj & Hall); [done| |].
    { intros z Hz. apply HR. by apply list_elem_of_further. }
    exists (lo `min` i)%nat, (j `max` i)%nat.
    split; [lia|]. split.
    { destruct (Nat.min_spec lo i) as [[_ ->]|[_ ->]];
        [done|rewrite (timeAt_lookup _ _ _ Hi); lia]. }
    split.
    { destruct (Nat.max_spec j i) as [[_ ->]|[_ ->]];
        [rewrite (timeAt_lookup _ _ _ Hi); lia|done]. }
    intros z [->|Hz]%elem_of_cons.
    + eapply lookup_window; [|done]. lia.
    + apply Hall, elem_of_window in Hz as (k & Hk & Hz).
      eapply lookup_window; [|done]. lia.
Qed.

(** Once some 72-hour stretch of the list reaches the threshold, the scan
    has a best window, with at least as many senders. *)
Lemma scan_beats_window (l : list RawTransaction) (t0 : Z) :
  (MIN_UNIQUE_SENDERS
   ≤ size (sendersOf (withinOf l t0)))%nat →
  ∃ s bl br,
    scan_best (scanWindows (sortByTime l)) = Some (s, bl, br)
    ∧ (size (sendersOf (withinOf l t0))
       ≤ size s)%nat.
Proof.
  set (R := withinOf l t0). intros Hsz.
  pose proof (sortAsc_ascending timestamp l) as Hasc.
  fold (sortByTime l) in Hasc.
  destruct (covering_window (sortByTime l) t0 R) as (lo & j & Hlj & Hlo & Hj & Hall).
  { intros HR. subst R. rewrite HR, sendersOf_nil in Hsz.
    unfold MIN_UNIQUE_SENDERS in Hsz. lia. }
  { intros x [Hx Hin]%list_elem_of_filter. split; [|lia].
    by apply (sortAsc_elem_of timestamp). }
  destruct (scanWindows_complete (sortByTime l) Hasc) as [_ Hbest].
  assert (size (sendersOf R) ≤ size (sendersOf (window (sortByTime l) lo j)))%nat
    as Hle.
  { apply subseteq_size. intros s Hs.
    apply elem_of_list_to_set, list_elem_of_fmap in Hs as (x & -> & Hx).
    apply elem_of_list_to_set, list_elem_of_fmap. exists x.
    split; [done|]. by apply Hall. }
  destruct (Hbest j lo) as (s & bl & br & Hs & Hle'); [lia| |lia|].
  { pose proof (timeAt_ascending (sortByTime l) lo j Hasc ltac:(lia)). lia. }
  exists s, bl, br. split; [done|lia].
Qed.

Lemma assoc_unique {A B} (m : list (A * B)) k v1 v2 :
  NoDup m.*1 → (k, v1) ∈ m → (k, v2) ∈ m → v1 = v2.
Proof.
  induction m as [|[k' v'] m IH]; intros Hnd H1 H2;
    [by apply elem_of_nil in H1|].
  rewrite fmap_cons in Hnd. apply NoDup_cons in Hnd as [Hk Hnd].
  apply elem_of_cons in H1 as [E1|H1], H2 as [E2|H2].
  - congruence.
  - injection E1 as -> ->. exfalso. apply Hk.
    apply list_elem_of_fmap. by exists (k', v2).
  - injection E2 as -> ->. exfalso. apply Hk.
    apply list_elem_of_fmap. by exists (k', v1).
  - by apply IH.
Qed.

Lemma group_entry_unique txs r l l' :
  (r, l) ∈ groupByReceiver txs → (r, l') ∈ groupByReceiver txs → l = l'.
Proof.
  destruct (groupByReceiver_grouped txs) as [Hnd _].
  intros H1 H2. by eapply assoc_unique.
Qed.

Lemma incomingWithin_group txs r l t0 :
  (r, l) ∈ groupByReceiver txs →
  uniqueSendersWithin txs r t0
  ⊆ sendersOf (withinOf l t0).
Proof.
  intros Hl s Hs. unfold uniqueSendersWithin, incomingWithin in Hs.
  apply elem_of_list_to_set, list_elem_of_fmap in Hs as (x & -> & Hx).
  apply list_elem_of_filter in Hx as [(Hr & H1 & H2) Hin].
  apply elem_of_list_to_set, list_elem_of_fmap. exists x. split; [done|].
  apply list_elem_of_filter. split; [done|].
  destruct (groupByReceiver_complete txs x Hin) as (l' & Hl' & Hx').
  rewrite Hr in Hl'. by rewrite (group_entry_unique txs r l l' Hl Hl').
Qed.

Lemma candidate_entry txs c :
  c ∈ identifyAggregationCandidates txs →
  ∃ l, (accountId c, l) ∈ groupByReceiver txs
       ∧ candidateOf (accountId c) l = Some c.
Proof.
  unfold identifyAggregationCandidates. intros Hc.
  apply list_elem_of_omap in Hc as ([r l] & Hin & Hc).
  rewrite (candidateOf_accountId _ _ _ Hc). eauto.
Qed.

Lemma candidateOf_best r l c :
  candidateOf r l = Some c →
  ∃ bl br, scan_best (scanWindows (sortByTime l)) = Some (senders c, bl, br)
    ∧ windowStart c = timeAt (sortByTime l) bl
    ∧ windowEnd c = timeAt (sortByTime l) br
    ∧ totalReceived c
      = sumF amount (filter (λ tx, sender_id tx ∈ senders c)
                       (window (sortByTime l) bl br)).
Proof.
  unfold candidateOf.
  destruct (scan_best _) as [[[s bl] br]|]; [|done].
  intros [= <-]. by exists bl, br.
Qed.

Lemma group_window_bound transactions r l c t0 :
  (r, l) ∈ groupByReceiver transactions → candidateOf r l = Some c →
  (size (uniqueSendersWithin transactions r t0) ≤ size (senders c))%nat.
Proof.
  intros Hl Hc.
  destruct (candidateOf_best _ _ _ Hc) as (bl & br & Hbest & _).
  pose proof (subseteq_size _ _ (incomingWithin_group _ _ _ t0 Hl)) as Hle.
  destruct (decide (MIN_UNIQUE_SENDERS ≤ size (sendersOf (withinOf l t0)))%nat) as [Hsz|Hsz].
  - destruct (scan_beats_window l t0 Hsz) as (s & bl' & br' & Hs & Hle').
    rewrite Hbest in Hs. injection Hs as <- <- <-. lia.
  - destruct (scanWindows_good (sortByTime l) _ _ _ Hbest) as (_ & _ & _ & H3).
    lia.
Qed.

(** X1: the sender set kept for a candidate is the largest that any
    72-hour window of the receiver's incoming transactions holds: no
    window start [t0] gives more unique senders. *)
Theorem candidate_window_is_best transactions candidate t0 :
  candidate ∈ identifyAggregationCandidates transactions →
  (size (uniqueSendersWithin transactions (accountId candidate) t0)
   ≤ size (senders candidate))%nat.
Proof.
  intros (l & Hl & Hc)%candidate_entry.
  exact (group_window_bound _ _ _ _ t0 Hl Hc).
Qed.

Lemma candidate_window_is_best_witness :
  (size (uniqueSendersWithin fanInTxs (accountId fanInCandidate) (5 * hour))
   ≤ size (senders fanInCandidate))%nat.
Proof.
  apply (candidate_window_is_best fanInTxs fanInCandidate (5 * hour)).
  rewrite fanInCandidates_eq. apply list_elem_of_here.
Defined.

(** X2: phase 1 reports a receiver exactly when some 72-hour window of
    its incoming transactions holds at least three unique senders: the
    sliding-window scan misses no such receiver and invents none. *)
Theorem fan_in_detection_complete transactions receiver :
  hasFanInWindow transactions receiver
  ↔ ∃ candidate, candidate ∈ identifyAggregationCandidates transactions
                 ∧ accountId candidate = receiver.
Proof.
  split.
  - intros [t0 Hsz].
    assert (∃ tx, tx ∈ incomingWithin transactions receiver t0) as [tx Htx].
    { unfold uniqueSendersWithin in Hsz.
      destruct (incomingWithin transactions receiver t0) as [|tx R];
        [|exists tx; apply list_elem_of_here].
      change (list_to_set (sender_id <$> [])) with (sendersOf []) in Hsz.
      rewrite sendersOf_nil in Hsz.
      unfold MIN_UNIQUE_SENDERS in Hsz. lia. }
    apply list_elem_of_filter in Htx as [(Hr & _) Hin].
    destruct (groupByReceiver_complete _ _ Hin) as (l & Hl & _).
    rewrite Hr in Hl.
    pose proof (subseteq_size _ _ (incomingWithin_group _ _ _ t0 Hl)) as Hle.
    destruct (scan_beats_window l t0) as (s & bl & br & Hs & _); [lia|].
    destruct (candidateOf receiver l) as [c|] eqn:Hc.
    + exists c. split; [|by eapply candidateOf_accountId].
      unfold identifyAggregationCandidates. apply list_elem_of_omap.
      by exists (receiver, l).
    + unfold candidateOf in Hc. by rewrite Hs in Hc.
  - intros (c & Hc & <-). by apply candidate_hasFanInWindow.
Qed.

Lemma sumQ_snoc {A} (f : A → Q) l x : sumQ f (l ++ [x]) = (sumQ f l + f x)%Q.
Proof. unfold sumQ. by rewrite foldl_app. Qed.

Lemma window_senders_filter (sorted : list RawTransaction) bl br :
  filter (λ tx, sender_id tx ∈ sendersOf (window sorted bl br))
         (window sorted bl br)
  = window sorted bl br.
Proof.
  generalize (window sorted bl br). intros w.
  assert (H : ∀ (S : gset string) (l : list RawTransaction),
            (∀ x, x ∈ l → sender_id x ∈ S) →
            filter (λ tx, sender_id tx ∈ S) l = l).
  { intros S l. induction l as [|x l IH]; intros Hall; [done|].
    rewrite filter_cons, decide_True by (apply Hall, list_elem_of_here).
    f_equal. apply IH. intros y Hy. by apply Hall, list_elem_of_further. }
  apply H. intros x Hx. apply elem_of_list_to_set, list_elem_of_fmap. eauto.
Qed.

Lemma candidateOf_shape txs r l c :
  (∀ tx, tx ∈ l → tx ∈ txs ∧ receiver_id tx = r) →
  candidateOf r l = Some c →
  (MIN_UNIQUE_SENDERS ≤ size (senders c))%nat
  ∧ windowStart c <= windowEnd c
  ∧ windowEnd c - windowStart c <= FAN_IN_WINDOW_MS
  ∧ senders c ⊆ uniqueSendersWithin txs r (windowStart c)
  ∧ ((∀ tx, tx ∈ txs → (0 < amount tx)%Q) → (0 < totalReceived c)%Q).
Proof.
  intros Hl Hc.
  destruct (candidateOf_best _ _ _ Hc) as (bl & br & Hbest & -> & -> & ->).
  pose proof (sortAsc_ascending timestamp l) as Hasc.
  fold (sortByTime l) in Hasc.
  destruct (scanWindows_good (sortByTime l) _ _ _ Hbest)
    as ([Hbl Hbr] & Hw & Hs & Hsz).
  split; [done|].
  split; [apply timeAt_ascending; [done|lia]|]. split; [done|].
  destruct (lookup_lt_is_Some_2 (sortByTime l) bl) as [xl Hxl]; [lia|].
  destruct (lookup_lt_is_Some_2 (sortByTime l) br) as [xr Hxr]; [lia|].
  rewrite (timeAt_lookup _ _ _ Hxl), (timeAt_lookup _ _ _ Hxr) in Hw.
  rewrite (timeAt_lookup _ _ _ Hxl).
  assert (Hwin : ∀ x, x ∈ window (sortByTime l) bl br →
            x ∈ txs ∧ receiver_id x = r
            ∧ timestamp xl <= timestamp x <= timestamp xr).
  { intros x (i & [Hi1 Hi2] & Hi)%elem_of_window.
    pose proof (Hasc bl i xl x Hi1 Hxl Hi) as H1.
    pose proof (Hasc i br x xr Hi2 Hi Hxr) as H2.
    assert (x ∈ l) as Hxin.
    { apply (sortAsc_elem_of timestamp). eapply list_elem_of_lookup_2, Hi. }
    destruct (Hl x Hxin). done. }
  split.
  - rewrite Hs. intros sid Hsid.
    apply elem_of_list_to_set, list_elem_of_fmap in Hsid as (x & -> & Hx).
    apply elem_of_list_to_set, list_elem_of_fmap. exists x. split; [done|].
    destruct (Hwin x Hx) as (? & ? & ?).
    unfold incomingWithin. apply list_elem_of_filter. split; [|done].
    split_and!; [done|lia|lia].
  - intros Hpos. rewrite Hs. fold (sendersOf (window (sortByTime l) bl br)).
    rewrite window_senders_filter. apply sumF_pos.
    + intros Hnil. rewrite Hs, Hnil in Hsz.
      change (list_to_set (sender_id <$> [])) with (sendersOf []) in Hsz.
      rewrite sendersOf_nil in Hsz. unfold MIN_UNIQUE_SENDERS in Hsz. lia.
    + intros x Hx. apply Hpos. by destruct (Hwin x Hx).
Qed.

(** X3: every reported candidate has at least three senders, a window
    that starts no later than it ends and spans at most 72 hours, a sender
    set that is exactly the unique senders of the 72 hours from
    [windowStart], a positive [totalReceived] when every amount is
    positive, and is the only candidate of its receiver. *)
Theorem candidate_well_formed transactions candidate :
  candidate ∈ identifyAggregationCandidates transactions →
  (3 ≤ size (senders candidate))%nat
  ∧ windowStart candidate <= windowEnd candidate
  ∧ windowEnd candidate - windowStart candidate <= 72 * 60 * 60 * 1000
  ∧ senders candidate
    = uniqueSendersWithin transactions (accountId candidate)
        (windowStart candidate)
  ∧ ((∀ tx, tx ∈ transactions → (0 < amount tx)%Q) →
     (0 < totalReceived candidate)%Q)
  ∧ ∀ other, other ∈ identifyAggregationCandidates transactions →
             accountId other = accountId candidate → other = candidate.
Proof.
  intros Hc. pose proof Hc as (l & Hl & Hcand)%candidate_entry.
  destruct (groupByReceiver_grouped transactions) as [_ Hall].
  destruct (candidateOf_shape transactions (accountId candidate) l candidate)
    as (H3 & Hle & Hw & Hsub & Hpos); [by intros tx; apply Hall|done|].
  split; [done|]. split; [done|]. split; [done|]. split; [|split; [done|]].
  - apply leibniz_equiv. apply set_subseteq_size_equiv; [done|].
    exact (group_window_bound _ _ _ _ _ Hl Hcand).
  - intros other Ho Hid.
    pose proof Ho as (l' & Hl' & Hcand')%candidate_entry.
    rewrite Hid in Hl', Hcand'.
    rewrite (group_entry_unique _ _ _ _ Hl' Hl) in Hcand'. congruence.
Qed.

Lemma candidate_well_formed_witness :
  (3 ≤ size (senders fanInCandidate))%nat
  ∧ windowStart fanInCandidate <= windowEnd fanInCandidate
  ∧ windowEnd fanInCandidate - windowStart fanInCandidate
    <= 72 * 60 * 60 * 1000
  ∧ senders fanInCandidate
    = uniqueSendersWithin fanInTxs (accountId fanInCandidate)
        (windowStart fanInCandidate)
  ∧ ((∀ tx, tx ∈ fanInTxs → (0 < amount tx)%Q) →
     (0 < totalReceived fanInCandidate)%Q)
  ∧ ∀ other, other ∈ identifyAggregationCandidates fanInTxs →
             accountId other = accountId fanInCandidate →
             other = fanInCandidate.
Proof.
  apply (candidate_well_formed fanInTxs fanInCandidate).
  rewrite fanInCandidates_eq. apply list_elem_of_here.
Defined.

(** ** Exact sums *)

Lemma sumQ_from {A} (f : A → Q) a l :
  (foldl (λ s x, s + f x) a l == a + sumQ f l)%Q.
Proof.
  induction l as [|x l IH] using rev_ind.
  - unfold sumQ. simpl. lra.
  - rewrite sumQ_snoc, foldl_app. simpl. rewrite IH. lra.
Qed.

Lemma sumQ_cons {A} (f : A → Q) x l : (sumQ f (x :: l) == f x + sumQ f l)%Q.
Proof. unfold sumQ at 1. simpl. rewrite sumQ_from. lra. Qed.

(** ** Phase 2: what a run changes, and what each recorded check means *)

Lemma classifyAccount_fanInFrame checks a :
  fanInFrame a (classifyAccount checks a).
Proof.
  unfold classifyAccount, fanInFrame. cbv zeta.
  destruct (bool_decide (0 < length checks)%nat); cbn;
    case_bool_decide; cbn; split_and!; try done; eauto.
Qed.

Lemma fanInFrame_refl a : fanInFrame a a.
Proof.
  unfold fanInFrame. split_and!; try done; [by left|].
  exists "". by rewrite string_app_nil_r.
Qed.

(** X5: the fan-in run keeps the number and the order of the accounts,
    never changes [account_id], [suspicion_score], [is_suspicious],
    [detected_patterns] or [total_transactions], leaves
    [triggered_algorithms] alone or appends its own name where it was
    absent, and only appends to [explanation]. *)
Theorem fan_in_touches_own_fields_only accounts transactions graph cycles
    shellChains fanOutMap :
  Forall2 fanInFrame accounts
    (validateFanInTwoPhase accounts transactions graph cycles shellChains
       fanOutMap).
Proof.
  rewrite validate_unfold. set (lk := buildLookups _ _ _ _ _ _).
  set (cs := identifyAggregationCandidates transactions).
  pose proof (buildAccountMap_sound accounts) as Hs.
  apply Forall2_same_length_lookup. split.
  { apply (Forall2_length _ _ _ (run_framed lk cs accounts)). }
  intros i a b Ha Hb.
  destruct (decide (Exists (λ c, lk_accountMap lk !! accountId c = Some i) cs))
    as [Hex|Hno].
  - apply Exists_exists in Hex as (c & Hc & Hi).
    rewrite (run_classified lk cs accounts c i) in Hb;
      [|apply candidates_NoDup|done|done|done].
    rewrite Ha in Hb. injection Hb as <-. apply classifyAccount_fanInFrame.
  - rewrite run_untouched in Hb.
    + rewrite Ha in Hb. injection Hb as <-. apply fanInFrame_refl.
    + intros c Hc Hi. apply Hno, Exists_exists. eauto.
Qed.

(** [cycleNodes] and [shellNodes] hold exactly the members of the lists. *)
Lemma collectNodes_elem lists n : n ∈ collectNodes lists ↔ inSome lists n.
Proof.
  unfold collectNodes, inSome.
  assert (Hin : ∀ (l : list string) (s : gset string),
            n ∈ foldl (λ s n, {[n]} ∪ s) s l ↔ n ∈ s ∨ n ∈ l).
  { induction l as [|x l IH]; intros s; simpl.
    - split; [by left|]. intros [?|H]; [done|by apply elem_of_nil in H].
    - rewrite IH, elem_of_union, elem_of_singleton, elem_of_cons. tauto. }
  assert (Hout : ∀ (ls : list (list string)) (s : gset string),
            n ∈ foldl (λ s l, foldl (λ s n, {[n]} ∪ s) s l) s ls
            ↔ n ∈ s ∨ ∃ l, l ∈ ls ∧ n ∈ l).
  { induction ls as [|l ls IH]; intros s; simpl.
    - split; [by left|]. intros [?|(l & H & _)]; [done|].
      by apply elem_of_nil in H.
    - rewrite IH, Hin. split.
      + intros [[?|?]|(l' & ? & ?)]; [by left|right..].
        * exists l. split; [apply list_elem_of_here|done].
        * exists l'. split; [by apply list_elem_of_further|done].
      + intros [?|(l' & [->|?]%elem_of_cons & ?)]; [by left; left| |].
        * left. by right.
        * right. by exists l'. }
  rewrite Hout. split; [|by right].
  intros [H|?]; [|done]. by apply elem_of_empty in H.
Qed.

Lemma checkCycleParticipation_true cid (cycleNodes : gset string) graph :
  checkCycleParticipation cid cycleNodes graph = true
  ↔ cid ∈ cycleNodes
    ∨ ∃ out n txs, graph !! cid = Some out ∧ out !! n = Some txs
                   ∧ n ∈ cycleNodes.
Proof.
  unfold checkCycleParticipation. case_bool_decide as Hc.
  { split; [by left|done]. }
  destruct (graph !! cid) as [out|].
  - rewrite existsb_map_to_list. split.
    + intros (n & txs & Hn & Hin%bool_decide_eq_true). right. by exists out, n, txs.
    + intros [?|(out' & n & txs & [= <-] & Hn & Hin)]; [done|].
      exists n, txs. split; [done|]. by apply bool_decide_eq_true.
  - split; [done|]. intros [?|(out' & n & txs & [=] & _)]. done.
Qed.

Lemma checkRoleConflict_true cid (shellNodes fanOutNodes cycleNodes : gset string) :
  checkRoleConflict cid shellNodes fanOutNodes cycleNodes = true
  ↔ cid ∈ shellNodes ∨ cid ∈ fanOutNodes ∨ cid ∈ cycleNodes.
Proof.
  unfold checkRoleConflict. repeat case_bool_decide; try tauto.
  split; [done|]. intros [?|[?|?]]; done.
Qed.

Lemma busyCandidates_eq :
  identifyAggregationCandidates busyTxs = [fanInCandidate].
Proof. vm_compute. reflexivity. Qed.

Lemma checkRapidLayeredOutflow_true candidate transactions :
  checkRapidLayeredOutflow (accountId candidate) candidate transactions = true
  ↔ outflowOf transactions candidate ≠ []
    ∧ (fmul (totalReceived candidate) (1 # 2)
       <= sumF amount (sortByTime (outflowOf transactions candidate)))%Q.
Proof.
  unfold checkRapidLayeredOutflow. cbv zeta.
  assert (filter (λ tx, sender_id tx = accountId candidate
                        ∧ timestamp tx >= windowStart candidate
                        ∧ timestamp tx <= windowEnd candidate
                                         + RAPID_OUTFLOW_WINDOW_MS)
                 transactions
          = outflowOf transactions candidate) as ->.
  { unfold outflowOf. apply list_filter_iff. intros tx.
    unfold RAPID_OUTFLOW_WINDOW_MS.
    split; intros (? & ? & ?); split_and!; first [done|lia]. }
  assert (RAPID_OUTFLOW_RATIO = 1 # 2) as -> by (by vm_compute).
  generalize (outflowOf transactions candidate). intros out.
  case_bool_decide as Hlen.
  { split; [done|]. intros [Hne _]. by destruct out. }
  unfold Qge_bool. rewrite Qle_bool_iff.
  split; [|by intros [_ ?]]. intros ?. split; [|done].
  intros ->. by apply Hlen.
Qed.

Lemma elem_of_optional (b : bool) (name x : string) :
  x ∈ (if b then [name] else []) ↔ b = true ∧ x = name.
Proof.
  destruct b.
  - rewrite list_elem_of_singleton. tauto.
  - split; [intros H; by apply elem_of_nil in H|by intros [? _]].
Qed.

Lemma triggeredChecksOf_spec lk store c :
  sublist (triggeredChecksOf lk store c) CHECK_NAMES
  ∧ ("shell_chain_involvement" ∈ triggeredChecksOf lk store c
     ↔ checkShellChainInvolvement (accountId c) (totalReceived c)
         (lk_graph lk) (lk_accountMap lk) store = true)
  ∧ ("cycle_ring_participation" ∈ triggeredChecksOf lk store c
     ↔ checkCycleParticipation (accountId c) (lk_cycleNodes lk) (lk_graph lk)
       = true)
  ∧ ("rapid_layered_outflow" ∈ triggeredChecksOf lk store c
     ↔ checkRapidLayeredOutflow (accountId c) c (lk_transactions lk) = true)
  ∧ ("role_conflict" ∈ triggeredChecksOf lk store c
     ↔ checkRoleConflict (accountId c) (lk_shellNodes lk) (lk_fanOutNodes lk)
         (lk_cycleNodes lk) = true).
Proof.
  unfold triggeredChecksOf, CHECK_NAMES.
  generalize (checkShellChainInvolvement (accountId c) (totalReceived c)
                (lk_graph lk) (lk_accountMap lk) store).
  generalize (checkCycleParticipation (accountId c) (lk_cycleNodes lk)
                (lk_graph lk)).
  generalize (checkRapidLayeredOutflow (accountId c) c (lk_transactions lk)).
  generalize (checkRoleConflict (accountId c) (lk_shellNodes lk)
                (lk_fanOutNodes lk) (lk_cycleNodes lk)).
  intros b4 b3 b2 b1. split.
  - destruct b1, b2, b3, b4; cbn;
      repeat first [apply sublist_nil | apply sublist_skip | apply sublist_cons].
  - rewrite !elem_of_app, !elem_of_optional.
    split_and!; (split; [intros [[? ?]|[[? ?]|[[? ?]|[? ?]]]]; done || discriminate|]);
      intros ->; auto 6.
Qed.

Lemma validate_classified accounts transactions graph cycles shellChains
    fanOutMap candidate i :
  candidate ∈ identifyAggregationCandidates transactions →
  buildAccountMap accounts !! accountId candidate = Some i →
  validateFanInTwoPhase accounts transactions graph cycles shellChains
    fanOutMap !! i
  = classifyAccount
      (triggeredChecksOf
         (buildLookups accounts transactions graph cycles shellChains
            fanOutMap) accounts candidate) <$> accounts !! i.
Proof.
  intros Hc Hi. rewrite validate_unfold.
  apply run_classified; [apply candidates_NoDup| |done|done].
  apply buildAccountMap_sound.
Qed.

Lemma validate_recorded accounts transactions graph cycles shellChains
    fanOutMap candidate i account :
  candidate ∈ identifyAggregationCandidates transactions →
  buildAccountMap accounts !! accountId candidate = Some i →
  validateFanInTwoPhase accounts transactions graph cycles shellChains
    fanOutMap !! i = Some account →
  recordedChecks account
  = triggeredChecksOf
      (buildLookups accounts transactions graph cycles shellChains fanOutMap)
      accounts candidate.
Proof.
  intros Hc Hi Ha. rewrite (validate_classified _ _ _ _ _ _ _ _ Hc Hi) in Ha.
  destruct (accounts !! i) as [a|]; [|done]. injection Ha as <-.
  unfold recordedChecks. by rewrite classifyAccount_checks.
Qed.

(** X6: the checks recorded on a classified account come in the fixed
    order shell chain, cycle, rapid outflow, role conflict, each at most
    once, so there are at most four. *)
Theorem recorded_checks_in_order accounts transactions graph cycles
    shellChains fanOutMap candidate i account :
  candidate ∈ identifyAggregationCandidates transactions →
  buildAccountMap accounts !! accountId candidate = Some i →
  validateFanInTwoPhase accounts transactions graph cycles shellChains
    fanOutMap !! i = Some account →
  sublist (recordedChecks account) CHECK_NAMES
  ∧ NoDup (recordedChecks account)
  ∧ (length (recordedChecks account) ≤ 4)%nat.
Proof.
  intros Hc Hi Ha. rewrite (validate_recorded _ _ _ _ _ _ _ _ _ Hc Hi Ha).
  destruct (triggeredChecksOf_spec
              (buildLookups accounts transactions graph cycles shellChains
                 fanOutMap) accounts candidate) as [Hsub _].
  split; [done|]. split.
  - eapply sublist_NoDup; [|exact Hsub]. unfold CHECK_NAMES.
    apply (bool_decide_unpack _). by vm_compute.
  - apply (sublist_length _ _ Hsub).
Qed.

Lemma recorded_checks_in_order_witness :
  sublist (recordedChecks busyClassified) CHECK_NAMES
  ∧ NoDup (recordedChecks busyClassified)
  ∧ (length (recordedChecks busyClassified) ≤ 4)%nat.
Proof.
  apply (recorded_checks_in_order fanInAccounts busyTxs shellGraph busyCycles
           [] ∅ fanInCandidate 0 busyClassified).
  - rewrite busyCandidates_eq. apply list_elem_of_here.
  - vm_compute. reflexivity.
  - vm_compute. reflexivity.
Defined.

(** X7: [cycle_ring_participation] is recorded exactly when the candidate
    is on one of the cycles, or one of its outgoing neighbours in the
    graph is. *)
Theorem cycle_check_recorded_iff accounts transactions graph cycles
    shellChains fanOutMap candidate i account :
  candidate ∈ identifyAggregationCandidates transactions →
  buildAccountMap accounts !! accountId candidate = Some i →
  validateFanInTwoPhase accounts transactions graph cycles shellChains
    fanOutMap !! i = Some account →
  "cycle_ring_participation" ∈ recordedChecks account
  ↔ inSome cycles (accountId candidate)
    ∨ ∃ outNeighbors neighborId txs,
        graph !! accountId candidate = Some outNeighbors
        ∧ outNeighbors !! neighborId = Some txs
        ∧ inSome cycles neighborId.
Proof.
  intros Hc Hi Ha. rewrite (validate_recorded _ _ _ _ _ _ _ _ _ Hc Hi Ha).
  destruct (triggeredChecksOf_spec
              (buildLookups accounts transactions graph cycles shellChains
                 fanOutMap) accounts candidate) as (_ & _ & -> & _).
  cbn [buildLookups lk_cycleNodes lk_graph].
  rewrite checkCycleParticipation_true, collectNodes_elem.
  by setoid_rewrite collectNodes_elem.
Qed.

Lemma cycle_check_recorded_iff_witness :
  "cycle_ring_participation" ∈ recordedChecks busyClassified
  ↔ inSome busyCycles (accountId fanInCandidate)
    ∨ ∃ outNeighbors neighborId txs,
        shellGraph !! accountId fanInCandidate = Some outNeighbors
        ∧ outNeighbors !! neighborId = Some txs
        ∧ inSome busyCycles neighborId.
Proof.
  apply (cycle_check_recorded_iff fanInAccounts busyTxs shellGraph busyCycles
           [] ∅ fanInCandidate 0 busyClassified).
  - rewrite busyCandidates_eq. apply list_elem_of_here.
  - vm_compute. reflexivity.
  - vm_compute. reflexivity.
Defined.

(** X8: [role_conflict] is recorded exactly when the candidate is on a
    shell chain, is a key of [fanOutMap], or is on a cycle. *)
Theorem role_conflict_recorded_iff accounts transactions graph cycles
    shellChains fanOutMap candidate i account :
  candidate ∈ identifyAggregationCandidates transactions →
  buildAccountMap accounts !! accountId candidate = Some i →
  validateFanInTwoPhase accounts transactions graph cycles shellChains
    fanOutMap !! i = Some account →
  "role_conflict" ∈ recordedChecks account
  ↔ inSome shellChains (accountId candidate)
    ∨ is_Some (fanOutMap !! accountId candidate)
    ∨ inSome cycles (accountId candidate).
Proof.
  intros Hc Hi Ha. rewrite (validate_recorded _ _ _ _ _ _ _ _ _ Hc Hi Ha).
  destruct (triggeredChecksOf_spec
              (buildLookups accounts transactions graph cycles shellChains
                 fanOutMap) accounts candidate) as (_ & _ & _ & _ & ->).
  cbn [buildLookups lk_cycleNodes lk_shellNodes lk_fanOutNodes].
  by rewrite checkRoleConflict_true, !collectNodes_elem, elem_of_dom.
Qed.

Lemma role_conflict_recorded_iff_witness :
  "role_conflict" ∈ recordedChecks busyClassified
  ↔ inSome [] (accountId fanInCandidate)
    ∨ is_Some ((∅ : gmap string (gset string)) !! accountId fanInCandidate)
    ∨ inSome busyCycles (accountId fanInCandidate).
Proof.
  apply (role_conflict_recorded_iff fanInAccounts busyTxs shellGraph
           busyCycles [] ∅ fanInCandidate 0 busyClassified).
  - rewrite busyCandidates_eq. apply list_elem_of_here.
  - vm_compute. reflexivity.
  - vm_compute. reflexivity.
Defined.

(** X9: [rapid_layered_outflow] is recorded exactly when the candidate
    sent something between [windowStart] and 24 hours after [windowEnd]
    and the amounts of those transfers, added up in double precision in
    the order of their timestamps (batch order among equal timestamps),
    reach [totalReceived * 0.5] as the code computes it. *)
Theorem rapid_outflow_recorded_iff accounts transactions graph cycles
    shellChains fanOutMap candidate i account :
  candidate ∈ identifyAggregationCandidates transactions →
  buildAccountMap accounts !! accountId candidate = Some i →
  validateFanInTwoPhase accounts transactions graph cycles shellChains
    fanOutMap !! i = Some account →
  "rapid_layered_outflow" ∈ recordedChecks account
  ↔ outflowOf transactions candidate ≠ []
    ∧ (fmul (totalReceived candidate) (1 # 2)
       <= sumF amount (sortByTime (outflowOf transactions candidate)))%Q.
Proof.
  intros Hc Hi Ha. rewrite (validate_recorded _ _ _ _ _ _ _ _ _ Hc Hi Ha).
  destruct (triggeredChecksOf_spec
              (buildLookups accounts transactions graph cycles shellChains
                 fanOutMap) accounts candidate) as (_ & _ & _ & -> & _).
  cbn [buildLookups lk_transactions].
  apply checkRapidLayeredOutflow_true.
Qed.

Lemma rapid_outflow_recorded_iff_witness :
  "rapid_layered_outflow" ∈ recordedChecks busyClassified
  ↔ outflowOf busyTxs fanInCandidate ≠ []
    ∧ (fmul (totalReceived fanInCandidate) (1 # 2)
       <= sumF amount (sortByTime (outflowOf busyTxs fanInCandidate)))%Q.
Proof.
  apply (rapid_outflow_recorded_iff fanInAccounts busyTxs shellGraph
           busyCycles [] ∅ fanInCandidate 0 busyClassified).
  - rewrite busyCandidates_eq. apply list_elem_of_here.
  - vm_compute. reflexivity.
  - vm_compute. reflexivity.
Defined.

(** X10: [shell_chain_involvement] is recorded exactly when some outgoing
    neighbour of the candidate is an account with at most 3 transactions
    that got from it amounts which, added up in double precision, reach
    the bound the code computes from the candidate's [totalReceived],
    [(totalReceived * (1 - 0.2)) * 0.5], and has an outgoing neighbour
    other than the candidate; the accounts are read as they were when the
    run began. *)
Theorem shell_chain_recorded_iff accounts transactions graph cycles
    shellChains fanOutMap candidate i account :
  candidate ∈ identifyAggregationCandidates transactions →
  buildAccountMap accounts !! accountId candidate = Some i →
  validateFanInTwoPhase accounts transactions graph cycles shellChains
    fanOutMap !! i = Some account →
  "shell_chain_involvement" ∈ recordedChecks account
  ↔ ∃ neighborId,
      shellNeighbor (sumF amount) (shellBound (totalReceived candidate))
        (accountId candidate) graph (buildAccountMap accounts) accounts
        neighborId.
Proof.
  intros Hc Hi Ha. rewrite (validate_recorded _ _ _ _ _ _ _ _ _ Hc Hi Ha).
  destruct (triggeredChecksOf_spec
              (buildLookups accounts transactions graph cycles shellChains
                 fanOutMap) accounts candidate) as (_ & -> & _).
  cbn [buildLookups lk_graph lk_accountMap].
  apply checkShellChainInvolvement_true.
Qed.

Lemma shell_chain_recorded_iff_witness :
  "shell_chain_involvement" ∈ recordedChecks busyClassified
  ↔ ∃ neighborId,
      shellNeighbor (sumF amount) (shellBound (totalReceived fanInCandidate))
        (accountId fanInCandidate) shellGraph (buildAccountMap fanInAccounts)
        fanInAccounts neighborId.
Proof.
  apply (shell_chain_recorded_iff fanInAccounts busyTxs shellGraph
           busyCycles [] ∅ fanInCandidate 0 busyClassified).
  - rewrite busyCandidates_eq. apply list_elem_of_here.
  - vm_compute. reflexivity.
  - vm_compute. reflexivity.
Defined.

(** X11: the account of a candidate gets one sentence appended to its
    [explanation]: the label of its class and either the recorded checks,
    joined by commas, or the remark that there is no corroboration. *)
Theorem classification_is_explained accounts transactions graph cycles
    shellChains fanOutMap candidate i account :
  candidate ∈ identifyAggregationCandidates transactions →
  buildAccountMap accounts !! accountId candidate = Some i →
  accounts !! i = Some account →
  ∃ account',
    validateFanInTwoPhase accounts transactions graph cycles shellChains
      fanOutMap !! i = Some account'
    ∧ explanation account'
      = explanation account +:+ ". Fan-In Validation: "
        +:+ (if bool_decide (recordedChecks account' = [])
             then "AGGREGATION CANDIDATE (unconfirmed)"
             else "CONFIRMED MONEY LAUNDERING")
        +:+ ". "
        +:+ (if bool_decide (recordedChecks account' = [])
             then "No corroboration evidence found"
             else "Corroboration: "
                  +:+ String.concat ", " (recordedChecks account')).
Proof.
  intros Hc Hi Ha. rewrite (validate_classified _ _ _ _ _ _ _ _ Hc Hi), Ha.
  eexists. split; [done|].
  unfold recordedChecks. rewrite classifyAccount_checks. cbn [default].
  generalize (triggeredChecksOf
                (buildLookups accounts transactions graph cycles shellChains
                   fanOutMap) accounts candidate).
  intros checks. unfold classifyAccount. cbv zeta.
  destruct checks as [|c checks]; cbn [length];
    repeat case_bool_decide; simplify_eq/=; try done; lia.
Qed.

Lemma classification_is_explained_witness :
  ∃ account',
    validateFanInTwoPhase fanInAccounts busyTxs shellGraph busyCycles []
      ∅ !! 0%nat = Some account'
    ∧ explanation account'
      = explanation (account0 "R" 40 4) +:+ ". Fan-In Validation: "
        +:+ (if bool_decide (recordedChecks account' = [])
             then "AGGREGATION CANDIDATE (unconfirmed)"
             else "CONFIRMED MONEY LAUNDERING")
        +:+ ". "
        +:+ (if bool_decide (recordedChecks account' = [])
             then "No corroboration evidence found"
             else "Corroboration: "
                  +:+ String.concat ", " (recordedChecks account')).
Proof.
  apply (classification_is_explained fanInAccounts busyTxs shellGraph
           busyCycles [] ∅ fanInCandidate 0 (account0 "R" 40 4)).
  - rewrite busyCandidates_eq. apply list_elem_of_here.
  - vm_compute. reflexivity.
  - reflexivity.
Defined.

(** ** Accounts that share an id, and small batches *)

Lemma buildAccountMap_snoc accounts a :
  buildAccountMap (accounts ++ [a])
  = <[account_id a := length accounts]> (buildAccountMap accounts).
Proof.
  unfold buildAccountMap. rewrite imap_app, foldl_app. cbn.
  by rewrite Nat.add_0_r.
Qed.

(** [accountMap] holds, for an id, the last account object with that id. *)
Lemma buildAccountMap_lookup accounts id i :
  buildAccountMap accounts !! id = Some i
  ↔ (∃ a, accounts !! i = Some a ∧ account_id a = id)
    ∧ ∀ j b, accounts !! j = Some b → account_id b = id → (j ≤ i)%nat.
Proof.
  revert i. induction accounts as [|a accounts IH] using rev_ind; intros i.
  - split; [done|]. intros [(a & Ha & _) _]. by rewrite lookup_nil in Ha.
  - rewrite buildAccountMap_snoc, lookup_insert. case_decide as Hid.
    + split.
      * intros [= <-]. split.
        -- exists a. split; [|done]. by rewrite list_lookup_middle.
        -- intros j b Hj _. apply lookup_lt_Some in Hj.
           rewrite length_app in Hj. simpl in Hj. lia.
      * intros [(a' & Ha' & _) Hlast]. f_equal.
        apply lookup_lt_Some in Ha'. rewrite length_app in Ha'. simpl in Ha'.
        pose proof (Hlast (length accounts) a
                      (list_lookup_middle _ _ _ _ eq_refl) Hid). lia.
    + rewrite IH. split.
      * intros [(a' & Ha' & Hid') Hlast]. split.
        -- exists a'. split; [|done]. by apply lookup_app_l_Some.
        -- intros j b Hj Hb.
           apply lookup_app_Some in Hj as [Hj|[_ Hj]]; [by eapply Hlast|].
           apply list_lookup_singleton_Some in Hj as [_ ->]. done.
      * intros [(a' & Ha' & Hid') Hlast]. split.
        -- exists a'. split; [|done].
           apply lookup_app_Some in Ha' as [Ha'|[_ Ha']]; [done|].
           apply list_lookup_singleton_Some in Ha' as [_ ->]. done.
        -- intros j b Hj Hb. eapply Hlast; [|done].
           by apply lookup_app_l_Some.
Qed.

(** X12: when two accounts carry the same id, the fan-in run leaves the
    earlier one exactly as it was: [accountMap] keeps the last account of
    an id. *)
Theorem duplicate_id_last_account_wins accounts transactions graph cycles
    shellChains fanOutMap i j a b :
  accounts !! i = Some a → accounts !! j = Some b →
  (i < j)%nat → account_id a = account_id b →
  validateFanInTwoPhase accounts transactions graph cycles shellChains
    fanOutMap !! i = Some a.
Proof.
  intros Ha Hb Hij Hid. rewrite validate_unfold, run_untouched; [done|].
  intros c _ Hi. cbn [buildLookups lk_accountMap] in Hi.
  apply buildAccountMap_lookup in Hi as [(a' & Ha' & Hid') Hlast].
  rewrite Ha in Ha'. injection Ha' as <-.
  pose proof (Hlast j b Hb ltac:(congruence)). lia.
Qed.

Lemma duplicate_id_last_account_wins_witness :
  validateFanInTwoPhase shadowedAccounts fanInTxs ∅ [] [] ∅ !! 0%nat
  = Some (account0 "R" 40 4).
Proof.
  apply (duplicate_id_last_account_wins shadowedAccounts fanInTxs ∅ [] [] ∅
           0 1 (account0 "R" 40 4) (account0 "R" 70 9));
    [reflexivity|reflexivity|lia|reflexivity].
Defined.

Lemma size_list_to_set_le (l : list string) :
  (size (list_to_set l : gset string) ≤ length l)%nat.
Proof.
  induction l as [|x l IH]; [done|].
  cbn [list_to_set length]. rewrite size_union_alt, size_singleton.
  pose proof (subseteq_size (list_to_set l ∖ {[x]}) (list_to_set l : gset string)
                ltac:(by apply subseteq_difference_l)). lia.
Qed.

Lemma small_batch_no_candidates transactions :
  (length transactions < 3)%nat →
  identifyAggregationCandidates transactions = [].
Proof.
  intros Hlen.
  destruct (identifyAggregationCandidates transactions) as [|c cs] eqn:Hcs;
    [done|]. exfalso.
  assert (hasFanInWindow transactions (accountId c)) as [t0 Hsz].
  { apply candidate_hasFanInWindow. rewrite Hcs. apply list_elem_of_here. }
  unfold uniqueSendersWithin in Hsz.
  pose proof (size_list_to_set_le
                (sender_id <$> incomingWithin transactions (accountId c) t0))
    as Hle.
  rewrite length_fmap in Hle. unfold incomingWithin in Hle.
  pose proof (length_filter
                (λ tx, receiver_id tx = accountId c ∧ t0 <= timestamp tx
                       ∧ timestamp tx <= t0 + FAN_IN_WINDOW_MS) transactions).
  unfold incomingWithin, MIN_UNIQUE_SENDERS in *. lia.
Qed.

(** ** Relationship intelligence: the pair map *)

Lemma string_app_cons c (s r : string) : String c s +:+ r = String c (s +:+ r).
Proof. reflexivity. Qed.

Lemma string_app_nil_l (r : string) : "" +:+ r = r.
Proof. reflexivity. Qed.

(** X13: two sender/receiver pairs with the same pair key are the same
    pair, provided neither sender id contains the separator [|]. *)
Theorem pair_key_distinguishes_pairs (s r s' r' : string) :
  occursIn "|"%char s = false → occursIn "|"%char s' = false →
  pairKey s r = pairKey s' r' → s = s' ∧ r = r'.
Proof.
  unfold pairKey. revert s'.
  induction s as [|c s IH]; intros [|c' s']; cbn [occursIn];
    rewrite ?string_app_cons, ?string_app_nil_l; intros Hs Hs' Heq.
  - by injection Heq as ->.
  - injection Heq as <- _. by rewrite bool_decide_eq_true_2 in Hs'.
  - injection Heq as -> _. by rewrite bool_decide_eq_true_2 in Hs.
  - injection Heq as -> Heq.
    apply orb_false_iff in Hs as [_ Hs], Hs' as [_ Hs'].
    by destruct (IH s' Hs Hs' Heq) as [-> ->].
Qed.

Lemma pair_key_distinguishes_pairs_witness :
  "X" = "X" ∧ "Y" = "Y".
Proof.
  apply (pair_key_distinguishes_pairs "X" "Y" "X" "Y");
    [reflexivity|reflexivity|reflexivity].
Defined.

Lemma pairMap_add_keys k tx m :
  (pairMap_add k tx m).*1
  = if bool_decide (k ∈ m.*1) then m.*1 else m.*1 ++ [k].
Proof.
  induction m as [|[k' st] m IH]; [done|].
  cbn [pairMap_add]. destruct (decide (k' = k)) as [->|Hne].
  - rewrite bool_decide_eq_true_2 by done.
    rewrite bool_decide_eq_true_2
      by (rewrite fmap_cons; apply list_elem_of_here). done.
  - rewrite bool_decide_eq_false_2 by done. rewrite !fmap_cons, IH. simpl.
    destruct (decide (k ∈ m.*1)) as [Hin|Hnin].
    + rewrite !bool_decide_eq_true_2; [done| |done].
      by apply list_elem_of_further.
    + rewrite !bool_decide_eq_false_2; [done| |done].
      rewrite elem_of_cons. intros [?|?]; [congruence|done].
Qed.

Lemma pairMap_add_NoDup k tx m : NoDup m.*1 → NoDup (pairMap_add k tx m).*1.
Proof.
  intros Hnd. rewrite pairMap_add_keys. case_bool_decide as Hk; [done|].
  apply NoDup_app. split_and!; [done| |apply NoDup_singleton].
  intros x Hx Hx'. apply list_elem_of_singleton in Hx'. by subst.
Qed.

Lemma pairMap_add_entries k tx m k' st :
  NoDup m.*1 → (k', st) ∈ pairMap_add k tx m →
  ((k', st) ∈ m ∧ k' ≠ k)
  ∨ (k' = k
     ∧ ((∃ st0, (k, st0) ∈ m
                ∧ st = mkPair (sender st0) (receiver st0)
                         (amounts st0 ++ [amount tx])
                         (timestamps st0 ++ [timestamp tx]) (spanMs st0))
        ∨ ((k ∉ m.*1)
           ∧ st = mkPair (sender_id tx) (receiver_id tx) [amount tx]
                    [timestamp tx] 0))).
Proof.
  induction m as [|[k0 st0] m IH]; cbn [pairMap_add]; intros Hnd Hin.
  - apply list_elem_of_singleton in Hin. injection Hin as -> ->.
    right. split; [done|]. right. split; [|done]. apply not_elem_of_nil.
  - rewrite fmap_cons in Hnd. apply NoDup_cons in Hnd as [Hk0 Hnd].
    cbn [fst] in Hk0. destruct (decide (k0 = k)) as [->|Hne].
    + rewrite bool_decide_eq_true_2 in Hin by done.
      apply elem_of_cons in Hin as [Heq|Hin].
      * injection Heq as -> ->. right. split; [done|]. left.
        exists st0. split; [apply list_elem_of_here|done].
      * left. split; [by apply list_elem_of_further|].
        intros ->. apply Hk0, list_elem_of_fmap. by exists (k, st).
    + rewrite bool_decide_eq_false_2 in Hin by done.
      apply elem_of_cons in Hin as [Heq|Hin].
      * injection Heq as -> ->. left. split; [apply list_elem_of_here|done].
      * destruct (IH Hnd Hin) as [[? ?]|(-> & [(st1 & ? & ->)|[? ->]])].
        -- left. split; [by apply list_elem_of_further|done].
        -- right. split; [done|]. left. exists st1.
           split; [by apply list_elem_of_further|done].
        -- right. split; [done|]. right. split; [|done].
           rewrite fmap_cons, not_elem_of_cons. split; [cbn; congruence|done].
Qed.

Lemma txsOfKey_snoc txs x k :
  txsOfKey (txs ++ [x]) k
  = txsOfKey txs k ++ (if decide (keyOf x = k) then [x] else []).
Proof.
  unfold txsOfKey. by rewrite filter_app.
Qed.

Lemma groupByPair_pairs txs : pairsFrom txs (groupByPair txs).
Proof.
  unfold groupByPair. apply (foldl_invariant (λ m l, pairsFrom l m)).
  - split; [constructor|]. split.
    + intros k st Hin. by apply elem_of_nil in Hin.
    + intros tx Hin. by apply elem_of_nil in Hin.
  - intros m l x (Hnd & Hall & Hkeys). fold (keyOf x).
    split; [by apply pairMap_add_NoDup|]. split.
    + intros k st Hin. rewrite txsOfKey_snoc.
      destruct (pairMap_add_entries _ _ _ _ _ Hnd Hin)
        as [[Hin' Hne]|(-> & [(st0 & Hin' & ->)|[Hnew ->]])].
      * destruct (Hall _ _ Hin') as (? & ? & ? & ?).
        rewrite decide_False by done. by rewrite app_nil_r.
      * destruct (Hall _ _ Hin') as ((tx & Hhd & ? & ?) & Ha & Ht & ?).
        rewrite decide_True by done. cbn. rewrite !fmap_app, Ha, Ht.
        split; [|done]. exists tx.
        destruct (txsOfKey l (keyOf x)); [done|]. done.
      * rewrite decide_True by done. cbn.
        assert (txsOfKey l (keyOf x) = []) as ->;
          [|split; [by exists x|done]].
        destruct (txsOfKey l (keyOf x)) as [|tx rest] eqn:Hf; [done|].
        assert (tx ∈ txsOfKey l (keyOf x)) as [Hk Htx]%list_elem_of_filter
          by (rewrite Hf; apply list_elem_of_here).
        exfalso. apply Hnew. rewrite <- Hk. by apply Hkeys.
    + intros tx Htx. rewrite pairMap_add_keys.
      apply elem_of_app in Htx as [Htx|Htx%list_elem_of_singleton].
      * case_bool_decide; [by apply Hkeys|].
        apply elem_of_app. left. by apply Hkeys.
      * subst. case_bool_decide; [done|].
        apply elem_of_app. right. apply list_elem_of_here.
Qed.

Lemma List_last_lookup (ts : list Z) d :
  ts ≠ [] → ts !! (length ts - 1)%nat = Some (List.last ts d).
Proof.
  induction ts as [|t ts IH] using rev_ind; [done|]. intros _.
  rewrite List.last_last, length_app. cbn [length].
  replace (length ts + 1 - 1)%nat with (length ts) by lia.
  by rewrite list_lookup_middle.
Qed.

(** In an ascending list the first and last entries bound every entry. *)
Lemma ascending_span (ts : list Z) t :
  ascending id ts → t ∈ ts →
  hd 0 ts <= t <= List.last ts 0 ∧ hd 0 ts ∈ ts ∧ List.last ts 0 ∈ ts.
Proof.
  intros Hasc Ht.
  assert (ts ≠ []) as Hne by (intros ->; by apply elem_of_nil in Ht).
  pose proof (List_last_lookup ts 0 Hne) as Hlast.
  assert (ts !! 0%nat = Some (hd 0 ts)) as Hhd by (by destruct ts).
  apply list_elem_of_lookup in Ht as [i Hi].
  pose proof (lookup_lt_Some _ _ _ Hi).
  split; [split|split].
  - apply (Hasc 0%nat i _ _ ltac:(lia) Hhd Hi).
  - apply (Hasc i (length ts - 1)%nat _ _ ltac:(lia) Hi Hlast).
  - by eapply list_elem_of_lookup_2.
  - by eapply list_elem_of_lookup_2.
Qed.

Lemma elem_of_qualifyingPairs txs pair :
  pair ∈ qualifyingPairs txs
  ↔ qualifies pair = true
    ∧ ∃ k st, (k, st) ∈ groupByPair txs ∧ pair = finishStats st.
Proof.
  unfold qualifyingPairs, buildPairMap.
  rewrite list_elem_of_In, filter_In, <- list_elem_of_In.
  rewrite list_elem_of_fmap. split.
  - intros [([k st'] & -> & Hin) Hq]. split; [done|].
    apply list_elem_of_fmap in Hin as ([k0 st] & [= -> ->] & Hin).
    by exists k0, st.
  - intros [Hq (k & st & Hin & ->)]. split; [|done].
    exists (k, finishStats st). split; [done|].
    apply list_elem_of_fmap. by exists (k, st).
Qed.

(** What the first two loops leave in an entry of [pairMap]. *)
Lemma finishStats_spec txs k st :
  (k, st) ∈ groupByPair txs →
  (∃ tx, head (txsOfKey txs k) = Some tx
         ∧ sender (finishStats st) = sender_id tx
         ∧ receiver (finishStats st) = receiver_id tx)
  ∧ amounts (finishStats st) = amount <$> txsOfKey txs k
  ∧ timestamps (finishStats st) ≡ₚ timestamp <$> txsOfKey txs k
  ∧ sortedBy id (timestamps (finishStats st))
  ∧ (∀ tx tx', tx ∈ txsOfKey txs k → tx' ∈ txsOfKey txs k →
       timestamp tx' - timestamp tx <= spanMs (finishStats st))
  ∧ ∃ tx tx', tx ∈ txsOfKey txs k ∧ tx' ∈ txsOfKey txs k
              ∧ spanMs (finishStats st) = timestamp tx' - timestamp tx.
Proof.
  intros Hin. destruct (groupByPair_pairs txs) as (_ & Hall & _).
  destruct (Hall _ _ Hin) as (Hfirst & Ha & Ht & _).
  unfold finishStats. cbn. rewrite Ht.
  set (own := txsOfKey txs k) in *.
  set (ts := sortAsc id (timestamp <$> own)).
  assert (ts ≡ₚ timestamp <$> own) as Hperm by apply sortAsc_perm.
  assert (ascending id ts) as Hasc by apply sortAsc_ascending.
  assert (∀ tx, tx ∈ own → timestamp tx ∈ ts) as Hts.
  { intros tx Htx. rewrite Hperm. apply list_elem_of_fmap. eauto. }
  split; [done|]. split; [done|]. split; [done|].
  split; [apply sortAsc_sorted|]. split.
  - intros tx tx' Htx Htx'.
    destruct (ascending_span ts _ Hasc (Hts _ Htx)) as [? _].
    destruct (ascending_span ts _ Hasc (Hts _ Htx')) as [? _]. lia.
  - destruct Hfirst as (tx0 & Hhd & _).
    assert (tx0 ∈ own) as H0 by (destruct own; simplify_eq/=; apply list_elem_of_here).
    destruct (ascending_span ts _ Hasc (Hts _ H0)) as (_ & Hlo & Hhi).
    assert (∀ t, t ∈ ts → t ∈ timestamp <$> own) as Hback
      by (intros t Ht'; by rewrite <- Hperm).
    apply Hback in Hlo, Hhi.
    apply list_elem_of_fmap in Hlo as (tx & Hlo & Htx).
    apply list_elem_of_fmap in Hhi as (tx' & Hhi & Htx').
    exists tx, tx'. split; [done|]. split; [done|]. by rewrite Hlo, Hhi.
Qed.

Lemma key_of_first k txs tx :
  head (txsOfKey txs k) = Some tx → pairKey (sender_id tx) (receiver_id tx) = k.
Proof.
  intros Hhd.
  assert (tx ∈ txsOfKey txs k) as [Hk _]%list_elem_of_filter; [|done].
  destruct (txsOfKey txs k); simplify_eq/=. apply list_elem_of_here.
Qed.

(** X14: a qualifying pair carries the sender and receiver of the first
    transaction filed under its key, the amounts of the transactions under
    that key in batch order, their timestamps in ascending order, at least
    three of them, and a span that is the largest distance in time
    between two of them and is at least 30 days. *)
Theorem qualifying_pair_statistics transactions pair :
  pair ∈ qualifyingPairs transactions →
  (∃ first,
     head (txsOfKey transactions (pairKey (sender pair) (receiver pair)))
     = Some first
     ∧ sender pair = sender_id first ∧ receiver pair = receiver_id first)
  ∧ amounts pair
    = amount <$> txsOfKey transactions (pairKey (sender pair) (receiver pair))
  ∧ timestamps pair
    ≡ₚ timestamp
       <$> txsOfKey transactions (pairKey (sender pair) (receiver pair))
  ∧ sortedBy id (timestamps pair)
  ∧ (3 ≤ length (txsOfKey transactions
                   (pairKey (sender pair) (receiver pair))))%nat
  ∧ (∀ tx tx',
       tx ∈ txsOfKey transactions (pairKey (sender pair) (receiver pair)) →
       tx' ∈ txsOfKey transactions (pairKey (sender pair) (receiver pair)) →
       timestamp tx' - timestamp tx <= spanMs pair)
  ∧ (∃ tx tx',
       tx ∈ txsOfKey transactions (pairKey (sender pair) (receiver pair))
       ∧ tx' ∈ txsOfKey transactions (pairKey (sender pair) (receiver pair))
       ∧ spanMs pair = timestamp tx' - timestamp tx)
  ∧ 30 * 24 * 60 * 60 * 1000 <= spanMs pair.
Proof.
  intros [Hq (k & st & Hin & ->)]%elem_of_qualifyingPairs.
  destruct (finishStats_spec _ _ _ Hin)
    as ((first & Hhd & Hs & Hr) & Ha & Ht & Hsorted & Hmax & Hatt).
  assert (pairKey (sender (finishStats st)) (receiver (finishStats st)) = k)
    as -> by (rewrite Hs, Hr; by eapply key_of_first).
  unfold qualifies in Hq. apply andb_true_iff in Hq as [Hn Hspan].
  apply bool_decide_eq_true in Hn, Hspan.
  rewrite Ha, length_fmap in Hn.
  unfold MIN_RECURRING_TX_COUNT, MIN_RECURRING_SPAN_MS in *.
  split; [by exists first|]. split_and!; try done. lia.
Qed.

Lemma qualifying_pair_statistics_witness :
  (∃ first,
     head (txsOfKey rentTxs (pairKey (sender rentPair) (receiver rentPair)))
     = Some first
     ∧ sender rentPair = sender_id first ∧ receiver rentPair = receiver_id first)
  ∧ amounts rentPair
    = amount <$> txsOfKey rentTxs (pairKey (sender rentPair) (receiver rentPair))
  ∧ timestamps rentPair
    ≡ₚ timestamp
       <$> txsOfKey rentTxs (pairKey (sender rentPair) (receiver rentPair))
  ∧ sortedBy id (timestamps rentPair)
  ∧ (3 ≤ length (txsOfKey rentTxs
                   (pairKey (sender rentPair) (receiver rentPair))))%nat
  ∧ (∀ tx tx',
       tx ∈ txsOfKey rentTxs (pairKey (sender rentPair) (receiver rentPair)) →
       tx' ∈ txsOfKey rentTxs (pairKey (sender rentPair) (receiver rentPair)) →
       timestamp tx' - timestamp tx <= spanMs rentPair)
  ∧ (∃ tx tx',
       tx ∈ txsOfKey rentTxs (pairKey (sender rentPair) (receiver rentPair))
       ∧ tx' ∈ txsOfKey rentTxs (pairKey (sender rentPair) (receiver rentPair))
       ∧ spanMs rentPair = timestamp tx' - timestamp tx)
  ∧ 30 * 24 * 60 * 60 * 1000 <= spanMs rentPair.
Proof.
  apply (qualifying_pair_statistics rentTxs rentPair).
  rewrite rentPairs_eq. apply list_elem_of_here.
Defined.

(** X15: a pair key with at least three transactions, two of them at
    least 30 days apart, always yields a qualifying pair. *)
Theorem recurring_pair_detected transactions tx tx' :
  tx ∈ transactions → tx' ∈ transactions → keyOf tx' = keyOf tx →
  (3 ≤ length (txsOfKey transactions (keyOf tx)))%nat →
  30 * 24 * 60 * 60 * 1000 <= timestamp tx' - timestamp tx →
  ∃ pair, pair ∈ qualifyingPairs transactions
          ∧ pairKey (sender pair) (receiver pair) = keyOf tx.
Proof.
  intros Htx Htx' Hk Hn Hspan.
  destruct (groupByPair_pairs transactions) as (_ & _ & Hkeys).
  pose proof (Hkeys tx Htx) as ([k st] & Heq & Hin)%list_elem_of_fmap.
  cbn in Heq. subst k.
  destruct (finishStats_spec _ _ _ Hin)
    as ((first & Hhd & Hs & Hr) & Ha & _ & _ & Hmax & _).
  exists (finishStats st). split.
  - apply elem_of_qualifyingPairs. split; [|by eauto].
    unfold qualifies. apply andb_true_iff.
    split; apply bool_decide_eq_true.
    + rewrite Ha, length_fmap. by unfold MIN_RECURRING_TX_COUNT.
    + unfold MIN_RECURRING_SPAN_MS.
      pose proof (Hmax tx tx') as Hle.
      assert (timestamp tx' - timestamp tx <= spanMs (finishStats st)); [|lia].
      apply Hle; apply list_elem_of_filter; by split.
  - rewrite Hs, Hr. by eapply key_of_first.
Qed.

Lemma recurring_pair_detected_witness :
  ∃ pair, pair ∈ qualifyingPairs rentTxs
          ∧ pairKey (sender pair) (receiver pair)
            = keyOf (mkTx "X" "Y" 1000 0).
Proof.
  apply (recurring_pair_detected rentTxs (mkTx "X" "Y" 1000 0)
           (mkTx "X" "Y" 1000 (30 * day))).
  - apply list_elem_of_here.
  - apply list_elem_of_further, list_elem_of_here.
  - reflexivity.
  - vm_compute. lia.
  - vm_compute. discriminate.
Defined.

(** ** Relationship intelligence: the per-account reductions *)

Lemma Math_round_upper (n : Z) (x : Q) :
  (x <= inject_Z n)%Q → Math_round x <= n.
Proof.
  intros Hx. unfold Math_round.
  pose proof (Qfloor_le (x + (1 # 2))) as Hfl.
  assert (inject_Z (Qfloor (x + (1 # 2))) < inject_Z (n + 1))%Q as Hlt.
  { rewrite inject_Z_plus. change (inject_Z 1) with 1%Q. lra. }
  rewrite <- Zlt_Qlt in Hlt. lia.
Qed.

Lemma duration_values pair :
  durationReduction pair = 0 ∨ durationReduction pair = 10
  ∨ durationReduction pair = 20.
Proof. unfold durationReduction. repeat case_bool_decide; auto. Qed.

Lemma lengthQ_pos {A} (l : list A) : l ≠ [] → (0 < lengthQ l)%Q.
Proof.
  intros Hne. unfold lengthQ. change 0%Q with (inject_Z 0).
  rewrite <- Zlt_Qlt. destruct l; [done|]. cbn [length]. lia.
Qed.

Lemma periodicity_values pair :
  periodicityReduction pair = 0 ∨ 10 <= periodicityReduction pair <= 20.
Proof.
  unfold periodicityReduction. cbv zeta.
  case_bool_decide as Hlen; [|by left].
  destruct (Qgt_bool _ 0); [|by left].
  set (gaps := gapsOf (timestamps pair)).
  set (lo := (_ * (1 - PERIODICITY_TOLERANCE))%Q).
  set (hi := (_ * (1 + PERIODICITY_TOLERANCE))%Q).
  set (matching := List.filter _ gaps).
  assert (length matching ≤ length gaps)%nat as Hle.
  { apply List.filter_length_le. }
  assert (gaps ≠ []) as Hne.
  { subst gaps. destruct (timestamps pair) as [|? [|? ?]]; simpl in *;
      [lia|lia|done]. }
  pose proof (lengthQ_pos gaps Hne) as Hpos.
  assert (inject_Z (Z.of_nat (length matching)) <= lengthQ gaps)%Q as HleQ.
  { unfold lengthQ. rewrite <- Zle_Qle. lia. }
  assert (inject_Z (Z.of_nat (length matching)) / lengthQ gaps <= 1)%Q as Hr1.
  { apply Qle_shift_div_r; [done|]. lra. }
  revert Hr1. generalize (inject_Z (Z.of_nat (length matching)) / lengthQ gaps)%Q.
  intros r Hr1.
  destruct (Qge_bool r PERIODICITY_MATCH_RATIO) eqn:Hr; [|by left].
  right. apply Qle_bool_iff in Hr. unfold PERIODICITY_MATCH_RATIO in *.
  assert ((r - (70 # 100)) / (1 - (70 # 100))
          == (r - (70 # 100)) * (10 # 3))%Q as Heq by field.
  split.
  - apply Math_round_lower. rewrite Heq. change (inject_Z 10) with 10%Q. lra.
  - apply Math_round_upper. rewrite Heq. change (inject_Z 20) with 20%Q. lra.
Qed.

Lemma consistency_upper sqrt pair :
  (∀ q, (0 <= sqrt q)%Q) → consistencyReduction sqrt pair <= 15.
Proof.
  intros Hsqrt. unfold consistencyReduction. cbv zeta.
  case_bool_decide; [|done].
  destruct (Qgt_bool _ 0) eqn:Hmean; [|done].
  unfold Qgt_bool in Hmean. apply negb_true_iff in Hmean.
  match type of Hmean with
  | Qle_bool ?m 0 = false =>
      assert (0 < m)%Q as Hpos
        by (apply Qnot_le_lt; intros Hle; apply Qle_bool_iff in Hle;
            congruence);
      revert Hpos; generalize m; intros mean Hpos
  end.
  match goal with
  | |- context [sqrt ?v] => pose proof (Hsqrt v) as Hs; revert Hs;
                            generalize (sqrt v); intros sd Hs
  end.
  destruct (Qlt_bool _ CV_THRESHOLD); [|done].
  apply Math_round_upper. unfold CV_THRESHOLD.
  assert (0 <= sd / mean)%Q as Hcv.
  { apply Qle_shift_div_l; [done|]. lra. }
  revert Hcv. generalize (sd / mean)%Q. intros cv Hcv.
  assert (cv / (20 # 100) == cv * 5)%Q as -> by field.
  change (inject_Z 15) with 15%Q. lra.
Qed.

Section BestOfPairs.
Context (Math_sqrt : Q → Q).

Lemma applyPair_lookup m pair id :
  applyPair Math_sqrt m pair !! id
  = if decide (involves pair id)
    then Some (mergeScores Math_sqrt (default zeroReduction (m !! id)) pair)
    else m !! id.
Proof.
  unfold applyPair. cbn [foldl]. rewrite !bestOf_lookup.
  unfold involves, mergeScores.
  repeat case_decide; simplify_eq; try (exfalso; tauto); try done.
  match goal with H : sender pair = receiver pair |- _ => rewrite <- H end.
  cbn. f_equal. f_equal; lia.
Qed.

Lemma bestOver_snoc_in score pairs pair id v :
  0 <= score pair → involves pair id →
  (v = 0 ∧ ∀ p, p ∈ pairs → ¬ involves p id) ∨ bestOver score pairs id v →
  bestOver score (pairs ++ [pair]) id (Z.max v (score pair)).
Proof.
  intros Hpos Hinv Hold. split.
  - intros p [Hp|Hp%list_elem_of_singleton]%elem_of_app Hpi; [|subst; lia].
    destruct Hold as [[_ Hnone]|[Hmax _]]; [by destruct (Hnone p Hp)|].
    pose proof (Hmax p Hp Hpi). lia.
  - destruct (Z.max_spec v (score pair)) as [[_ ->]|[Hlt ->]].
    + exists pair. split; [|done]. apply elem_of_app. right. apply list_elem_of_here.
    + destruct Hold as [[-> _]|[_ (p & Hp & Hpi & ->)]].
      * exists pair. split; [|split; [done|lia]].
        apply elem_of_app. right. apply list_elem_of_here.
      * exists p. split; [|done]. apply elem_of_app. by left.
Qed.

Lemma bestOver_snoc_out score pairs pair id v :
  ¬ involves pair id → bestOver score pairs id v →
  bestOver score (pairs ++ [pair]) id v.
Proof.
  intros Hno [Hmax (p & Hp & Hpi & ->)]. split.
  - intros q [Hq|Hq%list_elem_of_singleton]%elem_of_app Hqi;
      [by apply Hmax|by subst].
  - exists p. split; [|done]. apply elem_of_app. by left.
Qed.

Lemma foldl_applyPair_best pairs id :
  Forall (λ pair, (3 ≤ length (amounts pair))%nat) pairs →
  match foldl (applyPair Math_sqrt) ∅ pairs !! id with
  | None => ∀ p, p ∈ pairs → ¬ involves p id
  | Some r => bestEntry Math_sqrt pairs id r
  end.
Proof.
  induction pairs as [|pair pairs IH] using rev_ind; intros Hall.
  - cbn. rewrite lookup_empty. intros p Hp. by apply elem_of_nil in Hp.
  - apply Forall_app in Hall as [Hall Hp]. rewrite Forall_singleton in Hp.
    specialize (IH Hall). rewrite foldl_app. cbn [foldl].
    rewrite applyPair_lookup.
    destruct (decide (involves pair id)) as [Hinv|Hno].
    + pose proof (recurringReduction_bounds pair Hp).
      pose proof (durationReduction_nonneg pair).
      pose proof (consistencyReduction_nonneg Math_sqrt pair).
      pose proof (periodicityReduction_nonneg pair).
      destruct (foldl (applyPair Math_sqrt) ∅ pairs !! id) as [r|].
      * destruct IH as (? & ? & ? & ?).
        split_and!; cbn; apply bestOver_snoc_in; auto; lia.
      * split_and!; cbn; apply bestOver_snoc_in; auto; lia.
    + destruct (foldl (applyPair Math_sqrt) ∅ pairs !! id) as [r|].
      * destruct IH as (? & ? & ? & ?).
        split_and!; by apply bestOver_snoc_out.
      * intros p [Hp'|Hp'%list_elem_of_singleton]%elem_of_app;
          [by apply IH|by subst].
Qed.

Lemma buildReductions_best txs id :
  match buildReductions Math_sqrt txs !! id with
  | None => ∀ p, p ∈ qualifyingPairs txs → ¬ involves p id
  | Some r => bestEntry Math_sqrt (qualifyingPairs txs) id r
  end.
Proof.
  apply foldl_applyPair_best, Forall_forall, qualifyingPairs_length.
Qed.

End BestOfPairs.

Lemma Qgt_bool_iff x y : Qgt_bool x y = true ↔ (y < x)%Q.
Proof.
  unfold Qgt_bool. rewrite negb_true_iff, <- not_true_iff_false, Qle_bool_iff.
  split; [apply Qnot_le_lt|apply Qlt_not_le].
Qed.

Lemma lengthQ_cons {A} (x : A) l : (lengthQ (x :: l) == 1 + lengthQ l)%Q.
Proof.
  unfold lengthQ. cbn [length]. rewrite Nat2Z.inj_succ. unfold Z.succ.
  rewrite inject_Z_plus. change (inject_Z 1) with 1%Q. lra.
Qed.

Lemma sumQ_const {A} (f : A → Q) l c :
  Forall (λ x, f x == c)%Q l → (sumQ f l == lengthQ l * c)%Q.
Proof.
  induction 1 as [|x l Hx _ IH].
  - unfold sumQ, lengthQ. cbn. change (inject_Z 0) with 0%Q. ring.
  - rewrite sumQ_cons, lengthQ_cons, IH, Hx. lra.
Qed.

Lemma List_filter_all {A} (f : A → bool) l :
  Forall (λ x, f x = true) l → List.filter f l = l.
Proof.
  induction 1 as [|x l Hx _ IH]; [done|]. cbn. by rewrite Hx, IH.
Qed.

Lemma sqrtApprox_zero q : (q == 0)%Q → (sqrtApprox q == 0)%Q.
Proof.
  intros Hq. unfold Qeq in Hq. cbn in Hq. rewrite Z.mul_1_r in Hq.
  unfold sqrtApprox. rewrite Hq. reflexivity.
Qed.

Lemma consistency_of_equal_amounts sqrt pair a :
  (∀ q, q == 0 → sqrt q == 0)%Q → (0 < a)%Q →
  (2 ≤ length (amounts pair))%nat →
  Forall (λ x, x == a)%Q (amounts pair) →
  consistencyReduction sqrt pair = 15.
Proof.
  intros Hsqrt Ha Hlen Hall. unfold consistencyReduction. cbv zeta.
  rewrite bool_decide_eq_true_2 by done.
  assert (amounts pair ≠ []) as Hne by (intros E; rewrite E in Hlen; cbn in Hlen; lia).
  pose proof (lengthQ_pos (amounts pair) Hne) as Hn.
  set (mean := (sumQ id (amounts pair) / lengthQ (amounts pair))%Q).
  assert (mean == a)%Q as Hmean.
  { unfold mean. rewrite (sumQ_const id _ a) by done. field. lra. }
  set (variance := (sumQ (λ x, (x - mean) ^ 2) (amounts pair)
                    / lengthQ (amounts pair))%Q).
  assert (variance == 0)%Q as Hvar.
  { unfold variance. rewrite (sumQ_const _ _ 0); [field; lra|].
    eapply Forall_impl; [exact Hall|]. cbn beta. intros x Hx.
    rewrite Hx, Hmean. cbn. ring. }
  pose proof (Hsqrt variance Hvar) as Hsd.
  assert (sqrt variance / mean == 0)%Q as Hcv.
  { rewrite Hsd. unfold Qdiv. ring. }
  assert (Qgt_bool mean 0 = true) as ->
    by (apply Qgt_bool_iff; rewrite Hmean; done).
  assert (Qlt_bool (sqrt variance / mean) CV_THRESHOLD = true) as ->
    by (apply Qlt_bool_iff; rewrite Hcv; done).
  unfold Math_round. rewrite Hcv. by vm_compute.
Qed.

Lemma periodicity_of_equal_gaps pair g :
  0 < g → (3 ≤ length (timestamps pair))%nat →
  Forall (λ d, d = g) (gapsOf (timestamps pair)) →
  periodicityReduction pair = 20.
Proof.
  intros Hg Hlen Hall. unfold periodicityReduction. cbv zeta.
  rewrite bool_decide_eq_true_2 by done.
  assert (gapsOf (timestamps pair) ≠ []) as Hne.
  { destruct (timestamps pair) as [|? [|? ?]]; cbn in *; [lia|lia|done]. }
  revert Hall Hne. generalize (gapsOf (timestamps pair)). intros gaps Hall Hne.
  pose proof (lengthQ_pos gaps Hne) as Hn.
  assert (0 < inject_Z g)%Q as HgQ
    by (change 0%Q with (inject_Z 0); by rewrite <- Zlt_Qlt).
  set (avgGap := (sumQ inject_Z gaps / lengthQ gaps)%Q).
  assert (avgGap == inject_Z g)%Q as Havg.
  { unfold avgGap. rewrite (sumQ_const inject_Z _ (inject_Z g)).
    - field. lra.
    - eapply Forall_impl; [exact Hall|]. by intros x ->. }
  assert (Qgt_bool avgGap 0 = true) as ->
    by (apply Qgt_bool_iff; by rewrite Havg).
  rewrite List_filter_all.
  2: { eapply Forall_impl; [exact Hall|]. intros x ->. cbn beta.
       apply andb_true_iff. unfold Qge_bool, PERIODICITY_TOLERANCE.
       rewrite !Qle_bool_iff, Havg. split; lra. }
  fold (lengthQ gaps).
  assert (lengthQ gaps / lengthQ gaps == 1)%Q as Hratio by (field; lra).
  assert (Qge_bool (lengthQ gaps / lengthQ gaps) PERIODICITY_MATCH_RATIO
          = true) as ->.
  { unfold Qge_bool. apply Qle_bool_iff. rewrite Hratio. done. }
  unfold Math_round. rewrite Hratio. by vm_compute.
Qed.

(** X16: a pair with at least three equal positive amounts at equal
    positive intervals earns the maximal consistency score 15 and the
    maximal periodicity score 20, provided [Math.sqrt] maps zero to
    zero. *)
Theorem regular_payments_score_maximum sqrt pair a g :
  (∀ q, q == 0 → sqrt q == 0)%Q → (0 < a)%Q → 0 < g →
  (3 ≤ length (amounts pair))%nat → Forall (λ x, x == a)%Q (amounts pair) →
  (3 ≤ length (timestamps pair))%nat →
  Forall (λ d, d = g) (gapsOf (timestamps pair)) →
  consistencyReduction sqrt pair = 15 ∧ periodicityReduction pair = 20.
Proof.
  intros Hsqrt Ha Hg Hn Hall Hm Hgaps. split.
  - apply (consistency_of_equal_amounts sqrt pair a); [done|done|lia|done].
  - by apply (periodicity_of_equal_gaps pair g).
Qed.

Lemma regular_payments_score_maximum_witness :
  consistencyReduction sqrtApprox rentPair = 15
  ∧ periodicityReduction rentPair = 20.
Proof.
  apply (regular_payments_score_maximum sqrtApprox rentPair 1000 (30 * day)).
  - apply sqrtApprox_zero.
  - reflexivity.
  - reflexivity.
  - simpl. lia.
  - repeat constructor.
  - simpl. lia.
  - repeat constructor.
Defined.

(** ** Relationship intelligence: what a run changes *)

Lemma qualifyingPairs_small txs :
  (length txs < 3)%nat → qualifyingPairs txs = [].
Proof.
  intros Hlen. destruct (qualifyingPairs txs) as [|pair ps] eqn:Hq; [done|].
  exfalso.
  assert (pair ∈ qualifyingPairs txs) as Hin
    by (rewrite Hq; apply list_elem_of_here).
  pose proof (qualifyingPairs_length _ _ Hin) as H3.
  apply elem_of_qualifyingPairs in Hin as [_ (k & st & Hin & ->)].
  destruct (finishStats_spec _ _ _ Hin) as (_ & Ha & _).
  rewrite Ha, length_fmap in H3.
  pose proof (length_filter (λ tx, keyOf tx = k) txs).
  unfold txsOfKey in H3. lia.
Qed.

Section Dampening.
Context (Math_sqrt : Q → Q) (Number_toString : Q → string).

(** X17: each of the four scores of an account's entry is the largest
    score of that kind among the qualifying pairs the account takes part
    in, and some such pair attains it. *)
Theorem reduction_is_best_of_pairs transactions id r :
  buildReductions Math_sqrt transactions !! id = Some r →
  bestOver recurringReduction (qualifyingPairs transactions) id (recurring r)
  ∧ bestOver durationReduction (qualifyingPairs transactions) id (duration r)
  ∧ bestOver (consistencyReduction Math_sqrt) (qualifyingPairs transactions)
      id (consistency r)
  ∧ bestOver periodicityReduction (qualifyingPairs transactions) id
      (periodicity r).
Proof.
  intros Hr. pose proof (buildReductions_best Math_sqrt transactions id) as H.
  by rewrite Hr in H.
Qed.

(** X18: in every entry of [accountReductions] the recurring score lies
    between 10 and 25, the duration score is 0, 10 or 20, the periodicity
    score is 0 or between 10 and 20, the consistency score is not
    negative; when [Math.sqrt] returns no negative number the consistency
    score is at most 15 and the four scores add up to at most 80. *)
Theorem reduction_entry_ranges transactions id r :
  buildReductions Math_sqrt transactions !! id = Some r →
  10 <= recurring r <= 25
  ∧ (duration r = 0 ∨ duration r = 10 ∨ duration r = 20)
  ∧ (periodicity r = 0 ∨ 10 <= periodicity r <= 20)
  ∧ 0 <= consistency r
  ∧ ((∀ q, (0 <= Math_sqrt q)%Q) →
     consistency r <= 15
     ∧ recurring r + duration r + consistency r + periodicity r <= 80).
Proof.
  intros Hr. pose proof (buildReductions_best Math_sqrt transactions id) as H.
  rewrite Hr in H.
  destruct H as ((_ & p1 & Hp1 & _ & E1) & (_ & p2 & _ & _ & E2)
                 & (_ & p3 & _ & _ & E3) & (_ & p4 & _ & _ & E4)).
  pose proof (recurringReduction_bounds p1 (qualifyingPairs_length _ _ Hp1)).
  pose proof (duration_values p2). pose proof (periodicity_values p4).
  pose proof (consistencyReduction_nonneg Math_sqrt p3).
  split; [lia|]. split; [lia|]. split; [lia|]. split; [lia|].
  intros Hsqrt. pose proof (consistency_upper Math_sqrt p3 Hsqrt). lia.
Qed.

(** X19: an account id has an entry in [accountReductions] exactly when
    it is the sender or the receiver of some qualifying pair. *)
Theorem reduction_entry_iff_involved transactions id :
  is_Some (buildReductions Math_sqrt transactions !! id)
  ↔ ∃ pair, pair ∈ qualifyingPairs transactions ∧ involves pair id.
Proof.
  pose proof (buildReductions_best Math_sqrt transactions id) as H.
  destruct (buildReductions Math_sqrt transactions !! id) as [r|].
  - split; [|by eauto]. intros _.
    destruct H as ((_ & p & Hp & Hpi & _) & _). by exists p.
  - split; [by intros [? ?]|]. intros (p & Hp & Hpi). by destruct (H p Hp).
Qed.

(** X20: the run leaves an account exactly as it was if and only if the
    account is a cycle member, or its score is not positive, or it takes
    part in no qualifying pair. *)
Theorem account_unchanged_iff accounts transactions cycleMembers i account :
  accounts !! i = Some account →
  adjustScoresUsingRelationshipIntelligence Math_sqrt Number_toString
    accounts transactions cycleMembers !! i = Some account
  ↔ account_id account ∈ cycleMembers
    ∨ (suspicion_score account <= 0)%Q
    ∨ ∀ pair, pair ∈ qualifyingPairs transactions →
              ¬ involves pair (account_id account).
Proof.
  intros Ha. rewrite adjust_lookup, Ha. cbn [fmap option_fmap option_map].
  pose proof (buildReductions_best Math_sqrt transactions (account_id account))
    as Hbest.
  set (red := buildReductions Math_sqrt transactions) in *.
  split.
  - intros [= Heq].
    destruct (decide (account_id account ∈ cycleMembers)) as [|Hcm];
      [by left|].
    destruct (Qlt_le_dec 0 (suspicion_score account)) as [Hpos|];
      [|by right; left].
    destruct (red !! account_id account) as [r|] eqn:Hr; [|by right; right].
    exfalso.
    pose proof (totalReductionOf_bounds r
                  (buildReductions_good Math_sqrt transactions _ _ Hr)).
    rewrite (adjustAccount_applies Number_toString cycleMembers red account r)
      in Heq by (done || lia).
    apply applyReduction_changes in Heq; [done|lia|done].
  - intros Hcase. f_equal. unfold adjustAccount.
    destruct Hcase as [Hcm|[Hle|Hnone]].
    + by rewrite bool_decide_eq_true_2.
    + apply Qle_bool_iff in Hle. rewrite Hle. by case_bool_decide.
    + case_bool_decide; [done|]. destruct (Qle_bool _ _); [done|].
      destruct (red !! account_id account) as [r|]; [|done].
      destruct Hbest as ((_ & p & Hp & Hpi & _) & _).
      by destruct (Hnone p Hp).
Qed.

Lemma applyReduction_dampened r t a :
  dampened a (applyReduction Number_toString r t a).
Proof.
  unfold dampened. split_and!; try done. right.
  split; [done|]. split; [by eexists|].
  unfold applyReduction. cbn. apply Qgt_bool_iff.
Qed.

Lemma dampened_refl a : dampened a a.
Proof. unfold dampened. split_and!; try done. by left. Qed.

(** X21: the relationship-intelligence run keeps the number and the
    order of the accounts and never changes [account_id],
    [detected_patterns], [total_transactions], [fan_in_classification] or
    [corroboration_checks]; an account it does change gets the algorithm
    name appended, a note appended to [explanation], and is suspicious
    exactly when its new score is positive. *)
Theorem dampening_touches_own_fields_only accounts transactions cycleMembers :
  Forall2 dampened accounts
    (adjustScoresUsingRelationshipIntelligence Math_sqrt Number_toString
       accounts transactions cycleMembers).
Proof.
  unfold adjustScoresUsingRelationshipIntelligence.
  apply Forall2_fmap_r, Forall_Forall2_diag, Forall_forall. intros a _.
  unfold compose.
  destruct (adjustAccount_cases Number_toString cycleMembers
              (buildReductions Math_sqrt transactions) a)
    as [-> | (_ & _ & r & _ & _ & ->)].
  - apply dampened_refl.
  - apply applyReduction_dampened.
Qed.

(** X22: on a batch of fewer than three transactions both engines return
    every account exactly as it was. *)
Theorem small_batch_left_alone accounts transactions graph cycles shellChains
    fanOutMap cycleMembers :
  (length transactions < 3)%nat →
  validateFanInTwoPhase accounts transactions graph cycles shellChains
    fanOutMap = accounts
  ∧ adjustScoresUsingRelationshipIntelligence Math_sqrt Number_toString
      accounts transactions cycleMembers = accounts.
Proof.
  intros Hlen. split.
  - rewrite validate_unfold. by rewrite small_batch_no_candidates.
  - unfold adjustScoresUsingRelationshipIntelligence, buildReductions.
    rewrite qualifyingPairs_small by done. cbn [foldl].
    rewrite <- (list_fmap_id accounts) at 2. apply list_fmap_ext.
    intros j a _. unfold adjustAccount. rewrite lookup_empty.
    case_bool_decide; [done|]. by destruct (Qle_bool _ _).
Qed.

End Dampening.

Lemma reduction_is_best_of_pairs_witness :
  bestOver recurringReduction (qualifyingPairs rentTxs) "X"
    (recurring (mkReduction 12 10 15 20))
  ∧ bestOver durationReduction (qualifyingPairs rentTxs) "X"
      (duration (mkReduction 12 10 15 20))
  ∧ bestOver (consistencyReduction sqrtApprox) (qualifyingPairs rentTxs)
      "X" (consistency (mkReduction 12 10 15 20))
  ∧ bestOver periodicityReduction (qualifyingPairs rentTxs) "X"
      (periodicity (mkReduction 12 10 15 20)).
Proof.
  apply (reduction_is_best_of_pairs sqrtApprox rentTxs "X"
           (mkReduction 12 10 15 20)).
  vm_compute. reflexivity.
Defined.

Lemma sqrtApprox_nonneg q : (0 <= sqrtApprox q)%Q.
Proof.
  unfold sqrtApprox, Qle. cbn [Qnum Qden].
  pose proof (Z.sqrt_nonneg (Qnum q * Zpos (Qden q) * 4 ^ 32)). lia.
Qed.

Lemma reduction_entry_ranges_witness :
  10 <= recurring (mkReduction 12 10 15 20) <= 25
  ∧ (duration (mkReduction 12 10 15 20) = 0
     ∨ duration (mkReduction 12 10 15 20) = 10
     ∨ duration (mkReduction 12 10 15 20) = 20)
  ∧ (periodicity (mkReduction 12 10 15 20) = 0
     ∨ 10 <= periodicity (mkReduction 12 10 15 20) <= 20)
  ∧ 0 <= consistency (mkReduction 12 10 15 20)
  ∧ consistency (mkReduction 12 10 15 20) <= 15
  ∧ recurring (mkReduction 12 10 15 20) + duration (mkReduction 12 10 15 20)
    + consistency (mkReduction 12 10 15 20)
    + periodicity (mkReduction 12 10 15 20) <= 80.
Proof.
  destruct (reduction_entry_ranges sqrtApprox rentTxs "X"
              (mkReduction 12 10 15 20)) as (H1 & H2 & H3 & H4 & H5).
  { vm_compute. reflexivity. }
  destruct (H5 sqrtApprox_nonneg) as [H6 H7].
  split; [exact H1|]. split; [exact H2|]. split; [exact H3|].
  split; [exact H4|]. split; [exact H6|exact H7].
Defined.

Lemma account_unchanged_iff_witness :
  adjustScoresUsingRelationshipIntelligence sqrtApprox showNumber
    rentAccounts rentTxs ∅ !! 2%nat = Some (account0 "Z" 5 1)
  ↔ account_id (account0 "Z" 5 1) ∈ (∅ : gset string)
    ∨ (suspicion_score (account0 "Z" 5 1) <= 0)%Q
    ∨ ∀ pair, pair ∈ qualifyingPairs rentTxs →
              ¬ involves pair (account_id (account0 "Z" 5 1)).
Proof.
  apply (account_unchanged_iff sqrtApprox showNumber rentAccounts rentTxs ∅
           2 (account0 "Z" 5 1)).
  reflexivity.
Defined.

Lemma small_batch_left_alone_witness :
  validateFanInTwoPhase fanInAccounts [mkTx "A" "R" 100 0] ∅ [] [] ∅
  = fanInAccounts
  ∧ adjustScoresUsingRelationshipIntelligence sqrtApprox showNumber
      fanInAccounts [mkTx "A" "R" 100 0] ∅ = fanInAccounts.
Proof.
  apply (small_batch_left_alone sqrtApprox showNumber fanInAccounts
           [mkTx "A" "R" 100 0] ∅ [] [] ∅ ∅).
  simpl. lia.
Defined.
